(** * mongosh: the evaluation core

    A shallow embedding of the shell evaluator
    ([packages/shell-evaluator/src/shell-evaluator.ts]) and of the
    asynchronous REPL wrapper ([start], the async-repl module), together
    with state-machine models of the change-stream cursor and the session
    wrapper.  Further modules embed the shell's internal state
    ([ShellInternalState]), the help and collection formatters of
    [cli-repl/src/format-output.ts], the publish step of the release
    ([build/src/run-publish.ts]) and the release methods of the GitHub
    repository wrapper ([GithubRepo]).

    JavaScript strings are [string]s whose characters are read as code units
    below 256.  Values of type [any] are kept abstract.  An [async] function
    is a state transformer that ends in one of three ways: its promise is
    fulfilled, it is rejected, or it never settles. *)

From Stdlib Require Import String Ascii List Bool Arith Lia.
Import ListNotations.
Open Scope string_scope.
Open Scope list_scope.

(** ** Completions *)

Inductive outcome (E A : Type) : Type :=
| Fulfilled (a : A)
| Thrown (e : E)
| Pending.

Arguments Fulfilled {E A} a.
Arguments Thrown {E A} e.
Arguments Pending {E A}.

(** A computation over a mutable store [S] that may throw an [E]. *)
Definition M (S E A : Type) : Type := S -> outcome E A * S.

Definition ret {S E A} (a : A) : M S E A := fun s => (Fulfilled a, s).

Definition throw {S E A} (e : E) : M S E A := fun s => (Thrown e, s).

Definition bind {S E A B} (m : M S E A) (k : A -> M S E B) : M S E B :=
  fun s =>
    match m s with
    | (Fulfilled a, s') => k a s'
    | (Thrown e, s') => (Thrown e, s')
    | (Pending, s') => (Pending, s')
    end.

Definition get {S E} : M S E S := fun s => (Fulfilled s, s).

Definition gets {S E A} (f : S -> A) : M S E A := fun s => (Fulfilled (f s), s).

Definition modify {S E} (f : S -> S) : M S E unit := fun s => (Fulfilled tt, f s).

(** [await p]: resume with the settled state of [p]. *)
Definition await {S E A} (p : outcome E A) : M S E A := fun s => (p, s).

(** [try { m } catch (err) { h err }] *)
Definition try_catch {S E A} (m : M S E A) (h : E -> M S E A) : M S E A :=
  fun s =>
    match m s with
    | (Thrown e, s') => h e s'
    | r => r
    end.

(** [try { m } finally { f }]: [f] runs when [m] completes either way, and a
    throw inside [f] replaces the completion of [m].  A computation that
    never resumes does not reach its [finally] block. *)
Definition try_finally {S E A} (m : M S E A) (f : M S E unit) : M S E A :=
  fun s =>
    match m s with
    | (Pending, s') => (Pending, s')
    | (r, s') =>
        match f s' with
        | (Fulfilled _, s'') => (r, s'')
        | (Thrown e, s'') => (Thrown e, s'')
        | (Pending, s'') => (Pending, s'')
        end
    end.

Definition when {S E} (b : bool) (m : M S E unit) : M S E unit :=
  if b then m else ret tt.

Declare Scope js_scope.
Delimit Scope js_scope with js.
Notation "x <- m ;; k" := (bind m (fun x => k))
  (at level 61, m at next level, right associativity) : js_scope.
Notation "m ;; k" := (bind m (fun _ => k))
  (at level 61, right associativity) : js_scope.

(** ** String.prototype *)

Module JS.

(** WhiteSpace and LineTerminator code units below 256: TAB, LF, VT, FF,
    CR, SP and NBSP.  This is the class [\s] and what [trim] strips. *)
Definition isWhiteSpace (c : ascii) : bool :=
  match nat_of_ascii c with
  | 9 | 10 | 11 | 12 | 13 | 32 | 160 => true
  | _ => false
  end.

Definition isEmpty (s : string) : bool :=
  match s with EmptyString => true | String _ _ => false end.

Fixpoint trimStart (s : string) : string :=
  match s with
  | EmptyString => EmptyString
  | String c s' => if isWhiteSpace c then trimStart s' else s
  end.

Fixpoint trimEnd (s : string) : string :=
  match s with
  | EmptyString => EmptyString
  | String c s' =>
      let t := trimEnd s' in
      if isWhiteSpace c && isEmpty t then EmptyString else String c t
  end.

(** [s.trim()] *)
Definition trim (s : string) : string := trimEnd (trimStart s).

(** [s.replace(/;$/, '')]: without the [m] flag, [$] is the end of input. *)
Fixpoint replace_semicolon_at_end (s : string) : string :=
  match s with
  | EmptyString => EmptyString
  | String c EmptyString => if Ascii.eqb c ";" then EmptyString else s
  | String c s' => String c (replace_semicolon_at_end s')
  end.

(** [s.split(/\s+/g)]: the pieces between maximal runs of white space;
    [cur] is the piece being read, [inSep] tells that the previous
    code unit belonged to a separator. *)
Fixpoint split_go (inSep : bool) (cur : string) (s : string) : list string :=
  match s with
  | EmptyString => [cur]
  | String c s' =>
      if isWhiteSpace c
      then if inSep then split_go true cur s'
           else cur :: split_go true EmptyString s'
      else split_go false (cur ++ String c EmptyString)%string s'
  end.

Definition split_whitespace (s : string) : list string :=
  split_go false EmptyString s.

(** [s.startsWith(p)] *)
Definition startsWith (p s : string) : bool := String.prefix p s.

(** [s.includes(p)] *)
Fixpoint includes (p s : string) : bool :=
  String.prefix p s ||
  match s with
  | EmptyString => false
  | String _ s' => includes p s'
  end.

(** The line feed of a ['\n'] escape. *)
Definition LF : string := String (ascii_of_nat 10) EmptyString.

End JS.

(** ** ShellEvaluator (shell-evaluator.ts) *)

Module ShellEvaluator.

Section Evaluator.

(** Values of type [any]: evaluation results and thrown errors. *)
Variable Val : Type.
(** The execution context handed through to [originalEval]. *)
Variable Ctx : Type.
(** What the result handler produces ([EvaluationResultType]). *)
Variable Res : Type.

(** A member of [instanceState.shellApi]: its [isDirectShellCommand]
    mark and what calling it with string arguments settles to. *)
Record ShellApiMember : Type := {
  isDirectShellCommand : bool;
  invoke : list string -> outcome Val Val
}.

(** The calls of [innerEval] that return in the usual case: what each
    throws when it does not, [None] when it returns.  The first four sit
    outside the [try] of [innerEval]; [transformError] is called in its
    [catch] block. *)
Record Faults : Type := {
  (* redactSensitiveData(text) *)
  redactSensitiveData_throws : string -> option Val;
  (* messageBus.emit('mongosh:evaluate-input', { input: payload }):
     a listener throws *)
  emit_throws : string -> option Val;
  (* asyncWriter.runtimeSupportCode() *)
  runtimeSupportCode_throws : option Val;
  (* eval(code) in the evaluator's own realm *)
  eval_throws : string -> option Val;
  (* instanceState.transformError(err) *)
  transformError_throws : Val -> option Val
}.

(** [shellApi[cmd]], [None] for [undefined]. *)
Variable shellApi : string -> option ShellApiMember.
(** [asyncWriter.process(input)]: the rewritten text, or a throw. *)
Variable asyncWriter_process : string -> outcome Val string.
(** [asyncWriter.runtimeSupportCode()] *)
Variable asyncWriter_runtimeSupportCode : string.
(** [RegExp(HIDDEN_COMMANDS, 'g').test(s)] *)
Variable hiddenCommands_test : string -> bool.
Variable redactSensitiveData : string -> string.
(** [instanceState.transformError] *)
Variable transformError : Val -> Val.
(** [resultHandler] *)
Variable resultHandler : Val -> outcome Val Res.
Variable faults : Faults.

(** [EvaluationFunction]: what the returned promise settles to. *)
Definition EvaluationFunction : Type :=
  string -> Ctx -> string -> outcome Val Val.

(** What an evaluation does to the world outside the evaluator. *)
Inductive Effect : Type :=
| CalledShellCommand (cmd : string) (argv : list string)
| CalledProcess (input : string)
| EmittedEvaluateInput (input : string)
| EvaledInHostRealm (code : string)
| CalledOriginalEval (code : string) (context : Ctx) (filename : string).

Record Evaluator : Type := {
  hasAppliedAsyncWriterRuntimeSupport : bool;
  effects : list Effect
}.

Definition set_hasApplied (b : bool) (e : Evaluator) : Evaluator :=
  {| hasAppliedAsyncWriterRuntimeSupport := b; effects := effects e |}.

Definition perform (x : Effect) (e : Evaluator) : Evaluator :=
  {| hasAppliedAsyncWriterRuntimeSupport :=
       hasAppliedAsyncWriterRuntimeSupport e;
     effects := effects e ++ [x] |}.

(** The field initialiser sets the flag, the constructor body clears it. *)
Definition constructor : Evaluator :=
  set_hasApplied false
    {| hasAppliedAsyncWriterRuntimeSupport := true; effects := [] |}.

(** [input.trim().replace(/;$/, '').split(/\s+/g)] *)
Definition argv_of (input : string) : list string :=
  JS.split_whitespace (JS.replace_semicolon_at_end (JS.trim input)).

(** [argv.shift()]; on an empty array it gives [undefined], and
    [shellApi[undefined]] reads the property named undefined. *)
Definition shift (argv : list string) : string * list string :=
  match argv with
  | [] => ("undefined", [])
  | cmd :: rest => (cmd, rest)
  end.

(** [shellApi[cmd]?.isDirectShellCommand &&
     !(argv[0] ?? '').startsWith('(')] *)
Definition direct_command (input : string)
  : option (string * ShellApiMember * list string) :=
  let (cmd, argv) := shift (argv_of input) in
  match shellApi cmd with
  | Some m =>
      if isDirectShellCommand m
         && negb (JS.startsWith "(" (hd EmptyString argv))
      then Some (cmd, m, argv)
      else None
  | None => None
  end.

Local Open Scope js_scope.

(** A call that throws [err], or returns. *)
Definition throw_if {S : Type} (fault : option Val) : M S Val unit :=
  match fault with
  | Some err => throw err
  | None => ret tt
  end.

Definition innerEval (originalEval : EvaluationFunction)
    (input : string) (context : Ctx) (filename : string)
  : M Evaluator Val Val :=
  match direct_command input with
  | Some (cmd, m, argv) =>
      modify (perform (CalledShellCommand cmd argv)) ;;
      await (invoke m argv)
  | None =>
      modify (perform (CalledProcess input)) ;;
      rewrittenInput <- await (asyncWriter_process input) ;;
      when (negb (hiddenCommands_test input)
            && negb (hiddenCommands_test rewrittenInput))
        (throw_if (redactSensitiveData_throws faults (JS.trim input)) ;;
         let payload := redactSensitiveData (JS.trim input) in
         modify (perform (EmittedEvaluateInput payload)) ;;
         throw_if (emit_throws faults payload)) ;;
      applied <- gets hasAppliedAsyncWriterRuntimeSupport ;;
      rewrittenInput <-
        (if negb applied
         then
           modify (set_hasApplied true) ;;
           throw_if (runtimeSupportCode_throws faults) ;;
           let supportCode := asyncWriter_runtimeSupportCode in
           modify (perform (EvaledInHostRealm supportCode)) ;;
           throw_if (eval_throws faults supportCode) ;;
           ret (supportCode ++ ";" ++ JS.LF ++ rewrittenInput)%string
         else ret rewrittenInput) ;;
      try_catch
        (modify (perform
           (CalledOriginalEval rewrittenInput context filename)) ;;
         await (originalEval rewrittenInput context filename))
        (fun err =>
           throw_if (transformError_throws faults err) ;;
           throw (transformError err))
  end.

Definition customEval (originalEval : EvaluationFunction)
    (input : string) (context : Ctx) (filename : string)
  : M Evaluator Val Res :=
  evaluationResult <- innerEval originalEval input context filename ;;
  await (resultHandler evaluationResult).

(** One call of a session: what is typed and what it is run with. *)
Record Call : Type := {
  call_eval : EvaluationFunction;
  call_input : string;
  call_context : Ctx;
  call_filename : string
}.

Definition run_call (c : Call) : M Evaluator Val Res :=
  customEval (call_eval c) (call_input c) (call_context c)
    (call_filename c).

(** The calls of a session, one after the other; a call that never
    settles is the last one. *)
Fixpoint session (calls : list Call) (e : Evaluator) : Evaluator :=
  match calls with
  | [] => e
  | c :: rest =>
      match run_call c e with
      | (Pending, e') => e'
      | (_, e') => session rest e'
      end
  end.

(** Every call of the sequence settles, so that the session gets to
    what comes after it. *)
Fixpoint concludes (calls : list Call) (e : Evaluator) : bool :=
  match calls with
  | [] => true
  | c :: rest =>
      match run_call c e with
      | (Pending, _) => false
      | (_, e') => concludes rest e'
      end
  end.

(** *** The parts of one evaluation *)

(** Lines 45 to 51: the event sent on the message bus unless the input or
    its rewritten text is a hidden command, and the error when the
    redaction or a listener throws. *)
Definition announcement (input r : string) : list Effect * option Val :=
  if negb (hiddenCommands_test input) && negb (hiddenCommands_test r)
  then
    match redactSensitiveData_throws faults (JS.trim input) with
    | Some err => ([], Some err)
    | None =>
        let payload := redactSensitiveData (JS.trim input) in
        ([EmittedEvaluateInput payload], emit_throws faults payload)
    end
  else ([], None).

(** What an evaluation does before it tests the flag. *)
Definition prelude (input r : string) : list Effect :=
  CalledProcess input :: fst (announcement input r).

(** The rewritten text with which an evaluation gets to the test of the
    flag at line 53: the input is no direct command, the rewriter accepted
    it, and the announcement returned. *)
Definition reaches (input : string) : option string :=
  match direct_command input with
  | Some _ => None
  | None =>
      match asyncWriter_process input with
      | Fulfilled r =>
          match snd (announcement input r) with
          | None => Some r
          | Some _ => None
          end
      | _ => None
      end
  end.

(** The effects of an evaluation that does not get to the flag. *)
Definition stopped_effects (input : string) : list Effect :=
  match direct_command input with
  | Some (cmd, _, argv) => [CalledShellCommand cmd argv]
  | None =>
      match asyncWriter_process input with
      | Fulfilled r => prelude input r
      | _ => [CalledProcess input]
      end
  end.

(** The text [originalEval] is called with, at a given flag. *)
Definition evaluated_text (applied : bool) (r : string) : string :=
  if applied then r
  else (asyncWriter_runtimeSupportCode ++ ";" ++ JS.LF ++ r)%string.

(** Lines 55 to 62: the error when the support code cannot be produced
    or evaluated in the evaluator's own realm. *)
Definition injection_fault : option Val :=
  match runtimeSupportCode_throws faults with
  | Some err => Some err
  | None => eval_throws faults asyncWriter_runtimeSupportCode
  end.

(** Lines 53 to 67 with the flag clear: the support code is evaluated in
    the evaluator's own realm and then, in front of the rewritten text,
    by [originalEval]; a throw on the way ends the evaluation there. *)
Definition injection (r : string) (context : Ctx) (filename : string)
  : list Effect :=
  match runtimeSupportCode_throws faults with
  | Some _ => []
  | None =>
      EvaledInHostRealm asyncWriter_runtimeSupportCode
      :: match eval_throws faults asyncWriter_runtimeSupportCode with
         | Some _ => []
         | None =>
             [CalledOriginalEval (evaluated_text false r) context filename]
         end
  end.

(** What an evaluation that gets to the flag adds after its prelude. *)
Definition evaluation (applied : bool) (r : string) (context : Ctx)
    (filename : string) : list Effect :=
  if applied then [CalledOriginalEval r context filename]
  else injection r context filename.

(** Lines 66 to 70: an error of [originalEval] is replaced by what
    [transformError] returns for it, or throws. *)
Definition transformed (settled : outcome Val Val) : outcome Val Val :=
  match settled with
  | Thrown err =>
      match transformError_throws faults err with
      | Some err' => Thrown err'
      | None => Thrown (transformError err)
      end
  | _ => settled
  end.

Arguments prelude : simpl never.
Arguments injection : simpl never.
Arguments stopped_effects : simpl never.

Definition is_host_eval (x : Effect) : bool :=
  match x with EvaledInHostRealm _ => true | _ => false end.

Definition is_original_eval (x : Effect) : bool :=
  match x with CalledOriginalEval _ _ _ => true | _ => false end.

Definition is_process (x : Effect) : bool :=
  match x with CalledProcess _ => true | _ => false end.

(** Neither realm evaluates anything. *)
Definition no_eval (x : Effect) : Prop :=
  is_host_eval x = false /\ is_original_eval x = false.

(** After the flag is set: no host-realm evaluation, and the user realm
    gets texts exactly as the rewriter produced them. *)
Definition plain_eval (x : Effect) : Prop :=
  match x with
  | EvaledInHostRealm _ => False
  | CalledOriginalEval code _ _ =>
      exists input, asyncWriter_process input = Fulfilled code
  | _ => True
  end.

(** The evaluator either has not got to the flag yet, or has set it in
    one evaluation, the only one to inject the support code. *)
Inductive injection_state (e : Evaluator) : Prop :=
| NotInjected :
    hasAppliedAsyncWriterRuntimeSupport e = false ->
    Forall no_eval (effects e) ->
    injection_state e
| InjectedOnce (before after : list Effect) (input r : string)
    (context : Ctx) (filename : string) :
    hasAppliedAsyncWriterRuntimeSupport e = true ->
    reaches input = Some r ->
    effects e = before ++ injection r context filename ++ after ->
    Forall no_eval before ->
    Forall plain_eval after ->
    injection_state e.

(** *** Tokens *)

Lemma split_go_not_nil (inSep : bool) (cur s : string) :
  JS.split_go inSep cur s <> [].
Proof.
  revert inSep cur.
  induction s as [|c s IH]; intros inSep cur; simpl.
  - discriminate.
  - destruct (JS.isWhiteSpace c); [destruct inSep|]; auto; discriminate.
Qed.

(** [split] always yields a first piece, so [shift] never reads
    [undefined]. *)
Lemma argv_of_not_nil (input : string) : argv_of input <> [].
Proof. apply split_go_not_nil. Qed.

(** *** Direct shell commands *)

Lemma direct_command_spec (input cmd : string) (argv : list string)
    (m : ShellApiMember) :
  argv_of input = cmd :: argv ->
  shellApi cmd = Some m ->
  isDirectShellCommand m = true ->
  (forall a, hd_error argv = Some a -> JS.startsWith "(" a = false) ->
  direct_command input = Some (cmd, m, argv).
Proof.
  intros Hargv Hm Hdirect Hparen.
  unfold direct_command. rewrite Hargv. simpl. rewrite Hm, Hdirect.
  destruct argv as [|a rest]; simpl.
  - reflexivity.
  - rewrite (Hparen a eq_refl). reflexivity.
Qed.

Lemma reaches_inv (input r : string) :
  reaches input = Some r ->
  direct_command input = None
  /\ asyncWriter_process input = Fulfilled r
  /\ snd (announcement input r) = None.
Proof.
  unfold reaches.
  destruct (direct_command input); [discriminate|].
  destruct (asyncWriter_process input) as [r'| |]; try discriminate.
  destruct (snd (announcement input r')) eqn:Ha; [discriminate|].
  intros [= <-]. auto.
Qed.

(** *** One evaluation *)

Lemma innerEval_direct (originalEval : EvaluationFunction)
    (input : string) (context : Ctx) (filename : string)
    (e : Evaluator) (cmd : string) (m : ShellApiMember)
    (argv : list string) :
  direct_command input = Some (cmd, m, argv) ->
  innerEval originalEval input context filename e =
  (invoke m argv, perform (CalledShellCommand cmd argv) e).
Proof.
  intros Hd. unfold innerEval. rewrite Hd.
  unfold bind, modify, await. simpl. now destruct (invoke m argv).
Qed.

(** An input that is no direct command: how the evaluation settles and
    the state it leaves, path by path. *)
Lemma innerEval_run (originalEval : EvaluationFunction)
    (input : string) (context : Ctx) (filename : string)
    (e : Evaluator) :
  direct_command input = None ->
  innerEval originalEval input context filename e =
  match asyncWriter_process input with
  | Fulfilled r =>
      match snd (announcement input r) with
      | Some err =>
          (Thrown err,
           {| hasAppliedAsyncWriterRuntimeSupport :=
                hasAppliedAsyncWriterRuntimeSupport e;
              effects := effects e ++ prelude input r |})
      | None =>
          (if hasAppliedAsyncWriterRuntimeSupport e
           then transformed (originalEval r context filename)
           else
             match injection_fault with
             | Some err => Thrown err
             | None =>
                 transformed
                   (originalEval (evaluated_text false r) context filename)
             end,
           {| hasAppliedAsyncWriterRuntimeSupport := true;
              effects :=
                effects e ++ prelude input r
                ++ evaluation (hasAppliedAsyncWriterRuntimeSupport e) r
                     context filename |})
      end
  | Thrown err => (Thrown err, perform (CalledProcess input) e)
  | Pending => (Pending, perform (CalledProcess input) e)
  end.
Proof.
  intros Hd. unfold innerEval. rewrite Hd.
  destruct e as [applied effs].
  unfold prelude, announcement, evaluation, injection, injection_fault,
    transformed, evaluated_text.
  cbv beta iota delta [bind modify await when gets try_catch throw ret
                       throw_if perform set_hasApplied
                       hasAppliedAsyncWriterRuntimeSupport effects fst snd].
  destruct (asyncWriter_process input) as [r|err|]; try reflexivity.
  destruct (negb (hiddenCommands_test input)
            && negb (hiddenCommands_test r));
    cbv beta iota;
    [destruct (redactSensitiveData_throws faults (JS.trim input));
       cbv beta iota; [reflexivity|];
     destruct (emit_throws faults
                 (redactSensitiveData (JS.trim input)));
       cbv beta iota; [rewrite <- app_assoc; reflexivity|]
    |];
    (destruct applied; cbv beta iota delta [negb];
     [|destruct (runtimeSupportCode_throws faults); cbv beta iota;
       [rewrite <- ?app_assoc; simpl; rewrite ?app_nil_r; reflexivity|];
       destruct (eval_throws faults asyncWriter_runtimeSupportCode);
       cbv beta iota;
       [rewrite <- ?app_assoc; reflexivity|]]);
    match goal with
    | |- context [originalEval ?c ?x ?f] =>
        destruct (originalEval c x f) as [v|err|]
    end; cbv beta iota;
    try (destruct (transformError_throws faults err); cbv beta iota);
    rewrite <- ?app_assoc; reflexivity.
Qed.

(** The state an evaluation leaves. *)
Lemma innerEval_state (originalEval : EvaluationFunction)
    (input : string) (context : Ctx) (filename : string)
    (e : Evaluator) :
  snd (innerEval originalEval input context filename e) =
  match reaches input with
  | Some r =>
      {| hasAppliedAsyncWriterRuntimeSupport := true;
         effects :=
           effects e ++ prelude input r
           ++ evaluation (hasAppliedAsyncWriterRuntimeSupport e) r
                context filename |}
  | None =>
      {| hasAppliedAsyncWriterRuntimeSupport :=
           hasAppliedAsyncWriterRuntimeSupport e;
         effects := effects e ++ stopped_effects input |}
  end.
Proof.
  unfold reaches, stopped_effects.
  destruct (direct_command input) as [[[cmd m] argv]|] eqn:Hd.
  - now rewrite (innerEval_direct originalEval _ context filename e _ _ _ Hd).
  - rewrite (innerEval_run originalEval _ context filename e Hd).
    destruct (asyncWriter_process input) as [r|err|]; try reflexivity.
    destruct (snd (announcement input r)); reflexivity.
Qed.

Lemma customEval_state (originalEval : EvaluationFunction)
    (input : string) (context : Ctx) (filename : string)
    (e : Evaluator) :
  snd (customEval originalEval input context filename e) =
  snd (innerEval originalEval input context filename e).
Proof.
  unfold customEval, bind, await.
  destruct (innerEval originalEval input context filename e) as [[v|err|] e'];
    reflexivity.
Qed.

(** [customEval] settles as the result handler does on the value of
    [innerEval], and as [innerEval] does otherwise. *)
Lemma customEval_result (originalEval : EvaluationFunction)
    (input : string) (context : Ctx) (filename : string)
    (e : Evaluator) :
  fst (customEval originalEval input context filename e) =
  match fst (innerEval originalEval input context filename e) with
  | Fulfilled v => resultHandler v
  | Thrown err => Thrown err
  | Pending => Pending
  end.
Proof.
  unfold customEval, bind, await.
  destruct (innerEval originalEval input context filename e) as [[v|err|] e'];
    reflexivity.
Qed.

(** *** What the parts evaluate *)

Lemma no_eval_plain (x : Effect) : no_eval x -> plain_eval x.
Proof. destruct x; simpl; intros [H1 H2]; auto; discriminate. Qed.

Lemma prelude_no_eval (input r : string) : Forall no_eval (prelude input r).
Proof.
  unfold prelude, announcement.
  constructor; [split; reflexivity|].
  destruct (negb (hiddenCommands_test input)
            && negb (hiddenCommands_test r)); [|constructor].
  destruct (redactSensitiveData_throws faults (JS.trim input));
    repeat constructor.
Qed.

Lemma stopped_effects_no_eval (input : string) :
  Forall no_eval (stopped_effects input).
Proof.
  unfold stopped_effects.
  destruct (direct_command input) as [[[cmd m] argv]|].
  - repeat constructor.
  - destruct (asyncWriter_process input) as [r|err|].
    + apply prelude_no_eval.
    + repeat constructor.
    + repeat constructor.
Qed.

(** *** Sessions *)

Lemma session_app (pre post : list Call) (e : Evaluator) :
  concludes pre e = true ->
  session (pre ++ post) e = session post (session pre e).
Proof.
  revert e. induction pre as [|c pre IH]; intros e; simpl.
  - reflexivity.
  - destruct (run_call c e) as [[v|err|] e']; auto; discriminate.
Qed.

(** A session none of whose evaluations gets to the flag. *)
Lemma session_stopped (calls : list Call) (e : Evaluator) :
  Forall (fun c => reaches (call_input c) = None) calls ->
  hasAppliedAsyncWriterRuntimeSupport (session calls e) =
  hasAppliedAsyncWriterRuntimeSupport e
  /\ exists added,
       effects (session calls e) = effects e ++ added
       /\ Forall no_eval added.
Proof.
  intros Hall. revert e.
  induction Hall as [|c calls Hc Hall IH]; intros e; simpl.
  - split; [reflexivity|]. exists []. now rewrite app_nil_r.
  - pose proof (innerEval_state (call_eval c) (call_input c)
                  (call_context c) (call_filename c) e) as Hstep.
    rewrite Hc in Hstep.
    rewrite <- customEval_state in Hstep. fold (run_call c) in Hstep.
    assert (Hhere :
      hasAppliedAsyncWriterRuntimeSupport (snd (run_call c e)) =
      hasAppliedAsyncWriterRuntimeSupport e
      /\ exists added,
           effects (snd (run_call c e)) = effects e ++ added
           /\ Forall no_eval added).
    { rewrite Hstep. simpl. split; [reflexivity|].
      eexists. split; [reflexivity|apply stopped_effects_no_eval]. }
    destruct (run_call c e) as [[v|err|] e']; simpl in Hhere, Hstep;
      try exact Hhere;
      destruct (IH e') as (Hflag & added & Heff & Hadded);
      (split; [now rewrite Hflag, Hstep|]);
      exists (stopped_effects (call_input c) ++ added);
      (split; [rewrite Heff, Hstep; simpl; now rewrite app_assoc|]);
      (apply Forall_app; split;
         [apply stopped_effects_no_eval|assumption]).
Qed.

(** Once the flag is set it stays set, nothing more is evaluated in the
    evaluator's own realm, and [originalEval] gets rewritten texts as
    they are. *)
Lemma innerEval_applied (originalEval : EvaluationFunction)
    (input : string) (context : Ctx) (filename : string)
    (e : Evaluator) :
  hasAppliedAsyncWriterRuntimeSupport e = true ->
  hasAppliedAsyncWriterRuntimeSupport
    (snd (innerEval originalEval input context filename e)) = true
  /\ exists added,
       effects (snd (innerEval originalEval input context filename e)) =
       effects e ++ added
       /\ Forall plain_eval added.
Proof.
  intros Hflag. rewrite innerEval_state.
  destruct (reaches input) as [r|] eqn:Hr;
    cbn [hasAppliedAsyncWriterRuntimeSupport effects].
  - split; [reflexivity|]. eexists. split; [reflexivity|].
    rewrite Hflag. unfold evaluation.
    destruct (reaches_inv _ _ Hr) as (_ & Hp & _).
    apply Forall_app. split.
    + eapply Forall_impl; [apply no_eval_plain|apply prelude_no_eval].
    + constructor; [|constructor]. simpl. eauto.
  - split; [assumption|]. eexists. split; [reflexivity|].
    eapply Forall_impl; [apply no_eval_plain|apply stopped_effects_no_eval].
Qed.

Lemma session_applied (calls : list Call) (e : Evaluator) :
  hasAppliedAsyncWriterRuntimeSupport e = true ->
  hasAppliedAsyncWriterRuntimeSupport (session calls e) = true
  /\ exists added,
       effects (session calls e) = effects e ++ added
       /\ Forall plain_eval added.
Proof.
  revert e. induction calls as [|c calls IH]; intros e Hflag; simpl.
  - split; [assumption|]. exists []. now rewrite app_nil_r.
  - pose proof (innerEval_applied (call_eval c) (call_input c)
                  (call_context c) (call_filename c) e Hflag) as Hstep.
    rewrite <- customEval_state in Hstep. fold (run_call c) in Hstep.
    destruct (run_call c e) as [[v|err|] e']; simpl in Hstep;
      try exact Hstep;
      destruct Hstep as (Hflag' & first & Hfirst & Hplain);
      destruct (IH e' Hflag') as (Hflag'' & added & Heff & Hadded);
      (split; [assumption|]);
      exists (first ++ added);
      (split; [rewrite Heff, Hfirst; now rewrite app_assoc|]);
      (apply Forall_app; split; assumption).
Qed.

(** The session up to the first evaluation that gets to the flag, that
    evaluation, and what follows it. *)
Lemma session_first_reaching (pre post : list Call) (c : Call)
    (r : string) (e : Evaluator) :
  hasAppliedAsyncWriterRuntimeSupport e = false ->
  concludes pre e = true ->
  Forall (fun c' => reaches (call_input c') = None) pre ->
  reaches (call_input c) = Some r ->
  hasAppliedAsyncWriterRuntimeSupport (session (pre ++ c :: post) e) = true
  /\ exists before after,
       effects (session pre e) = effects e ++ before
       /\ effects (session (pre ++ c :: post) e) =
          effects (session pre e)
          ++ prelude (call_input c) r
          ++ injection r (call_context c) (call_filename c)
          ++ after
       /\ Forall no_eval before
       /\ Forall plain_eval after.
Proof.
  intros Hflag Hpre Hstopped Hr.
  rewrite (session_app _ _ _ Hpre).
  destruct (session_stopped pre e Hstopped) as (Hflag0 & before & Hbefore & Hb).
  rewrite Hflag in Hflag0.
  set (e0 := session pre e) in *. cbn [session].
  pose proof (innerEval_state (call_eval c) (call_input c)
                (call_context c) (call_filename c) e0) as Hstep.
  rewrite Hr, Hflag0 in Hstep. unfold evaluation in Hstep.
  rewrite <- customEval_state in Hstep. fold (run_call c) in Hstep.
  destruct (run_call c e0) as [[v|err|] e1]; cbn [snd] in Hstep; subst e1.
  - destruct (session_applied post
                {| hasAppliedAsyncWriterRuntimeSupport := true;
                   effects :=
                     effects e0 ++ prelude (call_input c) r
                     ++ injection r (call_context c) (call_filename c) |}
                eq_refl) as (Hflag1 & after & Heff & Ha).
    split; [assumption|]. exists before, after.
    split; [exact Hbefore|]. split; [|split; assumption].
    rewrite Heff. cbn [effects]. now rewrite <- !app_assoc.
  - destruct (session_applied post
                {| hasAppliedAsyncWriterRuntimeSupport := true;
                   effects :=
                     effects e0 ++ prelude (call_input c) r
                     ++ injection r (call_context c) (call_filename c) |}
                eq_refl) as (Hflag1 & after & Heff & Ha).
    split; [assumption|]. exists before, after.
    split; [exact Hbefore|]. split; [|split; assumption].
    rewrite Heff. cbn [effects]. now rewrite <- !app_assoc.
  - split; [reflexivity|]. exists before, [].
    split; [exact Hbefore|]. split; [|split; [assumption|constructor]].
    cbn [effects]. now rewrite app_nil_r.
Qed.

Lemma injection_state_step (originalEval : EvaluationFunction)
    (input : string) (context : Ctx) (filename : string)
    (e : Evaluator) :
  injection_state e ->
  injection_state (snd (innerEval originalEval input context filename e)).
Proof.
  intros Hinv.
  destruct Hinv as [Hflag Hclean
                   |before after input0 r0 ctx0 fn0 Hflag Hr0 Heff Hb Ha].
  - rewrite innerEval_state.
    destruct (reaches input) as [r|] eqn:Hr.
    + rewrite Hflag.
      apply (InjectedOnce _ (effects e ++ prelude input r) []
               input r context filename); simpl; auto.
      * now rewrite app_nil_r, <- app_assoc.
      * apply Forall_app. split; [assumption|apply prelude_no_eval].
    + apply NotInjected; simpl; auto.
      apply Forall_app. split; [assumption|apply stopped_effects_no_eval].
  - destruct (innerEval_applied originalEval input context filename e Hflag)
      as (Hflag' & added & Hadded & Hplain).
    apply (InjectedOnce _ before (after ++ added) input0 r0 ctx0 fn0); auto.
    + rewrite Hadded, Heff. now rewrite <- !app_assoc.
    + apply Forall_app. split; assumption.
Qed.

Lemma injection_state_session (calls : list Call) (e : Evaluator) :
  injection_state e -> injection_state (session calls e).
Proof.
  revert e. induction calls as [|c calls IH]; intros e Hinv; simpl.
  - assumption.
  - pose proof (injection_state_step (call_eval c) (call_input c)
                  (call_context c) (call_filename c) e Hinv) as Hstep.
    rewrite <- customEval_state in Hstep. fold (run_call c) in Hstep.
    destruct (run_call c e) as [[v|err|] e']; simpl in Hstep; auto.
Qed.

(** C10. An input whose first token names a shell API member marked
    [isDirectShellCommand], and whose second token, if there is one, does
    not start with an opening parenthesis, is run by calling that member
    with the remaining tokens: [innerEval] settles as the call does, the
    only effect is the call, the rewriter is not called, nothing is
    evaluated in either realm and the runtime-support flag keeps its
    value. *)
Theorem innerEval_direct_shell_command
    (originalEval : EvaluationFunction)
    (input : string) (context : Ctx) (filename : string)
    (cmd : string) (argv : list string) (m : ShellApiMember)
    (e : Evaluator) :
  argv_of input = cmd :: argv ->
  shellApi cmd = Some m ->
  isDirectShellCommand m = true ->
  (forall a, hd_error argv = Some a -> JS.startsWith "(" a = false) ->
  let (result, e') := innerEval originalEval input context filename e in
  result = invoke m argv
  /\ effects e' = effects e ++ [CalledShellCommand cmd argv]
  /\ hasAppliedAsyncWriterRuntimeSupport e' =
       hasAppliedAsyncWriterRuntimeSupport e
  /\ (forall x, In x (effects e') -> In x (effects e) \/
         (is_process x = false /\ is_host_eval x = false
          /\ is_original_eval x = false)).
Proof.
  intros Hargv Hm Hdirect Hparen.
  unfold innerEval.
  rewrite (direct_command_spec _ _ _ _ Hargv Hm Hdirect Hparen).
  unfold bind, modify, await. simpl.
  assert (Hin : forall x,
             In x (effects e ++ [CalledShellCommand cmd argv]) ->
             In x (effects e) \/
             (is_process x = false /\ is_host_eval x = false
              /\ is_original_eval x = false)).
  { intros x Hx. apply in_app_or in Hx as [Hx|[<-|[]]]; auto. }
  destruct (invoke m argv); simpl; auto.
Qed.

(** C2, as amended.  The runtime support code is injected at most once
    per session, by the first evaluation that gets as far as the test of
    the flag: its input is no direct command, the rewriter accepted it,
    and the redaction and the message bus returned.

    - A fresh evaluator has the flag clear.
    - [customEval] leaves the evaluator as [innerEval] does, and settles
      as the result handler does on the value of [innerEval].
    - An evaluation that gets to the flag leaves it set.  Started with
      the flag clear it sets the flag first and then produces the support
      code, evaluates it in the evaluator's own realm and hands
      [originalEval] the support code, a semicolon, a line feed and the
      rewritten text; when producing or evaluating the support code
      throws, the evaluation is rejected with that error and
      [originalEval] is not called.  Started with the flag set it hands
      [originalEval] the rewritten text alone.  Any other evaluation
      leaves the flag as it is and evaluates nothing.
    - In a session, the first evaluation that gets to the flag is the
      one that injects: nothing is evaluated before it, and after it
      nothing is evaluated in the evaluator's own realm and [originalEval]
      gets rewritten texts as they are, also when the injection threw.
    - A session none of whose evaluations gets to the flag leaves it
      clear and evaluates nothing. *)
Theorem runtime_support_injected_once :
  hasAppliedAsyncWriterRuntimeSupport constructor = false
  /\ (forall originalEval input context filename e,
        snd (customEval originalEval input context filename e) =
        snd (innerEval originalEval input context filename e)
        /\ fst (customEval originalEval input context filename e) =
           match fst (innerEval originalEval input context filename e) with
           | Fulfilled v => resultHandler v
           | Thrown err => Thrown err
           | Pending => Pending
           end)
  /\ (forall originalEval input context filename e,
        let applied := hasAppliedAsyncWriterRuntimeSupport e in
        let (result, e') := innerEval originalEval input context filename e in
        match reaches input with
        | Some r =>
            hasAppliedAsyncWriterRuntimeSupport e' = true
            /\ effects e' =
                 effects e ++ prelude input r
                 ++ (if applied
                     then [CalledOriginalEval r context filename]
                     else injection r context filename)
            /\ result =
                 (if applied
                  then transformed (originalEval r context filename)
                  else
                    match injection_fault with
                    | Some err => Thrown err
                    | None =>
                        transformed
                          (originalEval
                             (asyncWriter_runtimeSupportCode ++ ";"
                                ++ JS.LF ++ r)%string
                             context filename)
                    end)
        | None =>
            hasAppliedAsyncWriterRuntimeSupport e' = applied
            /\ effects e' = effects e ++ stopped_effects input
            /\ Forall no_eval (stopped_effects input)
        end)
  /\ (forall pre c post r,
        concludes pre constructor = true ->
        Forall (fun c' => reaches (call_input c') = None) pre ->
        reaches (call_input c) = Some r ->
        hasAppliedAsyncWriterRuntimeSupport
          (session (pre ++ c :: post) constructor) = true
        /\ exists after,
             effects (session (pre ++ c :: post) constructor) =
             effects (session pre constructor)
             ++ prelude (call_input c) r
             ++ injection r (call_context c) (call_filename c)
             ++ after
             /\ Forall no_eval (effects (session pre constructor))
             /\ Forall plain_eval after)
  /\ (forall calls,
        Forall (fun c => reaches (call_input c) = None) calls ->
        hasAppliedAsyncWriterRuntimeSupport (session calls constructor)
        = false
        /\ Forall no_eval (effects (session calls constructor)))
  /\ (forall calls, injection_state (session calls constructor)).
Proof.
  split; [reflexivity|].
  split; [intros; split; [apply customEval_state|apply customEval_result]|].
  split.
  { intros originalEval input context filename e.
    pose proof (stopped_effects_no_eval input) as Hs.
    unfold reaches. unfold stopped_effects at 1.
    destruct (direct_command input) as [[[cmd m] argv]|] eqn:Hd.
    - rewrite (innerEval_direct originalEval _ context filename e _ _ _ Hd).
      cbv beta iota zeta. repeat split. assumption.
    - rewrite (innerEval_run originalEval _ context filename e Hd).
      destruct (asyncWriter_process input) as [r|err|];
        [|cbv beta iota zeta; repeat split; assumption..].
      destruct (snd (announcement input r));
        [cbv beta iota zeta; repeat split; assumption|].
      unfold evaluation, evaluated_text. cbv beta iota zeta.
      destruct (hasAppliedAsyncWriterRuntimeSupport e); repeat split. }
  split.
  { intros pre c post r Hpre Hstopped Hr.
    destruct (session_first_reaching pre post c r constructor eq_refl
                Hpre Hstopped Hr)
      as (Hflag & before & after & Hbefore & Heff & Hb & Ha).
    split; [assumption|]. exists after. repeat split; auto.
    rewrite Hbefore. simpl. assumption. }
  split.
  { intros calls Hstopped.
    destruct (session_stopped calls constructor Hstopped)
      as (Hflag & added & Heff & Hadded).
    split; [assumption|]. rewrite Heff. simpl. assumption. }
  intros calls. apply injection_state_session.
  apply NotInjected; constructor.
Qed.

End Evaluator.

Arguments CalledShellCommand {Ctx} cmd argv.
Arguments CalledProcess {Ctx} input.
Arguments EmittedEvaluateInput {Ctx} input.
Arguments EvaledInHostRealm {Ctx} code.
Arguments CalledOriginalEval {Ctx} code context filename.
Arguments hasAppliedAsyncWriterRuntimeSupport {Ctx} e.
Arguments effects {Ctx} e.
Arguments constructor {Ctx}.

End ShellEvaluator.

(** *** A concrete shell *)

Module ShellExamples.

Import ShellEvaluator.

(** A shell API with the direct commands [show] and [use], and one
    ordinary member [print]. *)
Definition shellApi (cmd : string) : option (ShellApiMember string) :=
  if String.eqb cmd "show" then
    Some {| isDirectShellCommand := true;
            invoke := fun argv => Fulfilled (String.concat "," argv) |}
  else if String.eqb cmd "use" then
    Some {| isDirectShellCommand := true;
            invoke := fun argv => Fulfilled (hd EmptyString argv) |}
  else if String.eqb cmd "print" then
    Some {| isDirectShellCommand := false;
            invoke := fun _ => Fulfilled EmptyString |}
  else None.

Definition process (input : string) : outcome string string :=
  if JS.isEmpty input then Thrown "SyntaxError" else Fulfilled ("await " ++ input)%string.

Definition supportCode : string := "patchPrototypes()".

Definition hidden (s : string) : bool := JS.includes "auth" s.

Definition originalEval : EvaluationFunction string unit :=
  fun code _ _ => Fulfilled code.

(** Nothing throws. *)
Definition sound : Faults string :=
  {| redactSensitiveData_throws := fun _ => None;
     emit_throws := fun _ => None;
     runtimeSupportCode_throws := None;
     eval_throws := fun _ => None;
     transformError_throws := fun _ => None |}.

(** The evaluator's own realm does not let the support code patch its
    prototypes: evaluating it there throws. *)
Definition frozen_realm : Faults string :=
  {| redactSensitiveData_throws := fun _ => None;
     emit_throws := fun _ => None;
     runtimeSupportCode_throws := None;
     eval_throws := fun _ => Some "TypeError";
     transformError_throws := fun _ => None |}.

(** A listener of [mongosh:evaluate-input] throws on one input. *)
Definition picky_listener : Faults string :=
  {| redactSensitiveData_throws := fun _ => None;
     emit_throws :=
       fun payload =>
         if String.eqb payload "1 + 1" then Some "ListenerError" else None;
     runtimeSupportCode_throws := None;
     eval_throws := fun _ => None;
     transformError_throws := fun _ => None |}.

Definition innerEval :=
  innerEval string unit shellApi process supportCode hidden
    (fun s => s) (fun err => err) sound originalEval.

Definition fresh : Evaluator unit := constructor.

Definition call (input : string) : Call string unit :=
  {| call_eval := originalEval; call_input := input;
     call_context := tt; call_filename := "repl" |}.

Definition session_with (faults : Faults string) :=
  session string unit string shellApi process supportCode hidden
    (fun s => s) (fun err => err) (fun v => Fulfilled v) faults.

Definition session := session_with sound.

End ShellExamples.

Example argv_of_show_dbs :
  ShellEvaluator.argv_of "  show dbs;" = ["show"; "dbs"].
Proof. reflexivity. Qed.

(** The semicolon is stripped after trimming, so white space in front of it
    leaves an empty last piece. *)
Example argv_of_space_before_semicolon :
  ShellEvaluator.argv_of "show dbs ;" = ["show"; "dbs"; EmptyString].
Proof. reflexivity. Qed.

Example argv_of_empty : ShellEvaluator.argv_of "   " = [EmptyString].
Proof. reflexivity. Qed.

Example direct_show_dbs :
  ShellExamples.innerEval "show dbs" tt "repl" ShellExamples.fresh =
  (Fulfilled "dbs",
   {| ShellEvaluator.hasAppliedAsyncWriterRuntimeSupport := false;
      ShellEvaluator.effects :=
        [ShellEvaluator.CalledShellCommand "show" ["dbs"]] |}).
Proof. reflexivity. Qed.

(** With call syntax the input is an ordinary expression. *)
Example call_syntax_is_rewritten :
  ShellEvaluator.effects
    (snd (ShellExamples.innerEval "show ('dbs')" tt "repl"
            ShellExamples.fresh)) =
  [ShellEvaluator.CalledProcess "show ('dbs')";
   ShellEvaluator.EmittedEvaluateInput "show ('dbs')";
   ShellEvaluator.EvaledInHostRealm "patchPrototypes()";
   ShellEvaluator.CalledOriginalEval
     ("patchPrototypes();" ++ JS.LF ++ "await show ('dbs')")%string tt "repl"].
Proof. reflexivity. Qed.

Example session_injects_once :
  ShellEvaluator.effects
    (ShellExamples.session
       (map ShellExamples.call ["use test"; "1 + 1"; "2 + 2"])
       ShellExamples.fresh) =
  [ShellEvaluator.CalledShellCommand "use" ["test"];
   ShellEvaluator.CalledProcess "1 + 1";
   ShellEvaluator.EmittedEvaluateInput "1 + 1";
   ShellEvaluator.EvaledInHostRealm "patchPrototypes()";
   ShellEvaluator.CalledOriginalEval
     ("patchPrototypes();" ++ JS.LF ++ "await 1 + 1")%string tt "repl";
   ShellEvaluator.CalledProcess "2 + 2";
   ShellEvaluator.EmittedEvaluateInput "2 + 2";
   ShellEvaluator.CalledOriginalEval "await 2 + 2" tt "repl"].
Proof. reflexivity. Qed.

(** An evaluation whose listener throws does not get to the flag; the
    next one injects. *)
Example listener_error_defers_injection :
  let e :=
    ShellExamples.session_with ShellExamples.picky_listener
      (map ShellExamples.call ["1 + 1"; "2 + 2"]) ShellExamples.fresh in
  ShellEvaluator.hasAppliedAsyncWriterRuntimeSupport e = true
  /\ ShellEvaluator.effects e =
     [ShellEvaluator.CalledProcess "1 + 1";
      ShellEvaluator.EmittedEvaluateInput "1 + 1";
      ShellEvaluator.CalledProcess "2 + 2";
      ShellEvaluator.EmittedEvaluateInput "2 + 2";
      ShellEvaluator.EvaledInHostRealm "patchPrototypes()";
      ShellEvaluator.CalledOriginalEval
        ("patchPrototypes();" ++ JS.LF ++ "await 2 + 2")%string tt "repl"].
Proof. split; reflexivity. Qed.

(** The flag is set before the support code is evaluated.  When that
    evaluation throws, the first rewritten input is rejected with the
    flag set; the second is handed to [originalEval] as the rewriter
    produced it, and the support code never gets to the user realm. *)
Lemma failed_injection_is_not_repeated :
  let first :=
    ShellEvaluator.customEval string unit string ShellExamples.shellApi
      ShellExamples.process ShellExamples.supportCode ShellExamples.hidden
      (fun s => s) (fun err => err) (fun v => Fulfilled v)
      ShellExamples.frozen_realm ShellExamples.originalEval
      "1 + 1" tt "repl" ShellExamples.fresh in
  let second :=
    ShellEvaluator.customEval string unit string ShellExamples.shellApi
      ShellExamples.process ShellExamples.supportCode ShellExamples.hidden
      (fun s => s) (fun err => err) (fun v => Fulfilled v)
      ShellExamples.frozen_realm ShellExamples.originalEval
      "2 + 2" tt "repl" (snd first) in
  fst first = Thrown "TypeError"
  /\ ShellEvaluator.hasAppliedAsyncWriterRuntimeSupport (snd first) = true
  /\ ShellEvaluator.effects (snd first) =
     [ShellEvaluator.CalledProcess "1 + 1";
      ShellEvaluator.EmittedEvaluateInput "1 + 1";
      ShellEvaluator.EvaledInHostRealm "patchPrototypes()"]
  /\ fst second = Fulfilled "await 2 + 2"
  /\ ShellEvaluator.effects (snd second) =
     ShellEvaluator.effects (snd first)
     ++ [ShellEvaluator.CalledProcess "2 + 2";
         ShellEvaluator.EmittedEvaluateInput "2 + 2";
         ShellEvaluator.CalledOriginalEval "await 2 + 2" tt "repl"]
  /\ snd second =
     ShellExamples.session_with ShellExamples.frozen_realm
       (map ShellExamples.call ["1 + 1"; "2 + 2"]) ShellExamples.fresh.
Proof. repeat split. Qed.

Lemma innerEval_direct_shell_command_witness :
  let (result, e') :=
    ShellExamples.innerEval "show dbs;" tt "repl" ShellExamples.fresh in
  result = Fulfilled "dbs"
  /\ ShellEvaluator.effects e' =
       [] ++ [ShellEvaluator.CalledShellCommand "show" ["dbs"]]
  /\ ShellEvaluator.hasAppliedAsyncWriterRuntimeSupport e' = false
  /\ (forall x, In x (ShellEvaluator.effects e') ->
        In x [] \/
        (ShellEvaluator.is_process unit x = false
         /\ ShellEvaluator.is_host_eval unit x = false
         /\ ShellEvaluator.is_original_eval unit x = false)).
Proof.
  apply (ShellEvaluator.innerEval_direct_shell_command string unit
           ShellExamples.shellApi ShellExamples.process
           ShellExamples.supportCode ShellExamples.hidden
           (fun s => s) (fun err => err) ShellExamples.sound
           ShellExamples.originalEval
           "show dbs;" tt "repl" "show" ["dbs"]
           {| ShellEvaluator.isDirectShellCommand := true;
              ShellEvaluator.invoke :=
                fun argv => Fulfilled (String.concat "," argv) |}
           ShellExamples.fresh).
  - reflexivity.
  - reflexivity.
  - reflexivity.
  - intros a [= <-]. reflexivity.
Defined.

(** ** The asynchronous REPL ([start], async-repl) *)

Module AsyncRepl.

(** Values that travel as results and errors.  [Opaque] stands for
    anything made outside [start]. *)
Inductive Value : Type :=
| Undefined
| Null
| Error (message : string)
| Recoverable (err : Value)
| Opaque (id : nat).

(** The listeners this model tells apart: the two closures an evaluation
    creates, and everybody else's. *)
Inductive Listener : Type :=
| Foreign (id : nat)
| ExitListener
| SigintListener.

Definition Listener_eqb (a b : Listener) : bool :=
  match a, b with
  | Foreign i, Foreign j => Nat.eqb i j
  | ExitListener, ExitListener => true
  | SigintListener, SigintListener => true
  | _, _ => false
  end.

(** An entry of an emitter's listener array; [rawListeners] returns the
    entries with their [once] wrappers, and [on] of a wrapper keeps it. *)
Record Registered : Type := {
  listener : Listener;
  once : bool
}.

Inductive Channel : Type :=
| ReplSIGINT       (* repl, 'SIGINT' *)
| ReplExit         (* repl, 'exit' *)
| ProcessSIGINT.   (* process, 'SIGINT' *)

Inductive FinishStatus : Type :=
| Success
| Failure (err : Value) (recoverable : bool).

(** What the outside sees. *)
Inductive Observation : Type :=
| EvalStart (input : string)
| EvalFinish (input : string) (status : FinishStatus)
| AsyncEval (input : string)
| OnAsyncSigint
| Called (ch : Channel) (id : nat)
| Callback (err : Value) (result : option Value).

(** Closures queued with [process.nextTick]. *)
Inductive Tick : Type :=
| EmitExit.

Inductive Settled : Type :=
| Resolved (v : Value)
| Rejected (e : Value).

(** The console, the process, and the variables of the evaluation in
    progress. *)
Record World : Type := {
  prompt : string;
  repl_SIGINT : list Registered;
  repl_exit : list Registered;
  process_SIGINT : list Registered;
  nextTick : list Tick;
  observed : list Observation;
  (* let-bound in [repl.eval] and captured by its closures *)
  exitEventPending : bool;
  previousExitListeners : list Registered;
  sigintListener : bool;                       (* defined or undefined *)
  replSigint : option (list Registered);       (* RestoreEvents *)
  processSigint : option (list Registered);
  (* the promise built by [new Promise] and the handler calls in flight *)
  promise : option Settled;
  inFlight : nat
}.

Definition set_prompt (p : string) (w : World) : World :=
  {| prompt := p; repl_SIGINT := repl_SIGINT w; repl_exit := repl_exit w;
     process_SIGINT := process_SIGINT w; nextTick := nextTick w;
     observed := observed w; exitEventPending := exitEventPending w;
     previousExitListeners := previousExitListeners w;
     sigintListener := sigintListener w; replSigint := replSigint w;
     processSigint := processSigint w; promise := promise w;
     inFlight := inFlight w |}.

Definition listeners (ch : Channel) (w : World) : list Registered :=
  match ch with
  | ReplSIGINT => repl_SIGINT w
  | ReplExit => repl_exit w
  | ProcessSIGINT => process_SIGINT w
  end.

Definition set_listeners (ch : Channel) (l : list Registered) (w : World)
  : World :=
  {| prompt := prompt w;
     repl_SIGINT := match ch with ReplSIGINT => l | _ => repl_SIGINT w end;
     repl_exit := match ch with ReplExit => l | _ => repl_exit w end;
     process_SIGINT :=
       match ch with ProcessSIGINT => l | _ => process_SIGINT w end;
     nextTick := nextTick w;
     observed := observed w; exitEventPending := exitEventPending w;
     previousExitListeners := previousExitListeners w;
     sigintListener := sigintListener w; replSigint := replSigint w;
     processSigint := processSigint w; promise := promise w;
     inFlight := inFlight w |}.

Definition push_tick (t : Tick) (w : World) : World :=
  {| prompt := prompt w; repl_SIGINT := repl_SIGINT w;
     repl_exit := repl_exit w; process_SIGINT := process_SIGINT w;
     nextTick := nextTick w ++ [t];
     observed := observed w; exitEventPending := exitEventPending w;
     previousExitListeners := previousExitListeners w;
     sigintListener := sigintListener w; replSigint := replSigint w;
     processSigint := processSigint w; promise := promise w;
     inFlight := inFlight w |}.

Definition observe (o : Observation) (w : World) : World :=
  {| prompt := prompt w; repl_SIGINT := repl_SIGINT w;
     repl_exit := repl_exit w; process_SIGINT := process_SIGINT w;
     nextTick := nextTick w;
     observed := observed w ++ [o];
     exitEventPending := exitEventPending w;
     previousExitListeners := previousExitListeners w;
     sigintListener := sigintListener w; replSigint := replSigint w;
     processSigint := processSigint w; promise := promise w;
     inFlight := inFlight w |}.

(** The evaluation's variables, all at once. *)
Definition set_locals (pending : bool) (prev : list Registered)
    (sl : bool) (rs ps : option (list Registered))
    (p : option Settled) (n : nat) (w : World) : World :=
  {| prompt := prompt w; repl_SIGINT := repl_SIGINT w;
     repl_exit := repl_exit w; process_SIGINT := process_SIGINT w;
     nextTick := nextTick w; observed := observed w;
     exitEventPending := pending; previousExitListeners := prev;
     sigintListener := sl; replSigint := rs; processSigint := ps;
     promise := p; inFlight := n |}.

Definition set_exitEventPending (b : bool) (w : World) : World :=
  set_locals b (previousExitListeners w) (sigintListener w)
    (replSigint w) (processSigint w) (promise w) (inFlight w) w.

Definition set_previousExitListeners (l : list Registered) (w : World)
  : World :=
  set_locals (exitEventPending w) l (sigintListener w)
    (replSigint w) (processSigint w) (promise w) (inFlight w) w.

Definition set_sigintListener (b : bool) (w : World) : World :=
  set_locals (exitEventPending w) (previousExitListeners w) b
    (replSigint w) (processSigint w) (promise w) (inFlight w) w.

Definition set_replSigint (r : option (list Registered)) (w : World)
  : World :=
  set_locals (exitEventPending w) (previousExitListeners w)
    (sigintListener w) r (processSigint w) (promise w) (inFlight w) w.

Definition set_processSigint (r : option (list Registered)) (w : World)
  : World :=
  set_locals (exitEventPending w) (previousExitListeners w)
    (sigintListener w) (replSigint w) r (promise w) (inFlight w) w.

Definition set_promise (p : option Settled) (w : World) : World :=
  set_locals (exitEventPending w) (previousExitListeners w)
    (sigintListener w) (replSigint w) (processSigint w) p (inFlight w) w.

Definition set_inFlight (n : nat) (w : World) : World :=
  set_locals (exitEventPending w) (previousExitListeners w)
    (sigintListener w) (replSigint w) (processSigint w) (promise w) n w.

(** *** EventEmitter *)

(** [emitter.on(event, l)] appends. *)
Definition on (ch : Channel) (r : Registered) (w : World) : World :=
  set_listeners ch (listeners ch w ++ [r]) w.

(** [emitter.once(event, f)] *)
Definition once_ (ch : Channel) (f : Listener) (w : World) : World :=
  on ch {| listener := f; once := true |} w.

(** [emitter.removeAllListeners(event)] *)
Definition removeAllListeners (ch : Channel) (w : World) : World :=
  set_listeners ch [] w.

(** Drop the entry for [f] added last, wrapped or not. *)
Fixpoint remove_last (f : Listener) (l : list Registered)
  : list Registered * bool :=
  match l with
  | [] => ([], false)
  | r :: rest =>
      let (rest', found) := remove_last f rest in
      if found then (r :: rest', true)
      else if Listener_eqb (listener r) f then (rest, true)
      else (r :: rest, false)
  end.

(** [emitter.removeListener(event, f)] *)
Definition removeListener (ch : Channel) (f : Listener) (w : World)
  : World :=
  set_listeners ch (fst (remove_last f (listeners ch w))) w.

(** Calling a listener.  [exitListener] records the event;
    [sigintListener] runs up to its [await]: the handler has been called
    and is in flight. *)
Definition call_listener (ch : Channel) (f : Listener) (w : World)
  : World :=
  match f with
  | Foreign id => observe (Called ch id) w
  | ExitListener => set_exitEventPending true w
  | SigintListener =>
      set_inFlight (S (inFlight w)) (observe OnAsyncSigint w)
  end.

(** [emitter.emit(event)]: every entry of the array as it stands is
    called in order; a [once] entry leaves the array as it fires. *)
Definition emit (ch : Channel) (w : World) : World :=
  let snapshot := listeners ch w in
  fold_left (fun w r => call_listener ch (listener r) w) snapshot
    (set_listeners ch (filter (fun r => negb (once r)) snapshot) w).

(** [disableEvent(emitter, event)]: the array is saved and emptied. *)
Definition disableEvent (ch : Channel) (w : World)
  : list Registered * World :=
  (listeners ch w, removeAllListeners ch w).

(** [restore()] of the [RestoreEvents] that holds [saved]. *)
Definition restore (ch : Channel) (saved : list Registered) (w : World)
  : World :=
  fold_left (fun w r => on ch r w) saved w.

(** [resolve] and [reject] of the promise: the first call settles it. *)
Definition settle (s : Settled) (w : World) : World :=
  match promise w with
  | None => set_promise (Some s) w
  | Some _ => w
  end.

(** *** What happens around an evaluation *)

(** How a call of [onAsyncSigint] ends. *)
Inductive HandlerResult : Type :=
| Resolves (interruptHandled : bool)
| Throws (e : Value).

(** What the host, the console and the evaluated code do while the
    promise is outstanding.  Listener arrays are changed by [start] only. *)
Inductive Action : Type :=
| Signal (ch : Channel)             (* the event is emitted *)
| SetPrompt (p : string)            (* somebody sets the prompt *)
| SigintHandled (r : HandlerResult) (* a handler call in flight ends *)
| EvalSettles (s : Settled).        (* [evalResult] settles *)

Record Host : Type := {
  (** a listener of [evalStart] throws *)
  evalStart_throws : option Value;
  (** [asyncEval] throws before it returns a promise *)
  asyncEval_throws : option Value;
  during : list Action;
  (** a listener of [evalFinish] throws *)
  evalFinish_throws : option Value;
  (** what [callback] throws, if it does *)
  callback_throws : Value -> option Value -> option Value
}.

Record AsyncREPLOptions : Type := {
  wrapCallbackError : option (Value -> Value);
  onAsyncSigint : bool     (* is a handler given *)
}.

Definition interrupted : Value :=
  Error "Asynchronous execution was interrupted by `SIGINT`".

(** The [finally] block of [sigintListener]. *)
Definition sigint_rejection (r : HandlerResult) : Value :=
  let interruptHandled :=
    match r with Resolves b => b | Throws _ => false end in
  if interruptHandled then Undefined else interrupted.

Definition step (a : Action) (w : World) : World :=
  match a with
  | Signal ch => emit ch w
  | SetPrompt p => set_prompt p w
  | SigintHandled r =>
      match inFlight w with
      | O => w
      | S n => settle (Rejected (sigint_rejection r)) (set_inFlight n w)
      end
  | EvalSettles s => settle s w
  end.

(** [await] of the promise: actions are taken until it is settled; the
    code after the [await] then runs before any further action. *)
Fixpoint race (acts : list Action) (w : World)
  : outcome Value Value * World :=
  match promise w with
  | Some (Resolved v) => (Fulfilled v, w)
  | Some (Rejected e) => (Thrown e, w)
  | None =>
      match acts with
      | [] => (Pending, w)
      | a :: rest => race rest (step a w)
      end
  end.

Definition clear_ticks (w : World) : World :=
  {| prompt := prompt w; repl_SIGINT := repl_SIGINT w;
     repl_exit := repl_exit w; process_SIGINT := process_SIGINT w;
     nextTick := [];
     observed := observed w; exitEventPending := exitEventPending w;
     previousExitListeners := previousExitListeners w;
     sigintListener := sigintListener w; replSigint := replSigint w;
     processSigint := processSigint w; promise := promise w;
     inFlight := inFlight w |}.

Definition run_tick (w : World) (t : Tick) : World :=
  match t with EmitExit => emit ReplExit w end.

(** The queued ticks run once the current code has returned. *)
Definition run_ticks (w : World) : World :=
  fold_left run_tick (nextTick w) (clear_ticks w).

Section Start.

(** [is-recoverable-error] *)
Variable isRecoverableError : string -> bool.
Variable opts : AsyncREPLOptions.
Variable host : Host.

Local Open Scope js_scope.

Definition Eval (A : Type) : Type := M World Value A.

Definition wrapCallbackError_ (err : Value) : Value :=
  match wrapCallbackError opts with
  | Some f => f err
  | None => err
  end.

Definition throw_if (e : option Value) : Eval unit :=
  match e with
  | Some err => throw err
  | None => ret tt
  end.

(** The function handed to [new Promise]. *)
Definition executor (input : string) : Eval unit :=
  when (onAsyncSigint opts)
    (modify (set_sigintListener true) ;;
     modify (fun w =>
       let (saved, w') := disableEvent ReplSIGINT w in
       set_replSigint (Some saved) w') ;;
     modify (fun w =>
       let (saved, w') := disableEvent ProcessSIGINT w in
       set_processSigint (Some saved) w') ;;
     modify (once_ ReplSIGINT SigintListener)) ;;
  modify (fun w => set_previousExitListeners (listeners ReplExit w) w) ;;
  modify (removeAllListeners ReplExit) ;;
  modify (once_ ReplExit ExitListener) ;;
  modify (observe (AsyncEval input)) ;;
  throw_if (asyncEval_throws host) ;;
  defined <- gets sigintListener ;;
  when defined (modify (once_ ProcessSIGINT SigintListener)).

(** [await new Promise(executor)]: a throw of the executor rejects. *)
Definition await_promise (input : string) : Eval Value :=
  try_catch (executor input) (fun e => modify (settle (Rejected e))) ;;
  race (during host).

(** The inner [finally] block. *)
Definition cleanup (origPrompt : string) : Eval unit :=
  defined <- gets sigintListener ;;
  when defined
    (modify (removeListener ReplSIGINT SigintListener) ;;
     modify (removeListener ProcessSIGINT SigintListener)) ;;
  modify (fun w =>
    match replSigint w with
    | Some saved => restore ReplSIGINT saved w
    | None => w
    end) ;;
  modify (fun w =>
    match processSigint w with
    | Some saved => restore ProcessSIGINT saved w
    | None => w
    end) ;;
  p <- gets prompt ;;
  when (JS.isEmpty p) (modify (set_prompt origPrompt)) ;;
  modify (removeListener ReplExit ExitListener) ;;
  modify (fun w => restore ReplExit (previousExitListeners w) w) ;;
  pending <- gets exitEventPending ;;
  when pending (modify (push_tick EmitExit)).

Definition emit_evalFinish (input : string) (status : FinishStatus)
  : Eval unit :=
  modify (observe (EvalFinish input status)) ;;
  throw_if (evalFinish_throws host).

Definition callback (err : Value) (result : option Value) : Eval unit :=
  modify (observe (Callback err result)) ;;
  throw_if (callback_throws host err result).

(** The body of the outer [try]: the promise's value, or what was
    caught. *)
Definition evaluate (input : string) (origPrompt : string)
  : Eval (Value + Value) :=
  try_catch
    (modify (set_locals false [] false None None None 0) ;;
     result <- try_finally (await_promise input) (cleanup origPrompt) ;;
     ret (inl result))
    (fun err => ret (inr err)).

(** The outer [catch] block, and the [try] that follows it. *)
Definition report (input : string) (completion : Value + Value)
  : Eval unit :=
  match completion with
  | inr err =>
      try_catch
        (if isRecoverableError input
         then
           emit_evalFinish input (Failure err true) ;;
           callback (Recoverable err) None
         else
           emit_evalFinish input (Failure err false) ;;
           callback err None)
        (fun callbackErr => callback (wrapCallbackError_ callbackErr) None)
  | inl result =>
      try_catch
        (emit_evalFinish input Success ;;
         callback Null (Some result))
        (fun callbackErr => callback (wrapCallbackError_ callbackErr) None)
  end.

(** [repl.eval] as [start] installs it. *)
Definition eval (input : string) : Eval unit :=
  modify (observe (EvalStart input)) ;;
  throw_if (evalStart_throws host) ;;
  origPrompt <- gets prompt ;;
  modify (set_prompt EmptyString) ;;
  completion <- evaluate input origPrompt ;;
  report input completion.

(** The world when the [await] begins: the start event is out, the
    prompt is blank and the executor has run. *)
Definition awaiting (input : string) (w : World) : World :=
  snd (try_catch (executor input)
         (fun e => modify (settle (Rejected e)))
         (set_locals false [] false None None None 0
            (set_prompt EmptyString (observe (EvalStart input) w)))).

(** The actions taken before the promise is settled. *)
Fixpoint processed (acts : list Action) (w : World) : list Action :=
  match promise w with
  | Some _ => []
  | None =>
      match acts with
      | [] => []
      | a :: rest => a :: processed rest (step a w)
      end
  end.

(** The world when the promise is settled, or when the actions are
    used up. *)
Definition settlement (input : string) (w : World) : World :=
  snd (race (during host) (awaiting input w)).

(** What [report] lets the outside see of a failure. *)
Definition failure_report (input : string) (err : Value)
  : list Observation :=
  let recoverable := isRecoverableError input in
  let reported := if recoverable then Recoverable err else err in
  EvalFinish input (Failure err recoverable)
  :: match evalFinish_throws host with
     | Some callbackErr =>
         [Callback (wrapCallbackError_ callbackErr) None]
     | None =>
         Callback reported None
         :: match callback_throws host reported None with
            | Some callbackErr =>
                [Callback (wrapCallbackError_ callbackErr) None]
            | None => []
            end
     end.

(** What [report] lets the outside see of a success. *)
Definition success_report (input : string) (result : Value)
  : list Observation :=
  EvalFinish input Success
  :: match evalFinish_throws host with
     | Some callbackErr =>
         [Callback (wrapCallbackError_ callbackErr) None]
     | None =>
         Callback Null (Some result)
         :: match callback_throws host Null (Some result) with
            | Some callbackErr =>
                [Callback (wrapCallbackError_ callbackErr) None]
            | None => []
            end
     end.

End Start.

(** The prompt the last [SetPrompt] of [acts] leaves, [p] if none. *)
Definition last_prompt (acts : list Action) (p : string) : string :=
  fold_left (fun p a => match a with SetPrompt q => q | _ => p end) acts p.

Definition is_exit_signal (a : Action) : bool :=
  match a with Signal ReplExit => true | _ => false end.

Definition is_foreign (r : Registered) : bool :=
  match listener r with Foreign _ => true | _ => false end.

(** Before an evaluation the arrays hold other people's listeners. *)
Definition foreign_only (w : World) : Prop :=
  forallb is_foreign (repl_SIGINT w) = true
  /\ forallb is_foreign (repl_exit w) = true
  /\ forallb is_foreign (process_SIGINT w) = true.

(** The calls of ['exit'] listeners among the observations. *)
Definition exit_calls (obs : list Observation) : list nat :=
  flat_map (fun o => match o with Called ReplExit id => [id] | _ => [] end)
    obs.

Definition foreign_ids (l : list Registered) : list nat :=
  flat_map (fun r => match listener r with Foreign id => [id] | _ => [] end)
    l.

Definition callbacks (obs : list Observation)
  : list (Value * option Value) :=
  flat_map (fun o => match o with Callback e r => [(e, r)] | _ => [] end)
    obs.

(** *** The emitter in closed form *)

Arguments restore : simpl never.

Definition observations (ch : Channel) (l : list Registered)
  : list Observation :=
  flat_map
    (fun r =>
       match listener r with
       | Foreign id => [Called ch id]
       | ExitListener => []
       | SigintListener => [OnAsyncSigint]
       end) l.

Definition fires_exit (l : list Registered) : bool :=
  existsb (fun r => Listener_eqb (listener r) ExitListener) l.

Definition fires_sigint (l : list Registered) : nat :=
  length (filter (fun r => Listener_eqb (listener r) SigintListener) l).

Lemma calls_closed (ch : Channel) (l : list Registered) (w : World) :
  fold_left (fun w r => call_listener ch (listener r) w) l w =
  {| prompt := prompt w; repl_SIGINT := repl_SIGINT w;
     repl_exit := repl_exit w; process_SIGINT := process_SIGINT w;
     nextTick := nextTick w;
     observed := observed w ++ observations ch l;
     exitEventPending := exitEventPending w || fires_exit l;
     previousExitListeners := previousExitListeners w;
     sigintListener := sigintListener w; replSigint := replSigint w;
     processSigint := processSigint w; promise := promise w;
     inFlight := fires_sigint l + inFlight w |}.
Proof.
  revert w. induction l as [|r l IH]; intros w; simpl.
  - destruct w; simpl. now rewrite app_nil_r, orb_false_r.
  - rewrite IH. unfold fires_exit, fires_sigint. simpl.
    destruct (listener r); simpl;
      rewrite <- ?app_assoc, ?orb_true_r, ?Nat.add_succ_r; reflexivity.
Qed.

Lemma emit_closed (ch : Channel) (w : World) :
  emit ch w =
  let l := listeners ch w in
  let w' := set_listeners ch (filter (fun r => negb (once r)) l) w in
  {| prompt := prompt w; repl_SIGINT := repl_SIGINT w';
     repl_exit := repl_exit w'; process_SIGINT := process_SIGINT w';
     nextTick := nextTick w;
     observed := observed w ++ observations ch l;
     exitEventPending := exitEventPending w || fires_exit l;
     previousExitListeners := previousExitListeners w;
     sigintListener := sigintListener w; replSigint := replSigint w;
     processSigint := processSigint w; promise := promise w;
     inFlight := fires_sigint l + inFlight w |}.
Proof. unfold emit. rewrite calls_closed. reflexivity. Qed.

Lemma restore_closed (ch : Channel) (saved : list Registered) (w : World) :
  restore ch saved w = set_listeners ch (listeners ch w ++ saved) w.
Proof.
  unfold restore. revert w.
  induction saved as [|r saved IH]; intros w; simpl.
  - rewrite app_nil_r. destruct w, ch; reflexivity.
  - rewrite IH. destruct w, ch; simpl; now rewrite <- app_assoc.
Qed.

Lemma foreign_not_exit (l : list Registered) :
  forallb is_foreign l = true -> fires_exit l = false.
Proof.
  induction l as [|[f o] l IH]; simpl; [reflexivity|].
  unfold is_foreign at 1. simpl.
  destruct f; simpl; try discriminate. exact IH.
Qed.

Lemma foreign_not_sigint (l : list Registered) :
  forallb is_foreign l = true -> fires_sigint l = 0.
Proof.
  unfold fires_sigint.
  induction l as [|[f o] l IH]; simpl; [reflexivity|].
  unfold is_foreign at 1. simpl.
  destruct f; simpl; try discriminate. exact IH.
Qed.

Lemma foreign_observations (ch : Channel) (l : list Registered) :
  forallb is_foreign l = true ->
  observations ch l = map (Called ch) (foreign_ids l).
Proof.
  unfold observations, foreign_ids.
  induction l as [|[f o] l IH]; simpl; [reflexivity|].
  unfold is_foreign at 1. simpl.
  destruct f; simpl; try discriminate. intros H. now rewrite IH.
Qed.

Lemma forallb_filter_foreign (p : Registered -> bool)
    (l : list Registered) :
  forallb is_foreign l = true -> forallb is_foreign (filter p l) = true.
Proof.
  induction l as [|r l IH]; simpl; [reflexivity|].
  intros H. apply andb_true_iff in H as [Hr Hl].
  destruct (p r); simpl; [rewrite Hr|]; auto.
Qed.

Lemma exit_calls_app (a b : list Observation) :
  exit_calls (a ++ b) = exit_calls a ++ exit_calls b.
Proof. unfold exit_calls. apply flat_map_app. Qed.

Lemma callbacks_app (a b : list Observation) :
  callbacks (a ++ b) = callbacks a ++ callbacks b.
Proof. unfold callbacks. apply flat_map_app. Qed.

Lemma exit_calls_observations (ch : Channel) (l : list Registered) :
  ch <> ReplExit -> exit_calls (observations ch l) = [].
Proof.
  intros Hch. unfold observations.
  induction l as [|[f o] l IH]; simpl; [reflexivity|].
  rewrite exit_calls_app, IH, app_nil_r.
  destruct f; simpl; try reflexivity.
  destruct ch; simpl; try reflexivity. now elim Hch.
Qed.

(** *** The race *)

Definition exit_once : Registered :=
  {| listener := ExitListener; once := true |}.

(** While the promise is outstanding, [exitListener] is the only
    listener of ['exit'] until it has fired, and it listens nowhere
    else. *)
Record racing (w : World) : Prop := {
  racing_exit :
    repl_exit w = if exitEventPending w then [] else [exit_once];
  racing_repl_SIGINT : fires_exit (repl_SIGINT w) = false;
  racing_process_SIGINT : fires_exit (process_SIGINT w) = false
}.

(** What the race leaves alone. *)
Record evolves (w w' : World) : Prop := {
  evolves_previous : previousExitListeners w' = previousExitListeners w;
  evolves_ticks : nextTick w' = nextTick w;
  evolves_sigintListener : sigintListener w' = sigintListener w;
  evolves_replSigint : replSigint w' = replSigint w;
  evolves_processSigint : processSigint w' = processSigint w;
  evolves_exit_calls :
    exit_calls (observed w') = exit_calls (observed w);
  evolves_callbacks : callbacks (observed w') = callbacks (observed w)
}.

Lemma evolves_refl (w : World) : evolves w w.
Proof. split; reflexivity. Qed.

Lemma evolves_trans (a b c : World) :
  evolves a b -> evolves b c -> evolves a c.
Proof. intros [] []; split; congruence. Qed.

Lemma fires_exit_filter (p : Registered -> bool) (l : list Registered) :
  fires_exit l = false -> fires_exit (filter p l) = false.
Proof.
  unfold fires_exit. induction l as [|r l IH]; simpl; [reflexivity|].
  intros H. apply orb_false_iff in H as [Hr Hl].
  destruct (p r); simpl; [rewrite Hr|]; auto.
Qed.

Lemma callbacks_observations (ch : Channel) (l : list Registered) :
  callbacks (observations ch l) = [].
Proof.
  unfold observations.
  induction l as [|[f o] l IH]; simpl; [reflexivity|].
  rewrite callbacks_app, IH, app_nil_r. destruct f; reflexivity.
Qed.

Lemma settle_fields (s : Settled) (w : World) :
  prompt (settle s w) = prompt w
  /\ repl_SIGINT (settle s w) = repl_SIGINT w
  /\ repl_exit (settle s w) = repl_exit w
  /\ process_SIGINT (settle s w) = process_SIGINT w
  /\ nextTick (settle s w) = nextTick w
  /\ observed (settle s w) = observed w
  /\ exitEventPending (settle s w) = exitEventPending w
  /\ previousExitListeners (settle s w) = previousExitListeners w
  /\ sigintListener (settle s w) = sigintListener w
  /\ replSigint (settle s w) = replSigint w
  /\ processSigint (settle s w) = processSigint w
  /\ inFlight (settle s w) = inFlight w.
Proof. unfold settle. destruct (promise w); repeat split. Qed.

Lemma step_prompt (a : Action) (w : World) :
  prompt (step a w) = last_prompt [a] (prompt w).
Proof.
  destruct a as [ch| p | r | s]; simpl.
  - rewrite emit_closed. reflexivity.
  - reflexivity.
  - destruct (inFlight w); [reflexivity|].
    now rewrite (proj1 (settle_fields _ _)).
  - apply settle_fields.
Qed.

Lemma step_racing (a : Action) (w : World) :
  racing w ->
  racing (step a w)
  /\ evolves w (step a w)
  /\ exitEventPending (step a w) = exitEventPending w || is_exit_signal a.
Proof.
  intros [Hexit Hrepl Hproc].
  destruct a as [ch| p | r | s]; simpl.
  - rewrite emit_closed.
    destruct ch; simpl.
    + rewrite Hrepl, orb_false_r.
      repeat split; simpl; auto using fires_exit_filter.
      * now rewrite exit_calls_app, exit_calls_observations, app_nil_r.
      * now rewrite callbacks_app, callbacks_observations, app_nil_r.
    + rewrite Hexit. destruct (exitEventPending w); simpl.
      * repeat split; simpl; auto; now rewrite app_nil_r.
      * repeat split; simpl; auto; now rewrite app_nil_r.
    + rewrite Hproc, orb_false_r.
      repeat split; simpl; auto using fires_exit_filter.
      * now rewrite exit_calls_app, exit_calls_observations, app_nil_r.
      * now rewrite callbacks_app, callbacks_observations, app_nil_r.
  - rewrite orb_false_r. repeat split; simpl; auto.
  - rewrite orb_false_r. destruct (inFlight w) as [|n].
    + repeat split; auto.
    + destruct (settle_fields (Rejected (sigint_rejection r))
                  (set_inFlight n w))
        as (_ & H2 & H3 & H4 & H5 & H6 & H7 & H8 & H9 & H10 & H11 & _).
      repeat split; simpl in *; try congruence.
      now rewrite H3, H7.
  - rewrite orb_false_r.
    destruct (settle_fields s w)
      as (_ & H2 & H3 & H4 & H5 & H6 & H7 & H8 & H9 & H10 & H11 & _).
    repeat split; try congruence.
    now rewrite H3, H7.
Qed.

Lemma last_prompt_cons (a : Action) (acts : list Action) (p : string) :
  last_prompt (a :: acts) p = last_prompt acts (last_prompt [a] p).
Proof. reflexivity. Qed.

Lemma race_prompt (acts : list Action) (w : World) :
  prompt (snd (race acts w)) = last_prompt (processed acts w) (prompt w).
Proof.
  revert w. induction acts as [|a acts IH]; intros w; simpl.
  - destruct (promise w) as [[v|e]|]; reflexivity.
  - destruct (promise w) as [[v|e]|]; try reflexivity.
    rewrite IH, step_prompt. reflexivity.
Qed.

Lemma race_racing (acts : list Action) (w : World) :
  racing w ->
  racing (snd (race acts w))
  /\ evolves w (snd (race acts w))
  /\ exitEventPending (snd (race acts w)) =
       exitEventPending w || existsb is_exit_signal (processed acts w).
Proof.
  revert w. induction acts as [|a acts IH]; intros w Hw; simpl.
  - destruct (promise w) as [[v|e]|]; simpl;
      rewrite orb_false_r; auto using evolves_refl.
  - destruct (promise w) as [[v|e]|]; simpl;
      try (rewrite orb_false_r; auto using evolves_refl).
    destruct (step_racing a w Hw) as (Hs & He & Hp).
    destruct (IH _ Hs) as (Hs' & He' & Hp').
    split; [assumption|]. split.
    + eapply evolves_trans; eassumption.
    + rewrite Hp', Hp. now rewrite orb_assoc.
Qed.

(** The race ends unsettled exactly when the actions are used up and
    none of them settled the promise; otherwise its outcome is what the
    promise was settled with. *)
Lemma race_outcome (acts : list Action) (w : World) :
  match fst (race acts w), promise (snd (race acts w)) with
  | Fulfilled v, Some (Resolved v') => v = v'
  | Thrown e, Some (Rejected e') => e = e'
  | Pending, None => processed acts w = acts
  | _, _ => False
  end.
Proof.
  revert w. induction acts as [|a acts IH]; intros w; simpl.
  - destruct (promise w) as [[v|e]|] eqn:Hp; simpl; rewrite ?Hp; auto.
  - destruct (promise w) as [[v|e]|] eqn:Hp; simpl; rewrite ?Hp; auto.
    specialize (IH (step a w)).
    destruct (fst (race acts (step a w))),
      (promise (snd (race acts (step a w)))) as [[|]|]; auto.
    now rewrite IH.
Qed.

(** *** One evaluation *)

Section Properties.

Variable isRecoverableError : string -> bool.
Variable opts : AsyncREPLOptions.
Variable host : Host.

Local Abbreviation eval := (eval isRecoverableError opts host).
Local Abbreviation report := (report isRecoverableError opts host).
Local Abbreviation executor := (executor opts host).
Local Abbreviation awaiting := (awaiting opts host).
Local Abbreviation settlement := (settlement opts host).
Local Abbreviation failure_report :=
  (failure_report isRecoverableError opts host).
Local Abbreviation success_report := (success_report opts host).

Lemma executor_outcome (input : string) (w : World) :
  fst (executor input w) =
  match asyncEval_throws host with
  | Some e => Thrown e
  | None => Fulfilled tt
  end.
Proof.
  unfold AsyncRepl.executor, bind, modify, gets, when, throw_if, throw, ret.
  destruct (onAsyncSigint opts), (asyncEval_throws host); simpl;
    try reflexivity.
  destruct (sigintListener w); reflexivity.
Qed.

Lemma awaiting_racing (input : string) (w : World) :
  foreign_only w ->
  racing (awaiting input w)
  /\ exitEventPending (awaiting input w) = false
  /\ previousExitListeners (awaiting input w) = repl_exit w
  /\ nextTick (awaiting input w) = nextTick w
  /\ exit_calls (observed (awaiting input w)) = exit_calls (observed w)
  /\ callbacks (observed (awaiting input w)) = callbacks (observed w).
Proof.
  intros (Hrepl & Hexit & Hproc).
  apply foreign_not_exit in Hrepl, Hproc.
  unfold AsyncRepl.awaiting, AsyncRepl.executor, try_catch, bind, modify,
    gets, when, throw_if, throw, ret.
  destruct (onAsyncSigint opts), (asyncEval_throws host); simpl;
    (split; [split; simpl; auto|]);
    rewrite ?exit_calls_app, ?callbacks_app; simpl;
    rewrite ?app_nil_r; auto.
Qed.

Lemma awaiting_prompt (input : string) (w : World) :
  prompt (awaiting input w) = EmptyString.
Proof.
  unfold AsyncRepl.awaiting, AsyncRepl.executor, try_catch, bind, modify,
    gets, when, throw_if, throw, ret.
  destruct (onAsyncSigint opts), (asyncEval_throws host); reflexivity.
Qed.

Lemma cleanup_returns (origPrompt : string) (w : World) :
  fst (cleanup origPrompt w) = Fulfilled tt.
Proof.
  unfold cleanup, bind, modify, gets, when, ret. simpl.
  destruct (sigintListener w); simpl;
    match goal with
    | |- context [JS.isEmpty ?p] => destruct (JS.isEmpty p)
    end; simpl;
    match goal with
    | |- context [if ?b then _ else _] => destruct b
    end; reflexivity.
Qed.

(** The [finally] block: the prompt is put back only if it is still
    blank, nothing is observed, and the re-emission is queued if an
    exit event is pending. *)
Lemma cleanup_frame (origPrompt : string) (w : World) :
  let w' := snd (cleanup origPrompt w) in
  prompt w' = (if JS.isEmpty (prompt w) then origPrompt else prompt w)
  /\ nextTick w' =
       nextTick w ++ (if exitEventPending w then [EmitExit] else [])
  /\ observed w' = observed w.
Proof.
  unfold cleanup, bind, modify, gets, when, ret. simpl.
  destruct (sigintListener w); simpl;
    destruct (replSigint w) as [rs|]; simpl;
    rewrite ?restore_closed; simpl;
    destruct (processSigint w) as [ps|]; simpl;
    rewrite ?restore_closed; simpl;
    destruct (JS.isEmpty (prompt w)); simpl;
    rewrite ?restore_closed; simpl;
    destruct (exitEventPending w); simpl;
    repeat split; rewrite ?app_nil_r; reflexivity.
Qed.

(** The [finally] block puts the saved ['exit'] listeners back. *)
Lemma cleanup_exit (origPrompt : string) (w : World) :
  racing w ->
  repl_exit (snd (cleanup origPrompt w)) = previousExitListeners w.
Proof.
  intros [Hexit _ _].
  unfold cleanup, bind, modify, gets, when, ret. simpl.
  destruct (sigintListener w); simpl;
    destruct (replSigint w) as [rs|]; simpl;
    rewrite ?restore_closed; simpl;
    destruct (processSigint w) as [ps|]; simpl;
    rewrite ?restore_closed; simpl;
    destruct (JS.isEmpty (prompt w)); simpl;
    rewrite ?restore_closed; simpl;
    rewrite Hexit; destruct (exitEventPending w); reflexivity.
Qed.

Lemma report_fields (input : string) (completion : Value + Value)
    (w : World) :
  let w' := snd (report input completion w) in
  fst (report input completion w) <> Pending
  /\ prompt w' = prompt w
  /\ repl_SIGINT w' = repl_SIGINT w
  /\ repl_exit w' = repl_exit w
  /\ process_SIGINT w' = process_SIGINT w
  /\ nextTick w' = nextTick w
  /\ observed w' =
       observed w
       ++ match completion with
          | inl result => success_report input result
          | inr err => failure_report input err
          end.
Proof.
  unfold AsyncRepl.report, AsyncRepl.success_report,
    AsyncRepl.failure_report, emit_evalFinish, callback, try_catch, bind,
    modify, throw_if, throw, ret.
  destruct completion as [result|err]; simpl.
  - destruct (evalFinish_throws host) as [ce|]; simpl.
    + destruct (callback_throws host (wrapCallbackError_ opts ce) None);
        simpl; repeat split; try discriminate;
        now rewrite <- app_assoc.
    + destruct (callback_throws host Null (Some result)) as [ce|]; simpl.
      * destruct (callback_throws host (wrapCallbackError_ opts ce) None);
          simpl; repeat split; try discriminate;
          now repeat (rewrite <- app_assoc; simpl).
      * repeat split; try discriminate; now rewrite <- app_assoc.
  - destruct (isRecoverableError input); simpl;
      destruct (evalFinish_throws host) as [ce|]; simpl;
      try (destruct (callback_throws host (wrapCallbackError_ opts ce)
                       None);
           simpl; repeat split; try discriminate;
           now rewrite <- app_assoc);
      match goal with
      | |- context [callback_throws host ?e None] =>
          destruct (callback_throws host e None) as [ce|]; simpl
      end;
      try (destruct (callback_throws host (wrapCallbackError_ opts ce)
                       None);
           simpl; repeat split; try discriminate;
           now repeat (rewrite <- app_assoc; simpl));
      repeat split; try discriminate; now rewrite <- app_assoc.
Qed.

(** [eval] is the race followed by the [finally] block and the
    report. *)
Lemma eval_concluded (input : string) (w : World) :
  evalStart_throws host = None ->
  eval input w =
  match race (during host) (awaiting input w) with
  | (Pending, ws) => (Pending, ws)
  | (Fulfilled v, ws) =>
      report input (inl v) (snd (cleanup (prompt w) ws))
  | (Thrown e, ws) =>
      report input (inr e) (snd (cleanup (prompt w) ws))
  end.
Proof.
  intros Hstart.
  unfold AsyncRepl.eval, evaluate, await_promise, AsyncRepl.awaiting,
    bind, modify, gets, throw_if, ret, try_catch, try_finally.
  rewrite Hstart.
  cbn -[AsyncRepl.report cleanup race AsyncRepl.executor].
  set (w1 := set_locals false [] false None None None 0
               (set_prompt EmptyString (observe (EvalStart input) w))).
  pose proof (executor_outcome input w1) as Hexec.
  destruct (executor input w1) as [o w2]. simpl in Hexec. subst o.
  destruct (asyncEval_throws host) as [e|];
    cbn -[AsyncRepl.report cleanup race AsyncRepl.executor];
    match goal with
    | |- context [race ?acts ?x] =>
        destruct (race acts x) as [[v|err|] ws]
    end;
    cbn -[AsyncRepl.report cleanup race AsyncRepl.executor];
    try reflexivity;
    pose proof (cleanup_returns (prompt w) ws) as Hclean;
    destruct (cleanup (prompt w) ws) as [o w3];
    simpl in Hclean; subst o; reflexivity.
Qed.

Lemma race_app (pre rest : list Action) (w : World) :
  promise (snd (race pre w)) = None ->
  race (pre ++ rest) w = race rest (snd (race pre w)).
Proof.
  revert w. induction pre as [|a pre IH]; intros w; simpl.
  - destruct (promise w) as [[v|e]|] eqn:Hp; simpl; rewrite ?Hp;
      try discriminate.
    intros _. destruct rest; simpl; now rewrite Hp.
  - destruct (promise w) as [[v|e]|] eqn:Hp; simpl; rewrite ?Hp;
      try discriminate.
    apply IH.
Qed.

(** What every concluded evaluation leaves: the prompt, the queue of
    ticks and the observations, from the world at settlement. *)
Lemma eval_settled (input : string) (w : World) :
  evalStart_throws host = None ->
  fst (eval input w) <> Pending ->
  let ws := settlement input w in
  let w' := snd (eval input w) in
  prompt w' = (if JS.isEmpty (prompt ws) then prompt w else prompt ws)
  /\ nextTick w' =
       nextTick ws ++ (if exitEventPending ws then [EmitExit] else [])
  /\ repl_exit w' = repl_exit (snd (cleanup (prompt w) ws))
  /\ observed w' =
       observed ws
       ++ match fst (race (during host) (awaiting input w)) with
          | Fulfilled result => success_report input result
          | Thrown err => failure_report input err
          | Pending => []
          end.
Proof.
  intros Hstart. rewrite (eval_concluded input w Hstart).
  unfold AsyncRepl.settlement.
  destruct (race (during host) (awaiting input w)) as [[v|e|] ws];
    cbn [fst snd]; intros Hdone; try (now elim Hdone);
    match goal with
    | |- context [report input ?c ?x] =>
        destruct (report_fields input c x)
          as (_ & Hp & _ & He & _ & Ht & Ho)
    end;
    destruct (cleanup_frame (prompt w) ws) as (Hp' & Ht' & Ho');
    rewrite Hp, Ht, He, Ho, Hp', Ht', Ho'; auto.
Qed.

Lemma eval_prompt (input : string) (w : World) :
  evalStart_throws host = None ->
  fst (eval input w) <> Pending ->
  let changed :=
    last_prompt (processed (during host) (awaiting input w))
      EmptyString in
  prompt (snd (eval input w)) =
  (if JS.isEmpty changed then prompt w else changed).
Proof.
  intros Hstart Hdone changed.
  destruct (eval_settled input w Hstart Hdone) as (Hp & _).
  rewrite Hp. unfold AsyncRepl.settlement.
  rewrite race_prompt, awaiting_prompt. reflexivity.
Qed.

Lemma last_prompt_untouched (acts : list Action) (p : string) :
  (forall q, ~ In (SetPrompt q) acts) -> last_prompt acts p = p.
Proof.
  unfold last_prompt. revert p.
  induction acts as [|a acts IH]; intros p Hno; simpl; [reflexivity|].
  destruct a as [ch|q|r|s];
    try (apply IH; intros q' Hq; apply (Hno q'); now right).
  elim (Hno q). now left.
Qed.

Lemma processed_incl (acts : list Action) (w : World) (a : Action) :
  In a (processed acts w) -> In a acts.
Proof.
  revert w. induction acts as [|b acts IH]; intros w; simpl.
  - now destruct (promise w).
  - destruct (promise w); simpl; [tauto|].
    intros [->|H]; eauto.
Qed.

(** If nobody touches the prompt during the evaluation, it is the old
    one afterwards. *)
Corollary prompt_restored_if_untouched (input : string) (w : World) :
  evalStart_throws host = None ->
  fst (eval input w) <> Pending ->
  (forall q, ~ In (SetPrompt q) (during host)) ->
  prompt (snd (eval input w)) = prompt w.
Proof.
  intros Hstart Hdone Hno.
  rewrite (eval_prompt input w Hstart Hdone).
  rewrite last_prompt_untouched; [reflexivity|].
  intros q Hq. apply (Hno q). eapply processed_incl, Hq.
Qed.

(** A failed evaluation lets [failure_report] be observed. *)
Lemma failed_evaluation (input : string) (w ws : World) (err : Value) :
  evalStart_throws host = None ->
  race (during host) (awaiting input w) = (Thrown err, ws) ->
  fst (eval input w) <> Pending
  /\ observed (snd (eval input w)) =
       observed ws ++ failure_report input err.
Proof.
  intros Hstart Hrace.
  assert (Hdone : fst (eval input w) <> Pending).
  { rewrite (eval_concluded input w Hstart), Hrace.
    apply report_fields. }
  split; [assumption|].
  destruct (eval_settled input w Hstart Hdone) as (_ & _ & _ & Ho).
  unfold AsyncRepl.settlement in Ho. rewrite Hrace in Ho. exact Ho.
Qed.

Lemma race_settles (acts : list Action) (w : World) (s : Settled) :
  In (EvalSettles s) acts -> fst (race acts w) <> Pending.
Proof.
  revert w. induction acts as [|a acts IH]; intros w Hin; [destruct Hin|].
  simpl. destruct (promise w) as [[v|e]|] eqn:Hp; try discriminate.
  destruct Hin as [->|Hin]; [|now apply IH].
  simpl. unfold settle. rewrite Hp.
  destruct acts; simpl; destruct s; discriminate.
Qed.

(** The evaluation concludes as soon as [evalResult] settles. *)
Lemma eval_concludes (input : string) (w : World) (s : Settled) :
  evalStart_throws host = None ->
  In (EvalSettles s) (during host) ->
  fst (eval input w) <> Pending.
Proof.
  intros Hstart Hin.
  pose proof (race_settles (during host) (awaiting input w) s Hin) as Hrace.
  rewrite (eval_concluded input w Hstart).
  destruct (race (during host) (awaiting input w)) as [[v|e|] ws];
    simpl in Hrace; try (now elim Hrace); apply report_fields.
Qed.

(** While the evaluation is outstanding the world is the one of the
    wait. *)
Lemma eval_outstanding (input : string) (w : World) :
  evalStart_throws host = None ->
  fst (eval input w) = Pending ->
  snd (eval input w) = settlement input w.
Proof.
  intros Hstart. rewrite (eval_concluded input w Hstart).
  unfold AsyncRepl.settlement.
  destruct (race (during host) (awaiting input w)) as [[v|e|] ws];
    cbn [fst snd]; intros Hp; try reflexivity;
    match goal with
    | H : fst (report input ?c ?x) = Pending |- _ =>
        destruct (report_fields input c x) as (Hdone & _); now elim Hdone
    end.
Qed.

(** C8, amended. [eval] sets the prompt to the empty string when the
    evaluation starts: the wait begins with a blank prompt, and as long
    as the evaluation is outstanding the prompt is blank, or what was set
    last while it was outstanding.  When the evaluation concludes, a
    prompt that is still blank is set back to the string it held before
    the evaluation; a non-blank prompt that was set while the evaluation
    was outstanding stays. *)
Theorem prompt_restored_when_blank (input : string) (w : World) :
  evalStart_throws host = None ->
  let changed :=
    last_prompt (processed (during host) (awaiting input w))
      EmptyString in
  prompt (awaiting input w) = EmptyString
  /\ (fst (eval input w) = Pending ->
      snd (eval input w) = snd (race (during host) (awaiting input w))
      /\ prompt (snd (eval input w)) = changed)
  /\ (fst (eval input w) <> Pending ->
      prompt (snd (eval input w)) =
        (if JS.isEmpty changed then prompt w else changed)).
Proof.
  intros Hstart changed. split; [apply awaiting_prompt|]. split.
  - intros Hp. rewrite (eval_outstanding input w Hstart Hp).
    split; [reflexivity|]. unfold AsyncRepl.settlement.
    rewrite race_prompt, awaiting_prompt. reflexivity.
  - intros Hdone. apply eval_prompt; assumption.
Qed.

(** C9. An ['exit'] event emitted while the evaluation is outstanding
    reaches no listener that was installed before: the evaluation adds
    no call of an ['exit'] listener to the observations.  When the
    evaluation has concluded the ['exit'] listeners are those from
    before it, and one re-emission is queued for the next tick exactly
    when an ['exit'] event was emitted during the evaluation.  Run after
    [eval] has returned, the tick calls each of the reinstalled
    listeners once, after everything the evaluation let be observed. *)
Theorem exit_deferred_until_concluded (input : string) (w : World) :
  evalStart_throws host = None ->
  foreign_only w ->
  nextTick w = [] ->
  fst (eval input w) <> Pending ->
  let w' := snd (eval input w) in
  let signalled :=
    existsb is_exit_signal
      (processed (during host) (awaiting input w)) in
  exit_calls (observed w') = exit_calls (observed w)
  /\ repl_exit w' = repl_exit w
  /\ nextTick w' = (if signalled then [EmitExit] else [])
  /\ observed (run_ticks w') =
       observed w'
       ++ (if signalled
           then map (Called ReplExit) (foreign_ids (repl_exit w))
           else []).
Proof.
  intros Hstart Hforeign Hticks Hdone w' signalled.
  destruct (awaiting_racing input w Hforeign)
    as (Hracing & Hpending & Hprev & Htick0 & Hcalls0 & _).
  destruct (race_racing (during host) _ Hracing)
    as (Hracing' & Hevolves & Hpending').
  destruct (eval_settled input w Hstart Hdone) as (_ & Ht & He & Ho).
  fold w' in Ht, He, Ho. unfold AsyncRepl.settlement in Ht, He, Ho.
  rewrite Hpending in Hpending'. simpl in Hpending'.
  fold signalled in Hpending'.
  rewrite Hpending', (evolves_ticks _ _ Hevolves), Htick0, Hticks in Ht.
  simpl in Ht.
  rewrite (cleanup_exit _ _ Hracing'),
    (evolves_previous _ _ Hevolves), Hprev in He.
  assert (Hcalls : exit_calls (observed w') = exit_calls (observed w)).
  { rewrite Ho, exit_calls_app, (evolves_exit_calls _ _ Hevolves), Hcalls0.
    destruct (fst (race (during host) (awaiting input w)))
      as [result|err|];
      unfold AsyncRepl.success_report, AsyncRepl.failure_report;
      simpl; rewrite ?app_nil_r; try reflexivity;
      destruct (evalFinish_throws host); simpl;
      rewrite ?app_nil_r; try reflexivity;
      match goal with
      | |- context [callback_throws host ?e ?r] =>
          destruct (callback_throws host e r)
      end; simpl; now rewrite app_nil_r. }
  repeat split; auto.
  unfold run_ticks. rewrite Ht.
  destruct signalled; simpl; [|now rewrite app_nil_r].
  rewrite emit_closed. simpl. rewrite He.
  destruct Hforeign as (_ & Hexit & _).
  now rewrite (foreign_observations _ _ Hexit).
Qed.

(** C3, amended. A failed evaluation emits one finish event, which
    carries the failure and is flagged recoverable exactly when
    [isRecoverableError] accepts the input.  If the listeners of that
    event return, the callback is called with the failure wrapped in
    [Recoverable] when the flag is set and with the failure itself
    otherwise.  If one of them throws, the callback is called with
    [wrapCallbackError] of what was thrown instead; the same happens,
    in a second call, when the callback throws. *)
Theorem failure_reported (input : string) (w ws : World) (err : Value) :
  evalStart_throws host = None ->
  race (during host) (awaiting input w) = (Thrown err, ws) ->
  let recoverable := isRecoverableError input in
  let reported := if recoverable then Recoverable err else err in
  fst (eval input w) <> Pending
  /\ observed (snd (eval input w)) =
       observed ws
       ++ EvalFinish input (Failure err recoverable)
          :: match evalFinish_throws host with
             | Some callbackErr =>
                 [Callback (wrapCallbackError_ opts callbackErr) None]
             | None =>
                 Callback reported None
                 :: match callback_throws host reported None with
                    | Some callbackErr =>
                        [Callback (wrapCallbackError_ opts callbackErr)
                           None]
                    | None => []
                    end
             end.
Proof.
  intros Hstart Hrace recoverable reported.
  exact (failed_evaluation input w ws err Hstart Hrace).
Qed.

(** C1, amended. When a call of the interrupt handler ends while the
    promise is outstanding, the promise is rejected: with [undefined]
    if the handler resolved to true, and with the error "Asynchronous
    execution was interrupted by `SIGINT`" if it resolved to false or
    threw.  Either way the evaluation concludes as a failure with that
    value, and what [evalResult] settles to later is not looked at. *)
Theorem sigint_rejects_promise (input : string) (w : World)
    (before after : list Action) (r : HandlerResult) :
  evalStart_throws host = None ->
  during host = before ++ SigintHandled r :: after ->
  promise (snd (race before (awaiting input w))) = None ->
  inFlight (snd (race before (awaiting input w))) <> 0 ->
  let rejection :=
    match r with
    | Resolves true => Undefined
    | _ => Error "Asynchronous execution was interrupted by `SIGINT`"
    end in
  fst (race (during host) (awaiting input w)) = Thrown rejection
  /\ observed (snd (eval input w)) =
       observed (snd (race before (awaiting input w)))
       ++ failure_report input rejection.
Proof.
  intros Hstart Hduring Hpromise Hflight rejection.
  assert (Hrej : sigint_rejection r = rejection).
  { destruct r as [[|]|e]; reflexivity. }
  set (wb := snd (race before (awaiting input w))) in *.
  assert (Hrace : race (during host) (awaiting input w) =
                  (Thrown rejection,
                   settle (Rejected rejection)
                     (set_inFlight (pred (inFlight wb)) wb))).
  { rewrite Hduring, race_app by assumption. fold wb.
    simpl. rewrite Hpromise.
    destruct (inFlight wb) as [|n] eqn:Hn; [now elim Hflight|].
    rewrite Hrej. unfold settle. simpl. rewrite Hpromise. simpl.
    destruct after; reflexivity. }
  split; [now rewrite Hrace|].
  destruct (failed_evaluation input w _ _ Hstart Hrace) as [_ ->].
  unfold settle. simpl. rewrite Hpromise. reflexivity.
Qed.

End Properties.

End AsyncRepl.

(** *** A concrete console *)

Module ReplExamples.

Import AsyncRepl.

Definition keep (id : nat) : Registered :=
  {| listener := Foreign id; once := false |}.

(** A console with the prompt ["> "] and one listener on each event. *)
Definition console : World :=
  {| prompt := "> ";
     repl_SIGINT := [keep 1]; repl_exit := [keep 2];
     process_SIGINT := [keep 3];
     nextTick := []; observed := [];
     exitEventPending := false; previousExitListeners := [];
     sigintListener := false; replSigint := None; processSigint := None;
     promise := None; inFlight := 0 |}.

(** A host whose listeners and callback never throw. *)
Definition quiet (acts : list Action) : Host :=
  {| evalStart_throws := None; asyncEval_throws := None; during := acts;
     evalFinish_throws := None; callback_throws := fun _ _ => None |}.

(** A host with a listener of the finish event that throws. *)
Definition noisy (acts : list Action) : Host :=
  {| evalStart_throws := None; asyncEval_throws := None; during := acts;
     evalFinish_throws := Some (Opaque 5);
     callback_throws := fun _ _ => None |}.

Definition interruptible : AsyncREPLOptions :=
  {| wrapCallbackError := None; onAsyncSigint := true |}.

(** An opening brace alone is an incomplete input. *)
Definition isRecoverableError (input : string) : bool :=
  String.eqb input "{".

Definition run (h : Host) (input : string) : outcome Value unit * World :=
  eval isRecoverableError interruptible h input console.

Definition handled_then_resolved : list Action :=
  [Signal ReplSIGINT; SigintHandled (Resolves true);
   EvalSettles (Resolved (Opaque 7))].

End ReplExamples.

Example evaluation_succeeds :
  ReplExamples.run
    (ReplExamples.quiet [AsyncRepl.EvalSettles (AsyncRepl.Resolved (AsyncRepl.Opaque 7))])
    "1+1" =
  (Fulfilled tt,
   AsyncRepl.set_locals false [ReplExamples.keep 2] true
     (Some [ReplExamples.keep 1]) (Some [ReplExamples.keep 3])
     (Some (AsyncRepl.Resolved (AsyncRepl.Opaque 7))) 0
     (AsyncRepl.observe
        (AsyncRepl.Callback AsyncRepl.Null (Some (AsyncRepl.Opaque 7)))
        (AsyncRepl.observe (AsyncRepl.EvalFinish "1+1" AsyncRepl.Success)
           (AsyncRepl.observe (AsyncRepl.AsyncEval "1+1")
              (AsyncRepl.observe (AsyncRepl.EvalStart "1+1")
                 ReplExamples.console))))).
Proof. reflexivity. Qed.

(** While the promise is outstanding the console's own listeners are off
    and the prompt is blank. *)
Example evaluation_outstanding :
  let (result, w) :=
    ReplExamples.run (ReplExamples.quiet [AsyncRepl.Signal AsyncRepl.ReplSIGINT]) "1+1" in
  result = Pending
  /\ AsyncRepl.prompt w = EmptyString
  /\ AsyncRepl.repl_SIGINT w = []
  /\ AsyncRepl.repl_exit w = [AsyncRepl.exit_once]
  /\ AsyncRepl.inFlight w = 1.
Proof. vm_compute. repeat split. Qed.

(** C1 as stated fails: the handler resolves to true while the evaluation
    is outstanding, and the callback gets [undefined] as its error; without
    the interrupt it gets the result of the evaluation. *)
Lemma handled_sigint_discards_result :
  AsyncRepl.callbacks
    (AsyncRepl.observed
       (snd (ReplExamples.run
               (ReplExamples.quiet ReplExamples.handled_then_resolved)
               "1+1"))) =
  [(AsyncRepl.Undefined, None)]
  /\ AsyncRepl.callbacks
       (AsyncRepl.observed
          (snd (ReplExamples.run
                  (ReplExamples.quiet
                     [AsyncRepl.EvalSettles
                        (AsyncRepl.Resolved (AsyncRepl.Opaque 7))])
                  "1+1"))) =
     [(AsyncRepl.Null, Some (AsyncRepl.Opaque 7))].
Proof. split; reflexivity. Qed.

Lemma sigint_rejects_promise_witness :
  fst (AsyncRepl.race ReplExamples.handled_then_resolved
         (AsyncRepl.awaiting ReplExamples.interruptible
            (ReplExamples.quiet ReplExamples.handled_then_resolved)
            "1+1" ReplExamples.console)) =
  Thrown AsyncRepl.Undefined
  /\ AsyncRepl.observed
       (snd (ReplExamples.run
               (ReplExamples.quiet ReplExamples.handled_then_resolved)
               "1+1")) =
     [AsyncRepl.EvalStart "1+1"; AsyncRepl.AsyncEval "1+1";
      AsyncRepl.OnAsyncSigint;
      AsyncRepl.EvalFinish "1+1"
        (AsyncRepl.Failure AsyncRepl.Undefined false);
      AsyncRepl.Callback AsyncRepl.Undefined None].
Proof.
  apply (AsyncRepl.sigint_rejects_promise ReplExamples.isRecoverableError
           ReplExamples.interruptible
           (ReplExamples.quiet ReplExamples.handled_then_resolved)
           "1+1" ReplExamples.console
           [AsyncRepl.Signal AsyncRepl.ReplSIGINT]
           [AsyncRepl.EvalSettles (AsyncRepl.Resolved (AsyncRepl.Opaque 7))]
           (AsyncRepl.Resolves true)).
  - reflexivity.
  - reflexivity.
  - reflexivity.
  - vm_compute. discriminate.
Defined.

(** C3 as stated fails: a listener of the finish event throws, and the
    callback gets what it threw, for a recoverable input and for another. *)
Lemma throwing_finish_listener_replaces_failure :
  AsyncRepl.callbacks
    (AsyncRepl.observed
       (snd (ReplExamples.run
               (ReplExamples.noisy
                  [AsyncRepl.EvalSettles
                     (AsyncRepl.Rejected (AsyncRepl.Opaque 9))])
               "{"))) =
  [(AsyncRepl.Opaque 5, None)]
  /\ AsyncRepl.callbacks
       (AsyncRepl.observed
          (snd (ReplExamples.run
                  (ReplExamples.noisy
                     [AsyncRepl.EvalSettles
                        (AsyncRepl.Rejected (AsyncRepl.Opaque 9))])
                  "1+"))) =
     [(AsyncRepl.Opaque 5, None)].
Proof. split; reflexivity. Qed.

Lemma failure_reported_witness :
  fst (ReplExamples.run
         (ReplExamples.quiet
            [AsyncRepl.EvalSettles (AsyncRepl.Rejected (AsyncRepl.Opaque 9))])
         "{") <> Pending
  /\ AsyncRepl.observed
       (snd (ReplExamples.run
               (ReplExamples.quiet
                  [AsyncRepl.EvalSettles
                     (AsyncRepl.Rejected (AsyncRepl.Opaque 9))])
               "{")) =
     [AsyncRepl.EvalStart "{"; AsyncRepl.AsyncEval "{";
      AsyncRepl.EvalFinish "{"
        (AsyncRepl.Failure (AsyncRepl.Opaque 9) true);
      AsyncRepl.Callback (AsyncRepl.Recoverable (AsyncRepl.Opaque 9)) None].
Proof.
  apply (AsyncRepl.failure_reported ReplExamples.isRecoverableError
           ReplExamples.interruptible
           (ReplExamples.quiet
              [AsyncRepl.EvalSettles
                 (AsyncRepl.Rejected (AsyncRepl.Opaque 9))])
           "{" ReplExamples.console
           (snd (AsyncRepl.race
                   [AsyncRepl.EvalSettles
                      (AsyncRepl.Rejected (AsyncRepl.Opaque 9))]
                   (AsyncRepl.awaiting ReplExamples.interruptible
                      (ReplExamples.quiet
                         [AsyncRepl.EvalSettles
                            (AsyncRepl.Rejected (AsyncRepl.Opaque 9))])
                      "{" ReplExamples.console)))
           (AsyncRepl.Opaque 9)).
  - reflexivity.
  - vm_compute. reflexivity.
Defined.

(** C8 as stated fails: the prompt is set during the evaluation, and the
    evaluation leaves it as set. *)
Lemma prompt_set_during_evaluation_is_kept :
  let (result, w) :=
    ReplExamples.run
      (ReplExamples.quiet
         [AsyncRepl.SetPrompt "test> ";
          AsyncRepl.EvalSettles (AsyncRepl.Resolved (AsyncRepl.Opaque 7))])
      "1+1" in
  result = Fulfilled tt
  /\ AsyncRepl.prompt ReplExamples.console = "> "
  /\ AsyncRepl.prompt w = "test> ".
Proof. vm_compute. repeat split. Qed.

(** As long as nothing settles the promise, the prompt stays blank. *)
Example prompt_blank_while_outstanding :
  let (result, w) :=
    ReplExamples.run
      (ReplExamples.quiet [AsyncRepl.Signal AsyncRepl.ReplExit]) "1+1" in
  result = Pending
  /\ AsyncRepl.prompt ReplExamples.console = "> "
  /\ AsyncRepl.prompt w = EmptyString.
Proof. vm_compute. repeat split. Qed.

(** The statement of C8 for one host, on the sample console. *)
Definition prompt_handled (host : AsyncRepl.Host) : Prop :=
  let eval :=
    AsyncRepl.eval ReplExamples.isRecoverableError
      ReplExamples.interruptible host "1+1" ReplExamples.console in
  let awaiting :=
    AsyncRepl.awaiting ReplExamples.interruptible host "1+1"
      ReplExamples.console in
  let changed :=
    AsyncRepl.last_prompt
      (AsyncRepl.processed (AsyncRepl.during host) awaiting) EmptyString in
  AsyncRepl.prompt awaiting = EmptyString
  /\ (fst eval = Pending ->
      snd eval = snd (AsyncRepl.race (AsyncRepl.during host) awaiting)
      /\ AsyncRepl.prompt (snd eval) = changed)
  /\ (fst eval <> Pending ->
      AsyncRepl.prompt (snd eval) =
        (if JS.isEmpty changed
         then AsyncRepl.prompt ReplExamples.console else changed)).

(** An evaluation that concludes, and one that stays outstanding. *)
Lemma prompt_restored_when_blank_witness :
  prompt_handled
    (ReplExamples.quiet
       [AsyncRepl.Signal AsyncRepl.ReplExit;
        AsyncRepl.EvalSettles (AsyncRepl.Resolved (AsyncRepl.Opaque 7))])
  /\ prompt_handled
       (ReplExamples.quiet [AsyncRepl.Signal AsyncRepl.ReplExit]).
Proof.
  split.
  - apply (AsyncRepl.prompt_restored_when_blank
             ReplExamples.isRecoverableError ReplExamples.interruptible
             (ReplExamples.quiet
                [AsyncRepl.Signal AsyncRepl.ReplExit;
                 AsyncRepl.EvalSettles
                   (AsyncRepl.Resolved (AsyncRepl.Opaque 7))])
             "1+1" ReplExamples.console).
    reflexivity.
  - apply (AsyncRepl.prompt_restored_when_blank
             ReplExamples.isRecoverableError ReplExamples.interruptible
             (ReplExamples.quiet [AsyncRepl.Signal AsyncRepl.ReplExit])
             "1+1" ReplExamples.console).
    reflexivity.
Defined.

Lemma exit_deferred_until_concluded_witness :
  let w' :=
    snd (ReplExamples.run
           (ReplExamples.quiet
              [AsyncRepl.Signal AsyncRepl.ReplExit;
               AsyncRepl.Signal AsyncRepl.ReplExit;
               AsyncRepl.EvalSettles
                 (AsyncRepl.Resolved (AsyncRepl.Opaque 7))])
           "1+1") in
  AsyncRepl.exit_calls (AsyncRepl.observed w') = []
  /\ AsyncRepl.repl_exit w' = [ReplExamples.keep 2]
  /\ AsyncRepl.nextTick w' = [AsyncRepl.EmitExit]
  /\ AsyncRepl.observed (AsyncRepl.run_ticks w') =
     AsyncRepl.observed w' ++ [AsyncRepl.Called AsyncRepl.ReplExit 2].
Proof.
  apply (AsyncRepl.exit_deferred_until_concluded
           ReplExamples.isRecoverableError ReplExamples.interruptible
           (ReplExamples.quiet
              [AsyncRepl.Signal AsyncRepl.ReplExit;
               AsyncRepl.Signal AsyncRepl.ReplExit;
               AsyncRepl.EvalSettles
                 (AsyncRepl.Resolved (AsyncRepl.Opaque 7))])
           "1+1" ReplExamples.console).
  - reflexivity.
  - repeat split.
  - reflexivity.
  - vm_compute. discriminate.
Defined.

(** ** Failures *)

(** Modelled from the spec: the error classes (the errors package) are not
    among the sources; these are the kinds of the spec's error taxonomy. *)
Inductive Failure : Type :=
| SyntaxFailure (recoverable : bool)
| InvalidState (message : string)
| Unimplemented (message : string)
| Interrupted
| TransportFailure (message : string).

(** ** Change-stream cursors *)

Module ChangeStreamCursor.

Section Cursor.

(** The documents of the stream. *)
Variable Document : Type.

(** Modelled from the spec: the class [ChangeStreamCursor]
    (change-stream-cursor.ts) is not among the sources, only its tests
    are.  A cursor is Open or Closed; [available] holds the documents
    that have arrived and were not read yet, and [stream_calls] counts
    the calls made on the underlying stream. *)
Record Cursor : Type := {
  closed : bool;
  available : list Document;
  stream_calls : nat
}.

Definition touch (c : Cursor) : Cursor :=
  {| closed := closed c; available := available c;
     stream_calls := S (stream_calls c) |}.

Definition take (rest : list Document) (c : Cursor) : Cursor :=
  {| closed := closed c; available := rest;
     stream_calls := stream_calls c |}.

Definition closed_cursor : Failure :=
  InvalidState "Cursor is closed".

(** Modelled from the spec: [tryNext()] is the non-blocking read.  On
    a closed cursor it fails with an invalid-state failure; on an open
    one it asks the stream and resolves with the next document, or
    with the absence sentinel [null] ([None]) when none is available. *)
Definition tryNext : M Cursor Failure (option Document) :=
  fun c =>
    if closed c then (Thrown closed_cursor, c)
    else
      match available c with
      | [] => (Fulfilled None, touch c)
      | d :: rest => (Fulfilled (Some d), take rest (touch c))
      end.

(** Modelled from the spec: [next()] suspends until a document is
    there. *)
Definition next : M Cursor Failure Document :=
  fun c =>
    if closed c then (Thrown closed_cursor, c)
    else
      match available c with
      | [] => (Pending, touch c)
      | d :: rest => (Fulfilled d, take rest (touch c))
      end.

(** Modelled from the spec: [close()] is idempotent. *)
Definition close : M Cursor Failure unit :=
  fun c =>
    (Fulfilled tt,
     {| closed := true; available := [];
        stream_calls := if closed c then stream_calls c
                        else S (stream_calls c) |}).

(** Modelled from the spec: the legacy read-style operations, by the
    names the tests call them with. *)
Inductive LegacyRead : Type :=
| map_
| forEach
| toArray
| objsLeftInBatch.

Definition name (m : LegacyRead) : string :=
  match m with
  | map_ => "map"
  | forEach => "forEach"
  | toArray => "toArray"
  | objsLeftInBatch => "objsLeftInBatch"
  end.

Definition not_implemented (m : LegacyRead) : Failure :=
  Unimplemented
    (name m ++ " is not implemented for ChangeStreams")%string.

(** Modelled from the spec: the legacy read-style operations are not
    supported on change-stream cursors and fail at once, whatever the
    state of the cursor, without a call on the stream. *)
Definition legacy (m : LegacyRead) : M Cursor Failure unit :=
  fun c => (Thrown (not_implemented m), c).

(** C4. On a change-stream cursor [map], [forEach], [toArray] and
    [objsLeftInBatch] fail at once with an unimplemented failure:
    whether the cursor is open or closed and whatever is available,
    the cursor is left as it was and the stream is not called. *)
Theorem legacy_reads_unimplemented (m : LegacyRead) (c : Cursor) :
  fst (legacy m c) = Thrown (not_implemented m)
  /\ snd (legacy m c) = c
  /\ stream_calls (snd (legacy m c)) = stream_calls c
  /\ exists message, not_implemented m = Unimplemented message.
Proof.
  repeat split. now exists (name m ++ " is not implemented for ChangeStreams")%string.
Qed.

(** C7. On an open cursor [tryNext] settles at once and does not
    throw: with the absence sentinel when no document is available,
    and with the first available document otherwise, which it takes
    off the stream.  The cursor stays open. *)
Theorem tryNext_never_suspends (c : Cursor) :
  closed c = false ->
  fst (tryNext c) = Fulfilled (hd_error (available c))
  /\ available (snd (tryNext c)) = tl (available c)
  /\ closed (snd (tryNext c)) = false.
Proof.
  intros Hopen. unfold tryNext. rewrite Hopen.
  destruct (available c) as [|d rest] eqn:Ha; simpl; rewrite ?Ha; auto.
Qed.

End Cursor.

End ChangeStreamCursor.

Example tryNext_on_empty_stream :
  ChangeStreamCursor.tryNext nat
    {| ChangeStreamCursor.closed := false;
       ChangeStreamCursor.available := [];
       ChangeStreamCursor.stream_calls := 0 |} =
  (Fulfilled None,
   {| ChangeStreamCursor.closed := false;
      ChangeStreamCursor.available := [];
      ChangeStreamCursor.stream_calls := 1 |}).
Proof. reflexivity. Qed.

(** [next] on the same cursor stays suspended. *)
Example next_on_empty_stream :
  fst (ChangeStreamCursor.next nat
         {| ChangeStreamCursor.closed := false;
            ChangeStreamCursor.available := [];
            ChangeStreamCursor.stream_calls := 0 |}) = Pending.
Proof. reflexivity. Qed.

Lemma tryNext_never_suspends_witness :
  let idle := {| ChangeStreamCursor.closed := false;
                 ChangeStreamCursor.available := @nil nat;
                 ChangeStreamCursor.stream_calls := 0 |} in
  let c := {| ChangeStreamCursor.closed := false;
              ChangeStreamCursor.available := [4; 5];
              ChangeStreamCursor.stream_calls := 0 |} in
  (fst (ChangeStreamCursor.tryNext nat idle) = Fulfilled None
   /\ ChangeStreamCursor.available nat
        (snd (ChangeStreamCursor.tryNext nat idle)) = []
   /\ ChangeStreamCursor.closed nat
        (snd (ChangeStreamCursor.tryNext nat idle)) = false)
  /\ (fst (ChangeStreamCursor.tryNext nat c) = Fulfilled (Some 4)
      /\ ChangeStreamCursor.available nat
           (snd (ChangeStreamCursor.tryNext nat c)) = [5]
      /\ ChangeStreamCursor.closed nat
           (snd (ChangeStreamCursor.tryNext nat c)) = false).
Proof.
  split.
  - apply (ChangeStreamCursor.tryNext_never_suspends nat
             {| ChangeStreamCursor.closed := false;
                ChangeStreamCursor.available := @nil nat;
                ChangeStreamCursor.stream_calls := 0 |}).
    reflexivity.
  - apply (ChangeStreamCursor.tryNext_never_suspends nat
             {| ChangeStreamCursor.closed := false;
                ChangeStreamCursor.available := [4; 5];
                ChangeStreamCursor.stream_calls := 0 |}).
    reflexivity.
Defined.

(** ** Sessions *)

Module Session.

Inductive Transaction : Type :=
| NoTransaction
| InTransaction.

(** Modelled from the spec: the class [Session] (session.ts) is not
    among the sources, only its tests are.  A session tracks whether a
    transaction is active and whether it has ended. *)
Record Session : Type := {
  transaction : Transaction;
  ended : bool
}.

Definition set_transaction (t : Transaction) (s : Session) : Session :=
  {| transaction := t; ended := ended s |}.

(** Modelled from the spec: the messages of the three failures; they hold
    the words the tests of the session look for. *)
Definition already_in_progress : string := "Transaction already in progress".
Definition no_transaction_started : string := "No transaction started".
Definition expired : string := "Use of expired sessions is not permitted".

(** Modelled from the spec: [startTransaction()] fails if a transaction
    is already active. *)
Definition startTransaction : M Session Failure unit :=
  fun s =>
    match transaction s with
    | InTransaction => (Thrown (InvalidState already_in_progress), s)
    | NoTransaction => (Fulfilled tt, set_transaction InTransaction s)
    end.

(** Modelled from the spec: [commitTransaction()] fails if no
    transaction is active. *)
Definition commitTransaction : M Session Failure unit :=
  fun s =>
    match transaction s with
    | NoTransaction => (Thrown (InvalidState no_transaction_started), s)
    | InTransaction => (Fulfilled tt, set_transaction NoTransaction s)
    end.

(** Modelled from the spec: [abortTransaction()] fails if no transaction
    is active. *)
Definition abortTransaction : M Session Failure unit :=
  fun s =>
    match transaction s with
    | NoTransaction => (Thrown (InvalidState no_transaction_started), s)
    | InTransaction => (Fulfilled tt, set_transaction NoTransaction s)
    end.

(** Modelled from the spec: [endSession()] is terminal. *)
Definition endSession : M Session Failure unit :=
  fun s => (Fulfilled tt, {| transaction := transaction s; ended := true |}).

Definition hasEnded (s : Session) : bool := ended s.

(** Modelled from the spec: a database operation routed through the
    session.  [client] is how the database client settles it; through
    an ended session the operation fails with the expiry message. *)
Definition operation {A : Type} (client : outcome Failure A)
  : M Session Failure A :=
  fun s =>
    if ended s then (Thrown (InvalidState expired), s)
    else (client, s).

(** Modelled from the spec: what can be asked of a session. *)
Inductive Request : Type :=
| StartTransaction
| CommitTransaction
| AbortTransaction
| EndSession
| Operation (client : outcome Failure unit).

Definition request (r : Request) : M Session Failure unit :=
  match r with
  | StartTransaction => startTransaction
  | CommitTransaction => commitTransaction
  | AbortTransaction => abortTransaction
  | EndSession => endSession
  | Operation client => operation client
  end.

Definition serve (requests : list Request) (s : Session) : Session :=
  fold_left (fun s r => snd (request r s)) requests s.

Lemma request_keeps_ended (r : Request) (s : Session) :
  ended s = true -> ended (snd (request r s)) = true.
Proof.
  intros H. destruct r; simpl;
    unfold startTransaction, commitTransaction, abortTransaction,
      endSession, operation;
    try destruct (transaction s); simpl; rewrite ?H; auto.
Qed.

Lemma serve_keeps_ended (requests : list Request) (s : Session) :
  ended s = true -> ended (serve requests s) = true.
Proof.
  unfold serve. revert s.
  induction requests as [|r requests IH]; intros s H; simpl.
  - assumption.
  - apply IH, request_keeps_ended, H.
Qed.

(** C5. With no transaction active, [commitTransaction] and
    [abortTransaction] fail with a message that says no transaction was
    started; with a transaction active, so also right after a successful
    [startTransaction], [startTransaction] fails with a message that
    says one is in progress.  A failing call leaves the session as it
    was. *)
Theorem transaction_misuse_fails (e : bool) :
  let idle := {| transaction := NoTransaction; ended := e |} in
  let active := {| transaction := InTransaction; ended := e |} in
  commitTransaction idle = (Thrown (InvalidState no_transaction_started), idle)
  /\ abortTransaction idle =
     (Thrown (InvalidState no_transaction_started), idle)
  /\ startTransaction active =
     (Thrown (InvalidState already_in_progress), active)
  /\ startTransaction (snd (startTransaction idle)) =
     (Thrown (InvalidState already_in_progress), active)
  /\ JS.includes "transaction started" no_transaction_started = true
  /\ JS.includes "in progress" already_in_progress = true.
Proof. repeat split. Qed.

(** C6. [endSession] is terminal.  After it [hasEnded] is true; every
    database operation routed through the session fails, whatever the
    client would have answered, with an invalid-state failure whose
    message speaks of expired sessions, which no transport failure is;
    and no sequence of later requests makes [hasEnded] false again. *)
Theorem endSession_is_terminal (s : Session) :
  let s' := snd (endSession s) in
  fst (endSession s) = Fulfilled tt
  /\ hasEnded s' = true
  /\ (forall client : outcome Failure unit,
        operation client s' = (Thrown (InvalidState expired), s'))
  /\ JS.includes "expired" expired = true
  /\ (forall message, InvalidState expired <> TransportFailure message)
  /\ (forall requests, hasEnded (serve requests s') = true).
Proof.
  simpl. repeat split.
  - discriminate.
  - intros requests. apply serve_keeps_ended. reflexivity.
Qed.

End Session.

Example commit_after_start :
  Session.serve [Session.StartTransaction; Session.CommitTransaction]
    {| Session.transaction := Session.NoTransaction;
       Session.ended := false |} =
  {| Session.transaction := Session.NoTransaction; Session.ended := false |}.
Proof. reflexivity. Qed.

Example operation_on_live_session :
  Session.operation (Fulfilled 3)
    {| Session.transaction := Session.NoTransaction;
       Session.ended := false |} =
  (Fulfilled 3,
   {| Session.transaction := Session.NoTransaction; Session.ended := false |}).
Proof. reflexivity. Qed.

(** ** More about the asynchronous REPL *)

Module ReplFacts.

Import AsyncRepl.

Definition sigint_once : Registered :=
  {| listener := SigintListener; once := true |}.

(** An array that holds [sigintListener] until it has fired. *)
Definition armed (l : list Registered) : Prop :=
  l = [] \/ l = [sigint_once].

(** With a handler: the console's and the process's own ['SIGINT']
    listeners are saved, and only [sigintListener] listens. *)
Record guarded (saved_repl saved_process : list Registered) (w : World)
  : Prop := {
  guarded_listener : sigintListener w = true;
  guarded_replSigint : replSigint w = Some saved_repl;
  guarded_processSigint : processSigint w = Some saved_process;
  guarded_repl : armed (repl_SIGINT w);
  guarded_process : armed (process_SIGINT w)
}.

(** Without a handler: nothing is saved and the arrays stay the console's
    and the process's own. *)
Record unguarded (w : World) : Prop := {
  unguarded_listener : sigintListener w = false;
  unguarded_replSigint : replSigint w = None;
  unguarded_processSigint : processSigint w = None;
  unguarded_repl : forallb is_foreign (repl_SIGINT w) = true;
  unguarded_process : forallb is_foreign (process_SIGINT w) = true;
  unguarded_inFlight : inFlight w = 0
}.

(** The calls of the console's and the process's own ['SIGINT'] listeners
    among the observations. *)
Definition sigint_calls (obs : list Observation) : list (Channel * nat) :=
  flat_map
    (fun o =>
       match o with
       | Called ReplSIGINT id => [(ReplSIGINT, id)]
       | Called ProcessSIGINT id => [(ProcessSIGINT, id)]
       | _ => []
       end) obs.

(** How often the handler was called. *)
Definition handler_calls (obs : list Observation) : nat :=
  length (filter (fun o => match o with OnAsyncSigint => true | _ => false end)
            obs).

Definition finish_events (obs : list Observation) : list FinishStatus :=
  flat_map (fun o => match o with EvalFinish _ s => [s] | _ => [] end) obs.

(** The first settlement of [evalResult] among the actions. *)
Fixpoint first_settlement (acts : list Action) : option Settled :=
  match acts with
  | [] => None
  | EvalSettles s :: _ => Some s
  | _ :: rest => first_settlement rest
  end.

Definition settled_outcome (s : option Settled) : outcome Value Value :=
  match s with
  | Some (Resolved v) => Fulfilled v
  | Some (Rejected e) => Thrown e
  | None => Pending
  end.

(** X1. [disableEvent] empties the array of the event, and [restore] puts
    the saved listeners back in their order, behind any listener that was
    registered in between. *)
Theorem disableEvent_restore (ch : Channel) (w : World)
    (between : list Registered) :
  let (saved, w') := disableEvent ch w in
  listeners ch w' = []
  /\ restore ch saved w' = w
  /\ listeners ch (restore ch saved (set_listeners ch between w')) =
     between ++ listeners ch w.
Proof.
  unfold disableEvent, removeAllListeners.
  rewrite !restore_closed.
  destruct w, ch; simpl; repeat split.
Qed.

Lemma sigint_calls_app (a b : list Observation) :
  sigint_calls (a ++ b) = sigint_calls a ++ sigint_calls b.
Proof. unfold sigint_calls. apply flat_map_app. Qed.

Lemma handler_calls_app (a b : list Observation) :
  handler_calls (a ++ b) = handler_calls a + handler_calls b.
Proof. unfold handler_calls. now rewrite filter_app, length_app. Qed.

Lemma finish_events_app (a b : list Observation) :
  finish_events (a ++ b) = finish_events a ++ finish_events b.
Proof. unfold finish_events. apply flat_map_app. Qed.

Lemma finish_events_observations (ch : Channel) (l : list Registered) :
  finish_events (observations ch l) = [].
Proof.
  unfold observations.
  induction l as [|[f o] l IH]; simpl; [reflexivity|].
  rewrite finish_events_app, IH, app_nil_r. destruct f; reflexivity.
Qed.

Lemma step_reports (a : Action) (w : World) :
  callbacks (observed (step a w)) = callbacks (observed w)
  /\ finish_events (observed (step a w)) = finish_events (observed w).
Proof.
  destruct a as [ch|p|r|s]; simpl.
  - rewrite emit_closed. simpl.
    now rewrite callbacks_app, callbacks_observations, finish_events_app,
      finish_events_observations, !app_nil_r.
  - split; reflexivity.
  - destruct (inFlight w) as [|n]; [split; reflexivity|].
    destruct (settle_fields (Rejected (sigint_rejection r))
                (set_inFlight n w)) as (_ & _ & _ & _ & _ & -> & _).
    split; reflexivity.
  - destruct (settle_fields s w) as (_ & _ & _ & _ & _ & -> & _).
    split; reflexivity.
Qed.

(** The race calls no callback and emits no finish event. *)
Lemma race_reports (acts : list Action) (w : World) :
  callbacks (observed (snd (race acts w))) = callbacks (observed w)
  /\ finish_events (observed (snd (race acts w))) =
     finish_events (observed w).
Proof.
  revert w. induction acts as [|a acts IH]; intros w; simpl.
  - destruct (promise w) as [[v|e]|]; split; reflexivity.
  - destruct (promise w) as [[v|e]|]; try (split; reflexivity).
    destruct (IH (step a w)) as [-> ->]. apply step_reports.
Qed.

(** The handler calls made and those still possible. *)
Definition handler_budget (w : World) : nat :=
  handler_calls (observed w)
  + length (repl_SIGINT w) + length (process_SIGINT w).

Lemma step_guarded (sr sp : list Registered) (a : Action) (w : World) :
  guarded sr sp w ->
  racing w ->
  guarded sr sp (step a w)
  /\ sigint_calls (observed (step a w)) = sigint_calls (observed w)
  /\ handler_budget (step a w) = handler_budget w.
Proof.
  intros [Hl Hrs Hps Hr Hp] [Hexit _ _]. unfold handler_budget.
  destruct a as [ch|p|r|s]; simpl.
  - rewrite emit_closed. destruct ch; simpl.
    + destruct Hr as [Hr|Hr]; rewrite Hr in *; simpl;
        (split; [split; simpl; unfold armed; auto|]);
        rewrite ?app_nil_r, ?sigint_calls_app, ?handler_calls_app;
        unfold handler_calls, sigint_calls; simpl;
        rewrite ?app_nil_r; split; auto; lia.
    + rewrite Hexit. destruct (exitEventPending w); simpl;
        (split; [split; simpl; auto|]); rewrite ?app_nil_r; auto.
    + destruct Hp as [Hp|Hp]; rewrite Hp in *; simpl;
        (split; [split; simpl; unfold armed; auto|]);
        rewrite ?app_nil_r, ?sigint_calls_app, ?handler_calls_app;
        unfold handler_calls, sigint_calls; simpl;
        rewrite ?app_nil_r; split; auto; lia.
  - split; [split; auto|]. auto.
  - destruct (inFlight w) as [|n]; [split; [split; auto|]; auto|].
    destruct (settle_fields (Rejected (sigint_rejection r))
                (set_inFlight n w))
      as (_ & H2 & _ & H4 & _ & H6 & _ & _ & H9 & H10 & H11 & _).
    simpl in *. rewrite H2, H4, H6.
    split; [split; congruence|]. auto.
  - destruct (settle_fields s w)
      as (_ & H2 & _ & H4 & _ & H6 & _ & _ & H9 & H10 & H11 & _).
    rewrite H2, H4, H6.
    split; [split; congruence|]. auto.
Qed.

Lemma race_guarded (sr sp : list Registered) (acts : list Action)
    (w : World) :
  guarded sr sp w ->
  racing w ->
  guarded sr sp (snd (race acts w))
  /\ sigint_calls (observed (snd (race acts w))) = sigint_calls (observed w)
  /\ handler_budget (snd (race acts w)) = handler_budget w.
Proof.
  revert w. induction acts as [|a acts IH]; intros w Hg Hr; simpl.
  - destruct (promise w) as [[v|e]|]; auto.
  - destruct (promise w) as [[v|e]|]; auto.
    destruct (step_guarded sr sp a w Hg Hr) as (Hg' & Hc & Hb).
    destruct (step_racing a w Hr) as (Hr' & _).
    destruct (IH _ Hg' Hr') as (Hg'' & Hc' & Hb').
    split; [assumption|]. split; congruence.
Qed.

Lemma step_unguarded (a : Action) (w : World) :
  unguarded w ->
  racing w ->
  unguarded (step a w)
  /\ promise (step a w) =
     match promise w, a with
     | None, EvalSettles s => Some s
     | p, _ => p
     end.
Proof.
  intros [Hl Hrs Hps Hr Hp Hf] [Hexit _ _].
  destruct a as [ch|p|r|s]; simpl.
  - rewrite emit_closed. destruct ch; simpl.
    + rewrite (foreign_not_sigint _ Hr), Hf.
      split; [split; simpl; auto using forallb_filter_foreign|].
      now destruct (promise w).
    + rewrite Hexit, Hf. destruct (exitEventPending w); simpl;
        (split; [split; simpl; auto|]); now destruct (promise w).
    + rewrite (foreign_not_sigint _ Hp), Hf.
      split; [split; simpl; auto using forallb_filter_foreign|].
      now destruct (promise w).
  - split; [split; auto|]. now destruct (promise w).
  - rewrite Hf. split; [split; auto|]. now destruct (promise w).
  - destruct (settle_fields s w)
      as (_ & H2 & _ & H4 & _ & _ & _ & _ & H9 & H10 & H11 & H12).
    split; [split; congruence|].
    unfold settle. destruct (promise w) eqn:Hpw; simpl; auto.
Qed.

Lemma race_already_settled (acts : list Action) (w : World) (s : Settled) :
  promise w = Some s ->
  race acts w = (settled_outcome (Some s), w).
Proof. intros H. destruct acts; simpl; rewrite H; now destruct s. Qed.

(** Without a handler only [evalResult] settles the promise. *)
Lemma race_unguarded (acts : list Action) (w : World) :
  unguarded w ->
  racing w ->
  promise w = None ->
  unguarded (snd (race acts w))
  /\ fst (race acts w) = settled_outcome (first_settlement acts).
Proof.
  revert w. induction acts as [|a acts IH]; intros w Hu Hr Hp; simpl.
  - rewrite Hp. auto.
  - rewrite Hp.
    destruct (step_unguarded a w Hu Hr) as (Hu' & Hp').
    destruct (step_racing a w Hr) as (Hr' & _).
    rewrite Hp in Hp'.
    destruct a as [ch|p|r|s]; try (now apply IH).
    rewrite (race_already_settled acts _ s Hp'). auto.
Qed.

Section Evaluation.

Variable isRecoverableError : string -> bool.
Variable opts : AsyncREPLOptions.
Variable host : Host.

Local Abbreviation eval := (eval isRecoverableError opts host).
Local Abbreviation report := (report isRecoverableError opts host).
Local Abbreviation awaiting := (awaiting opts host).
Local Abbreviation failure_report :=
  (failure_report isRecoverableError opts host).
Local Abbreviation success_report := (success_report opts host).

Ltac unfold_awaiting :=
  unfold AsyncRepl.awaiting, executor, try_catch, bind, modify, gets, when,
    throw_if, throw, ret.

Lemma awaiting_guarded (input : string) (w : World) :
  onAsyncSigint opts = true ->
  guarded (repl_SIGINT w) (process_SIGINT w) (awaiting input w).
Proof.
  intros Hon. unfold_awaiting. rewrite Hon.
  destruct (asyncEval_throws host); simpl; split; simpl;
    unfold armed, sigint_once; auto.
Qed.

Lemma awaiting_unguarded (input : string) (w : World) :
  onAsyncSigint opts = false ->
  foreign_only w ->
  unguarded (awaiting input w).
Proof.
  intros Hoff (Hrepl & _ & Hproc). unfold_awaiting. rewrite Hoff.
  destruct (asyncEval_throws host); simpl; split; simpl; auto.
Qed.

Lemma awaiting_observed (input : string) (w : World) :
  observed (awaiting input w) =
  observed w ++ [EvalStart input; AsyncEval input].
Proof.
  unfold_awaiting.
  destruct (onAsyncSigint opts), (asyncEval_throws host); simpl;
    now rewrite <- app_assoc.
Qed.

Lemma awaiting_promise (input : string) (w : World) :
  promise (awaiting input w) =
  match asyncEval_throws host with
  | Some e => Some (Rejected e)
  | None => None
  end.
Proof.
  unfold_awaiting.
  destruct (onAsyncSigint opts), (asyncEval_throws host); reflexivity.
Qed.

Lemma awaiting_inFlight (input : string) (w : World) :
  inFlight (awaiting input w) = 0.
Proof.
  unfold_awaiting.
  destruct (onAsyncSigint opts), (asyncEval_throws host); reflexivity.
Qed.

Lemma cleanup_guarded (sr sp : list Registered) (origPrompt : string)
    (w : World) :
  guarded sr sp w ->
  repl_SIGINT (snd (cleanup origPrompt w)) = sr
  /\ process_SIGINT (snd (cleanup origPrompt w)) = sp.
Proof.
  intros [Hl Hrs Hps Hr Hp].
  unfold cleanup, bind, modify, gets, when, ret. simpl.
  rewrite Hl. simpl. rewrite Hrs. simpl. rewrite ?restore_closed. simpl.
  rewrite Hps. simpl. rewrite ?restore_closed. simpl.
  destruct (JS.isEmpty (prompt w)); simpl; rewrite ?restore_closed; simpl;
    destruct (exitEventPending w); simpl;
    destruct Hr as [-> | ->], Hp as [-> | ->]; simpl; auto.
Qed.

Lemma cleanup_unguarded (origPrompt : string) (w : World) :
  unguarded w ->
  repl_SIGINT (snd (cleanup origPrompt w)) = repl_SIGINT w
  /\ process_SIGINT (snd (cleanup origPrompt w)) = process_SIGINT w.
Proof.
  intros [Hl Hrs Hps Hr Hp Hf].
  unfold cleanup, bind, modify, gets, when, ret. simpl.
  rewrite Hl. simpl. rewrite Hrs. simpl. rewrite Hps. simpl.
  destruct (JS.isEmpty (prompt w)); simpl; rewrite ?restore_closed; simpl;
    destruct (exitEventPending w); simpl; auto.
Qed.

(** The arrays of a concluded evaluation are those the [finally] block
    left. *)
Lemma eval_arrays (input : string) (w : World) :
  evalStart_throws host = None ->
  fst (eval input w) <> Pending ->
  let ws := snd (race (during host) (awaiting input w)) in
  let w' := snd (eval input w) in
  repl_SIGINT w' = repl_SIGINT (snd (cleanup (prompt w) ws))
  /\ process_SIGINT w' = process_SIGINT (snd (cleanup (prompt w) ws))
  /\ repl_exit w' = repl_exit (snd (cleanup (prompt w) ws)).
Proof.
  intros Hstart. rewrite (eval_concluded _ _ _ input w Hstart).
  destruct (race (during host) (awaiting input w)) as [[v|e|] ws];
    cbn [fst snd]; intros Hdone; try (now elim Hdone);
    match goal with
    | |- context [report input ?c ?x] =>
        destruct (report_fields isRecoverableError opts host input c x)
          as (_ & _ & Hr & He & Hp & _)
    end; auto.
Qed.

(** A report is a finish event followed by one or two calls of the
    callback; [eval] is fulfilled when the last call returns and rejected
    with what it throws otherwise. *)
Lemma report_shape (input : string) (completion : Value + Value)
    (w : World) :
  exists status cb rest,
    match completion with
    | inl result => success_report input result
    | inr err => failure_report input err
    end =
    EvalFinish input status
    :: map (fun c => Callback (fst c) (snd c)) (cb :: rest)
    /\ length rest <= 1
    /\ fst (report input completion w) =
       match callback_throws host (fst (last rest cb)) (snd (last rest cb))
       with
       | Some thrown => Thrown thrown
       | None => Fulfilled tt
       end.
Proof.
  unfold AsyncRepl.report, AsyncRepl.success_report,
    AsyncRepl.failure_report, emit_evalFinish, callback, try_catch, bind,
    modify, throw_if, throw, ret.
  destruct completion as [result|err]; simpl.
  - exists Success.
    destruct (evalFinish_throws host) as [ce|]; simpl.
    + exists (wrapCallbackError_ opts ce, None), []. simpl.
      destruct (callback_throws host (wrapCallbackError_ opts ce) None);
        auto.
    + destruct (callback_throws host Null (Some result)) as [ce|] eqn:Hcb;
        simpl.
      * exists (Null, Some result), [(wrapCallbackError_ opts ce, None)].
        simpl.
        destruct (callback_throws host (wrapCallbackError_ opts ce) None);
          auto.
      * exists (Null, Some result), []. simpl. rewrite Hcb. auto.
  - exists (Failure err (isRecoverableError input)).
    destruct (isRecoverableError input); simpl;
      destruct (evalFinish_throws host) as [ce|]; simpl;
      try (exists (wrapCallbackError_ opts ce, None), []; simpl;
           destruct (callback_throws host (wrapCallbackError_ opts ce) None);
           now auto);
      match goal with
      | |- context [callback_throws host ?e None] =>
          destruct (callback_throws host e None) as [ce|] eqn:Hcb; simpl;
          [ exists (e, None), [(wrapCallbackError_ opts ce, None)]; simpl;
            destruct (callback_throws host (wrapCallbackError_ opts ce)
                        None); auto
          | exists (e, None), []; simpl; rewrite Hcb; auto ]
      end.
Qed.

Lemma reports_quiet (input : string) (completion : Value + Value) :
  let r := match completion with
           | inl result => success_report input result
           | inr err => failure_report input err
           end in
  sigint_calls r = [] /\ handler_calls r = 0.
Proof.
  destruct (report_shape input completion
              {| prompt := EmptyString; repl_SIGINT := []; repl_exit := [];
                 process_SIGINT := []; nextTick := []; observed := [];
                 exitEventPending := false; previousExitListeners := [];
                 sigintListener := false; replSigint := None;
                 processSigint := None; promise := None; inFlight := 0 |})
    as (status & cb & rest & -> & Hlen & _).
  destruct rest as [|cb' [|cb'' rest]]; simpl in *; auto; lia.
Qed.

(** What [eval] lets be observed: what the race left, and the report if
    the evaluation concluded. *)
Lemma eval_observed (input : string) (w : World) :
  evalStart_throws host = None ->
  observed (snd (eval input w)) =
  observed (snd (race (during host) (awaiting input w)))
  ++ match fst (race (during host) (awaiting input w)) with
     | Fulfilled result => success_report input result
     | Thrown err => failure_report input err
     | Pending => []
     end.
Proof.
  intros Hstart. rewrite (eval_concluded _ _ _ input w Hstart).
  destruct (race (during host) (awaiting input w)) as [[v|e|] ws];
    cbn [fst snd]; try (now rewrite app_nil_r);
    match goal with
    | |- context [report input ?c ?x] =>
        destruct (report_fields isRecoverableError opts host input c x)
          as (_ & _ & _ & _ & _ & _ & ->)
    end;
    now rewrite (proj2 (proj2 (cleanup_frame (prompt w) ws))).
Qed.

(** X2. With an interrupt handler, a concluded evaluation leaves the
    console's and the process's ['SIGINT'] listeners exactly as they were
    before it, whatever signals arrived and however it ended. *)
Theorem sigint_listeners_restored (input : string) (w : World) :
  evalStart_throws host = None ->
  onAsyncSigint opts = true ->
  foreign_only w ->
  fst (eval input w) <> Pending ->
  repl_SIGINT (snd (eval input w)) = repl_SIGINT w
  /\ process_SIGINT (snd (eval input w)) = process_SIGINT w.
Proof.
  intros Hstart Hon Hforeign Hdone.
  destruct (eval_arrays input w Hstart Hdone) as (-> & -> & _).
  destruct (awaiting_racing opts host input w Hforeign) as (Hracing & _).
  destruct (race_guarded _ _ (during host) _
              (awaiting_guarded input w Hon) Hracing) as (Hg & _).
  exact (cleanup_guarded _ _ (prompt w) _ Hg).
Qed.

(** X3. With an interrupt handler, no ['SIGINT'] listener of the console
    or of the process is called while an evaluation runs, and the handler
    is called at most twice: once for the console and once for the
    process, however many signals arrive. *)
Theorem own_sigint_listeners_silenced (input : string) (w : World) :
  evalStart_throws host = None ->
  onAsyncSigint opts = true ->
  foreign_only w ->
  sigint_calls (observed (snd (eval input w))) = sigint_calls (observed w)
  /\ handler_calls (observed (snd (eval input w))) <=
     handler_calls (observed w) + 2.
Proof.
  intros Hstart Hon Hforeign.
  destruct (awaiting_racing opts host input w Hforeign) as (Hracing & _).
  pose proof (awaiting_guarded input w Hon) as Hg.
  destruct (race_guarded _ _ (during host) _ Hg Hracing)
    as ([_ _ _ Hr Hp] & Hcalls & Hbudget).
  rewrite (eval_observed input w Hstart),
    sigint_calls_app, handler_calls_app.
  assert (Hquiet :
    sigint_calls
      match fst (race (during host) (awaiting input w)) with
      | Fulfilled result => success_report input result
      | Thrown err => failure_report input err
      | Pending => []
      end = []
    /\ handler_calls
         match fst (race (during host) (awaiting input w)) with
         | Fulfilled result => success_report input result
         | Thrown err => failure_report input err
         | Pending => []
         end = 0).
  { destruct (fst (race (during host) (awaiting input w))) as [v|e|].
    - apply (reports_quiet input (inl v)).
    - apply (reports_quiet input (inr e)).
    - split; reflexivity. }
  destruct Hquiet as [-> ->].
  rewrite app_nil_r, Hcalls, (awaiting_observed input w), sigint_calls_app.
  split; [simpl; now rewrite app_nil_r|].
  unfold handler_budget in Hbudget.
  rewrite (awaiting_observed input w), handler_calls_app in Hbudget.
  destruct Hg as [_ _ _ Hr0 Hp0].
  assert (Hlen : forall l, armed l -> length l <= 1).
  { intros l [-> | ->]; simpl; lia. }
  pose proof (Hlen _ Hr0). pose proof (Hlen _ Hp0).
  unfold handler_calls in *. simpl in *. lia.
Qed.

(** X4. Without an interrupt handler no signal cancels an evaluation: if
    the arrays held only other parties' listeners and [asyncEval] returned
    its promise, the awaited promise settles exactly as [evalResult] first
    does and stays outstanding if it never does, and the callback is
    called with the report of that settlement. *)
Theorem no_handler_no_cancellation (input : string) (w : World) :
  evalStart_throws host = None ->
  asyncEval_throws host = None ->
  onAsyncSigint opts = false ->
  foreign_only w ->
  fst (race (during host) (awaiting input w)) =
    settled_outcome (first_settlement (during host))
  /\ callbacks (observed (snd (eval input w))) =
     callbacks (observed w)
     ++ callbacks
          match first_settlement (during host) with
          | Some (Resolved result) => success_report input result
          | Some (Rejected err) => failure_report input err
          | None => []
          end.
Proof.
  intros Hstart Hsync Hoff Hforeign.
  destruct (awaiting_racing opts host input w Hforeign)
    as (Hracing & _ & _ & _ & _ & Hcb).
  pose proof (awaiting_promise input w) as Hp. rewrite Hsync in Hp.
  destruct (race_unguarded (during host) _
              (awaiting_unguarded input w Hoff Hforeign) Hracing Hp)
    as (_ & Hrace).
  split; [assumption|].
  rewrite (eval_observed input w Hstart), callbacks_app,
    (proj1 (race_reports _ _)), Hcb, Hrace.
  now destruct (first_settlement (during host)) as [[v|e]|].
Qed.

(** X5. When the awaited promise is fulfilled, the evaluation emits one
    finish event that reports success and calls the callback with [null]
    and the result.  If a listener of the finish event throws, the callback
    is called with [wrapCallbackError] of what was thrown instead; if the
    callback throws, it is called a second time with [wrapCallbackError] of
    that. *)
Theorem success_reported (input : string) (w ws : World) (result : Value) :
  evalStart_throws host = None ->
  race (during host) (awaiting input w) = (Fulfilled result, ws) ->
  fst (eval input w) <> Pending
  /\ observed (snd (eval input w)) =
     observed ws
     ++ EvalFinish input Success
        :: match evalFinish_throws host with
           | Some callbackErr =>
               [Callback (wrapCallbackError_ opts callbackErr) None]
           | None =>
               Callback Null (Some result)
               :: match callback_throws host Null (Some result) with
                  | Some callbackErr =>
                      [Callback (wrapCallbackError_ opts callbackErr) None]
                  | None => []
                  end
           end.
Proof.
  intros Hstart Hrace. split.
  - rewrite (eval_concluded _ _ _ input w Hstart), Hrace.
    apply report_fields.
  - rewrite (eval_observed input w Hstart), Hrace. reflexivity.
Qed.

(** X6. If [asyncEval] throws before it returns a promise, the evaluation
    fails with what it threw, whatever happens afterwards: the
    observations are the start event, the call of [asyncEval] and the
    failure report, and the handler is not attached to the process. *)
Theorem asyncEval_throw_reported (input : string) (w : World) (e : Value) :
  evalStart_throws host = None ->
  asyncEval_throws host = Some e ->
  fst (eval input w) <> Pending
  /\ observed (snd (eval input w)) =
     observed w
     ++ EvalStart input :: AsyncEval input :: failure_report input e
  /\ process_SIGINT (awaiting input w) =
     (if onAsyncSigint opts then [] else process_SIGINT w).
Proof.
  intros Hstart Hsync.
  pose proof (awaiting_promise input w) as Hp. rewrite Hsync in Hp.
  pose proof (race_already_settled (during host) _ _ Hp) as Hrace.
  simpl in Hrace. repeat split.
  - rewrite (eval_concluded _ _ _ input w Hstart), Hrace.
    apply report_fields.
  - rewrite (eval_observed input w Hstart), Hrace. cbn [fst snd].
    rewrite (awaiting_observed input w), <- app_assoc. reflexivity.
  - unfold_awaiting. rewrite Hsync.
    destruct (onAsyncSigint opts); reflexivity.
Qed.

Lemma eval_reports_once (input : string) (w : World) :
  evalStart_throws host = None ->
  fst (eval input w) <> Pending ->
  exists status cb rest,
    finish_events (observed (snd (eval input w))) =
      finish_events (observed w) ++ [status]
    /\ callbacks (observed (snd (eval input w))) =
       callbacks (observed w) ++ cb :: rest
    /\ length rest <= 1
    /\ fst (eval input w) =
       match callback_throws host (fst (last rest cb)) (snd (last rest cb))
       with
       | Some thrown => Thrown thrown
       | None => Fulfilled tt
       end.
Proof.
  intros Hstart Hdone.
  pose proof (eval_observed input w Hstart) as Hobs.
  pose proof (eval_concluded isRecoverableError opts host input w Hstart)
    as Heval.
  destruct (race_reports (during host) (awaiting input w)) as [Hcb Hfin].
  rewrite (awaiting_observed input w) in Hcb, Hfin.
  rewrite callbacks_app in Hcb. rewrite finish_events_app in Hfin.
  simpl in Hcb, Hfin. rewrite app_nil_r in Hcb, Hfin.
  destruct (race (during host) (awaiting input w)) as [[v|e|] ws];
    cbn [fst snd] in *;
    [ destruct (report_shape input (inl v) (snd (cleanup (prompt w) ws)))
        as (status & cb & rest & Hshape & Hlen & Hfst)
    | destruct (report_shape input (inr e) (snd (cleanup (prompt w) ws)))
        as (status & cb & rest & Hshape & Hlen & Hfst)
    | rewrite Heval in Hdone; now elim Hdone ];
    exists status, cb, rest;
    rewrite Hobs, Hshape, finish_events_app, callbacks_app, Hcb, Hfin,
      Heval, Hfst;
    (repeat split; auto);
    destruct rest as [|cb' [|cb'' rest]]; simpl in *;
    rewrite <- ?surjective_pairing; auto; lia.
Qed.

(** X7. Every evaluation that concludes emits exactly one finish event
    and calls the callback once or twice.  The promise of [eval] is
    fulfilled when the last of these calls returns, and rejected with what
    that call throws otherwise. *)
Theorem callback_always_called (input : string) (w : World) :
  evalStart_throws host = None ->
  fst (eval input w) <> Pending ->
  exists status cb rest,
    finish_events (observed (snd (eval input w))) =
      finish_events (observed w) ++ [status]
    /\ callbacks (observed (snd (eval input w))) =
       callbacks (observed w) ++ cb :: rest
    /\ length rest <= 1
    /\ fst (eval input w) =
       match callback_throws host (fst (last rest cb)) (snd (last rest cb))
       with
       | Some thrown => Thrown thrown
       | None => Fulfilled tt
       end.
Proof. apply eval_reports_once. Qed.

Lemma step_incl (a : Action) (w : World) :
  incl (repl_SIGINT (step a w)) (repl_SIGINT w)
  /\ incl (process_SIGINT (step a w)) (process_SIGINT w).
Proof.
  destruct a as [ch|p|r|s]; simpl.
  - rewrite emit_closed. destruct ch; simpl;
      auto using incl_refl, incl_filter.
  - auto using incl_refl.
  - destruct (inFlight w) as [|n]; [auto using incl_refl|].
    destruct (settle_fields (Rejected (sigint_rejection r))
                (set_inFlight n w)) as (_ & -> & _ & -> & _).
    simpl. auto using incl_refl.
  - destruct (settle_fields s w) as (_ & -> & _ & -> & _).
    auto using incl_refl.
Qed.

(** The race adds no listener to the ['SIGINT'] arrays. *)
Lemma race_incl (acts : list Action) (w : World) :
  incl (repl_SIGINT (snd (race acts w))) (repl_SIGINT w)
  /\ incl (process_SIGINT (snd (race acts w))) (process_SIGINT w).
Proof.
  revert w. induction acts as [|a acts IH]; intros w; simpl.
  - destruct (promise w) as [[v|e]|]; auto using incl_refl.
  - destruct (promise w) as [[v|e]|]; auto using incl_refl.
    destruct (IH (step a w)) as [Hr Hp], (step_incl a w) as [Hr' Hp'].
    split; eapply incl_tran; eassumption.
Qed.

Lemma forallb_incl (f : Registered -> bool) (l l' : list Registered) :
  incl l l' -> forallb f l' = true -> forallb f l = true.
Proof.
  intros Hincl H. apply forallb_forall. intros x Hx.
  rewrite forallb_forall in H. apply H, Hincl, Hx.
Qed.

Lemma awaiting_arrays_off (input : string) (w : World) :
  onAsyncSigint opts = false ->
  repl_SIGINT (awaiting input w) = repl_SIGINT w
  /\ process_SIGINT (awaiting input w) = process_SIGINT w.
Proof.
  intros Hoff. unfold_awaiting. rewrite Hoff.
  destruct (asyncEval_throws host); split; reflexivity.
Qed.

Lemma eval_leaves_no_listener (input : string) (w : World) :
  evalStart_throws host = None ->
  foreign_only w ->
  fst (eval input w) <> Pending ->
  let w' := snd (eval input w) in
  foreign_only w'
  /\ repl_exit w' = repl_exit w
  /\ incl (repl_SIGINT w') (repl_SIGINT w)
  /\ incl (process_SIGINT w') (process_SIGINT w).
Proof.
  intros Hstart Hforeign Hdone w'.
  destruct (eval_arrays input w Hstart Hdone) as (Hr & Hp & He).
  fold w' in Hr, Hp, He.
  destruct (awaiting_racing opts host input w Hforeign)
    as (Hracing & _ & Hprev & _).
  destruct (race_racing (during host) _ Hracing) as (Hracing' & Hev & _).
  rewrite (cleanup_exit _ _ Hracing'), (evolves_previous _ _ Hev), Hprev
    in He.
  assert (Hincl : incl (repl_SIGINT w') (repl_SIGINT w)
                  /\ incl (process_SIGINT w') (process_SIGINT w)).
  { destruct (onAsyncSigint opts) eqn:Hon.
    - destruct (race_guarded _ _ (during host) _
                  (awaiting_guarded input w Hon) Hracing) as (Hg & _).
      destruct (cleanup_guarded _ _ (prompt w) _ Hg) as [Hr' Hp'].
      rewrite Hr, Hp, Hr', Hp'. auto using incl_refl.
    - pose proof (awaiting_promise input w) as Hpr.
      destruct (awaiting_arrays_off input w Hon) as [Har Hap].
      destruct (race_incl (during host) (awaiting input w)) as [Hir Hip].
      rewrite Har in Hir. rewrite Hap in Hip.
      assert (Hu : unguarded (snd (race (during host) (awaiting input w)))).
      { pose proof (awaiting_unguarded input w Hon Hforeign) as Hu0.
        clear - Hu0 Hracing.
        generalize dependent (awaiting input w).
        induction (during host) as [|a acts IH]; intros w0 Hr0 Hu0; simpl.
        - now destruct (promise w0) as [[v|e]|].
        - destruct (promise w0) as [[v|e]|]; auto.
          apply IH.
          + apply (step_racing a w0 Hr0).
          + apply (step_unguarded a w0 Hu0 Hr0). }
      destruct (cleanup_unguarded (prompt w) _ Hu) as [Hr' Hp'].
      rewrite Hr, Hp, Hr', Hp'. auto. }
  destruct Hincl as [Hir Hip].
  destruct Hforeign as (Hfr & Hfe & Hfp).
  repeat split; auto.
  - eapply forallb_incl; eassumption.
  - now rewrite He.
  - eapply forallb_incl; eassumption.
Qed.

(** X8. A concluded evaluation leaves none of its own listeners behind:
    with or without a handler, the ['exit'] listeners are those from
    before, the ['SIGINT'] arrays hold only listeners that were there
    before, and the arrays again hold other parties' listeners only. *)
Theorem no_listener_left_behind (input : string) (w : World) :
  evalStart_throws host = None ->
  foreign_only w ->
  fst (eval input w) <> Pending ->
  let w' := snd (eval input w) in
  foreign_only w'
  /\ repl_exit w' = repl_exit w
  /\ incl (repl_SIGINT w') (repl_SIGINT w)
  /\ incl (process_SIGINT w') (process_SIGINT w).
Proof. apply eval_leaves_no_listener. Qed.

End Evaluation.

(** *** One evaluation after the other *)

Section Turns.

Variable isRecoverableError : string -> bool.
Variable opts : AsyncREPLOptions.

(** The console calls [repl.eval] for one input after the other; the
    queued ticks run when a call has returned.  An evaluation that stays
    outstanding is the last one. *)
Fixpoint turns (ts : list (Host * string)) (w : World) : World :=
  match ts with
  | [] => w
  | (host, input) :: rest =>
      match AsyncRepl.eval isRecoverableError opts host input w with
      | (Pending, w') => w'
      | (_, w') => turns rest (run_ticks w')
      end
  end.

(** A turn whose start listeners return, whose [evalResult] settles and
    during which nobody sets the prompt. *)
Definition plain_turn (t : Host * string) : Prop :=
  evalStart_throws (fst t) = None
  /\ (exists s, In (EvalSettles s) (during (fst t)))
  /\ (forall q, ~ In (SetPrompt q) (during (fst t))).

Lemma run_ticks_fields (w : World) :
  nextTick w = [] \/ nextTick w = [EmitExit] ->
  foreign_only w ->
  foreign_only (run_ticks w)
  /\ nextTick (run_ticks w) = []
  /\ prompt (run_ticks w) = prompt w
  /\ finish_events (observed (run_ticks w)) = finish_events (observed w).
Proof.
  intros Hticks (Hr & He & Hp). unfold run_ticks.
  destruct Hticks as [-> | ->]; simpl.
  - repeat split; auto.
  - rewrite emit_closed. simpl.
    rewrite finish_events_app, finish_events_observations, app_nil_r.
    repeat split; simpl; auto using forallb_filter_foreign.
Qed.

(** X9. Evaluations compose: from a console whose arrays hold other
    parties' listeners and whose tick queue is empty, after any number of
    turns that conclude and do not set the prompt, the console is in such a
    state again, the prompt is the one from before, and one finish event
    was emitted per turn. *)
Theorem console_ready_after_turns (ts : list (Host * string)) (w : World) :
  Forall plain_turn ts ->
  foreign_only w ->
  nextTick w = [] ->
  let w' := turns ts w in
  foreign_only w'
  /\ nextTick w' = []
  /\ prompt w' = prompt w
  /\ length (finish_events (observed w')) =
     length (finish_events (observed w)) + length ts.
Proof.
  revert w. induction ts as [|[host input] ts IH]; intros w Hts Hf Ht; simpl.
  - split; [assumption|]. repeat split; auto; lia.
  - inversion Hts as [|t ts' (Hstart & (s & Hs) & Hno) Hrest]; subst.
    simpl in *.
    pose proof (eval_concludes isRecoverableError opts host input w s
                  Hstart Hs) as Hdone.
    pose proof (prompt_restored_if_untouched isRecoverableError opts host
                  input w Hstart Hdone Hno) as Hprompt.
    destruct (eval_leaves_no_listener isRecoverableError opts host input w
                Hstart Hf Hdone) as (Hf' & _).
    destruct (eval_settled isRecoverableError opts host input w Hstart Hdone)
      as (_ & Hticks & _).
    destruct (eval_reports_once isRecoverableError opts host input w
                Hstart Hdone) as (status & _ & _ & Hfin & _).
    assert (Htick' :
      nextTick (snd (AsyncRepl.eval isRecoverableError opts host input w))
        = []
      \/ nextTick (snd (AsyncRepl.eval isRecoverableError opts host input w))
         = [EmitExit]).
    { rewrite Hticks. unfold settlement.
      destruct (awaiting_racing opts host input w Hf)
        as (Hracing & _ & _ & Ht0 & _).
      destruct (race_racing (during host) _ Hracing) as (_ & Hev & _).
      rewrite (evolves_ticks _ _ Hev), Ht0, Ht.
      destruct (exitEventPending _); auto. }
    destruct (AsyncRepl.eval isRecoverableError opts host input w)
      as [[[]|e|] w1]; cbn [fst snd] in *; try (now elim Hdone);
      destruct (run_ticks_fields w1 Htick' Hf') as (Hf2 & Ht2 & Hp2 & Hfin2);
      destruct (IH (run_ticks w1) Hrest Hf2 Ht2) as (H1 & H2 & H3 & H4);
      (split; [assumption|]); (split; [assumption|]);
      (split; [congruence|]);
      rewrite H4, Hfin2, Hfin, length_app; simpl; lia.
Qed.

End Turns.

End ReplFacts.

Module ReplSamples.

Import AsyncRepl.

(** Options without an interrupt handler. *)
Definition plain : AsyncREPLOptions :=
  {| wrapCallbackError := None; onAsyncSigint := false |}.

(** Signals on both emitters, twice each, before the handler gives up. *)
Definition stormy : list Action :=
  [Signal ReplSIGINT; Signal ReplSIGINT; Signal ProcessSIGINT;
   Signal ProcessSIGINT; Signal ReplExit; SigintHandled (Resolves false);
   EvalSettles (Resolved (Opaque 7))].

(** A host whose [asyncEval] throws. *)
Definition broken : Host :=
  {| evalStart_throws := None; asyncEval_throws := Some (Opaque 3);
     during := stormy; evalFinish_throws := None;
     callback_throws := fun _ _ => None |}.

(** A host whose callback throws on a result. *)
Definition fussy : Host :=
  {| evalStart_throws := None; asyncEval_throws := None;
     during := [EvalSettles (Resolved (Opaque 7))];
     evalFinish_throws := None;
     callback_throws :=
       fun _ result =>
         match result with Some _ => Some (Opaque 8) | None => None end |}.

Definition run_plain (h : Host) (input : string)
  : outcome Value unit * World :=
  eval ReplExamples.isRecoverableError plain h input ReplExamples.console.

End ReplSamples.

Lemma sigint_listeners_restored_witness :
  AsyncRepl.repl_SIGINT
    (snd (ReplExamples.run (ReplExamples.quiet ReplSamples.stormy) "1+1")) =
  [ReplExamples.keep 1]
  /\ AsyncRepl.process_SIGINT
       (snd (ReplExamples.run (ReplExamples.quiet ReplSamples.stormy)
               "1+1")) =
     [ReplExamples.keep 3].
Proof.
  apply (ReplFacts.sigint_listeners_restored ReplExamples.isRecoverableError
           ReplExamples.interruptible
           (ReplExamples.quiet ReplSamples.stormy) "1+1"
           ReplExamples.console).
  - reflexivity.
  - reflexivity.
  - repeat split.
  - vm_compute. discriminate.
Defined.

Lemma own_sigint_listeners_silenced_witness :
  ReplFacts.sigint_calls
    (AsyncRepl.observed
       (snd (ReplExamples.run (ReplExamples.quiet ReplSamples.stormy)
               "1+1"))) = []
  /\ ReplFacts.handler_calls
       (AsyncRepl.observed
          (snd (ReplExamples.run (ReplExamples.quiet ReplSamples.stormy)
                  "1+1"))) <= 2.
Proof.
  apply (ReplFacts.own_sigint_listeners_silenced
           ReplExamples.isRecoverableError ReplExamples.interruptible
           (ReplExamples.quiet ReplSamples.stormy) "1+1"
           ReplExamples.console).
  - reflexivity.
  - reflexivity.
  - repeat split.
Defined.

(** Without a handler the same signals reach the console's own listeners
    and the evaluation returns its result. *)
Example signals_without_handler :
  AsyncRepl.observed
    (snd (ReplSamples.run_plain (ReplExamples.quiet ReplSamples.stormy)
            "1+1")) =
  [AsyncRepl.EvalStart "1+1"; AsyncRepl.AsyncEval "1+1";
   AsyncRepl.Called AsyncRepl.ReplSIGINT 1;
   AsyncRepl.Called AsyncRepl.ReplSIGINT 1;
   AsyncRepl.Called AsyncRepl.ProcessSIGINT 3;
   AsyncRepl.Called AsyncRepl.ProcessSIGINT 3;
   AsyncRepl.EvalFinish "1+1" AsyncRepl.Success;
   AsyncRepl.Callback AsyncRepl.Null (Some (AsyncRepl.Opaque 7))].
Proof. vm_compute. reflexivity. Qed.

Lemma no_handler_no_cancellation_witness :
  fst (AsyncRepl.race ReplSamples.stormy
         (AsyncRepl.awaiting ReplSamples.plain
            (ReplExamples.quiet ReplSamples.stormy) "1+1"
            ReplExamples.console)) =
  Fulfilled (AsyncRepl.Opaque 7)
  /\ AsyncRepl.callbacks
       (AsyncRepl.observed
          (snd (ReplSamples.run_plain
                  (ReplExamples.quiet ReplSamples.stormy) "1+1"))) =
     [(AsyncRepl.Null, Some (AsyncRepl.Opaque 7))].
Proof.
  apply (ReplFacts.no_handler_no_cancellation
           ReplExamples.isRecoverableError ReplSamples.plain
           (ReplExamples.quiet ReplSamples.stormy) "1+1"
           ReplExamples.console).
  - reflexivity.
  - reflexivity.
  - reflexivity.
  - repeat split.
Defined.

Lemma success_reported_witness :
  fst (ReplExamples.run ReplSamples.fussy "1+1") <> Pending
  /\ AsyncRepl.observed (snd (ReplExamples.run ReplSamples.fussy "1+1")) =
     [AsyncRepl.EvalStart "1+1"; AsyncRepl.AsyncEval "1+1";
      AsyncRepl.EvalFinish "1+1" AsyncRepl.Success;
      AsyncRepl.Callback AsyncRepl.Null (Some (AsyncRepl.Opaque 7));
      AsyncRepl.Callback (AsyncRepl.Opaque 8) None].
Proof.
  apply (ReplFacts.success_reported ReplExamples.isRecoverableError
           ReplExamples.interruptible ReplSamples.fussy "1+1"
           ReplExamples.console
           (snd (AsyncRepl.race
                   [AsyncRepl.EvalSettles
                      (AsyncRepl.Resolved (AsyncRepl.Opaque 7))]
                   (AsyncRepl.awaiting ReplExamples.interruptible
                      ReplSamples.fussy "1+1" ReplExamples.console)))
           (AsyncRepl.Opaque 7)).
  - reflexivity.
  - vm_compute. reflexivity.
Defined.

Lemma asyncEval_throw_reported_witness :
  fst (ReplExamples.run ReplSamples.broken "1+1") <> Pending
  /\ AsyncRepl.observed (snd (ReplExamples.run ReplSamples.broken "1+1")) =
     [AsyncRepl.EvalStart "1+1"; AsyncRepl.AsyncEval "1+1";
      AsyncRepl.EvalFinish "1+1"
        (AsyncRepl.Failure (AsyncRepl.Opaque 3) false);
      AsyncRepl.Callback (AsyncRepl.Opaque 3) None]
  /\ AsyncRepl.process_SIGINT
       (AsyncRepl.awaiting ReplExamples.interruptible ReplSamples.broken
          "1+1" ReplExamples.console) = [].
Proof.
  apply (ReplFacts.asyncEval_throw_reported ReplExamples.isRecoverableError
           ReplExamples.interruptible ReplSamples.broken "1+1"
           ReplExamples.console (AsyncRepl.Opaque 3)).
  - reflexivity.
  - reflexivity.
Defined.

Lemma callback_always_called_witness :
  exists status cb rest,
    ReplFacts.finish_events
      (AsyncRepl.observed (snd (ReplExamples.run ReplSamples.fussy "1+1"))) =
    [] ++ [status]
    /\ AsyncRepl.callbacks
         (AsyncRepl.observed (snd (ReplExamples.run ReplSamples.fussy "1+1")))
       = [] ++ cb :: rest
    /\ length rest <= 1
    /\ fst (ReplExamples.run ReplSamples.fussy "1+1") =
       match
         AsyncRepl.callback_throws ReplSamples.fussy (fst (last rest cb))
           (snd (last rest cb))
       with
       | Some thrown => Thrown thrown
       | None => Fulfilled tt
       end.
Proof.
  apply (ReplFacts.callback_always_called ReplExamples.isRecoverableError
           ReplExamples.interruptible ReplSamples.fussy "1+1"
           ReplExamples.console).
  - reflexivity.
  - vm_compute. discriminate.
Defined.

Lemma no_listener_left_behind_witness :
  let w' :=
    snd (ReplSamples.run_plain (ReplExamples.quiet ReplSamples.stormy)
           "1+1") in
  AsyncRepl.foreign_only w'
  /\ AsyncRepl.repl_exit w' = [ReplExamples.keep 2]
  /\ incl (AsyncRepl.repl_SIGINT w') [ReplExamples.keep 1]
  /\ incl (AsyncRepl.process_SIGINT w') [ReplExamples.keep 3].
Proof.
  apply (ReplFacts.no_listener_left_behind ReplExamples.isRecoverableError
           ReplSamples.plain (ReplExamples.quiet ReplSamples.stormy) "1+1"
           ReplExamples.console).
  - reflexivity.
  - repeat split.
  - vm_compute. discriminate.
Defined.

Lemma console_ready_after_turns_witness :
  let w' :=
    ReplFacts.turns ReplExamples.isRecoverableError
      ReplExamples.interruptible
      [(ReplExamples.quiet ReplSamples.stormy, "1+1");
       (ReplSamples.fussy, "2+2")]
      ReplExamples.console in
  AsyncRepl.foreign_only w'
  /\ AsyncRepl.nextTick w' = []
  /\ AsyncRepl.prompt w' = "> "
  /\ length (ReplFacts.finish_events (AsyncRepl.observed w')) = 2.
Proof.
  apply (ReplFacts.console_ready_after_turns ReplExamples.isRecoverableError
           ReplExamples.interruptible
           [(ReplExamples.quiet ReplSamples.stormy, "1+1");
            (ReplSamples.fussy, "2+2")]
           ReplExamples.console).
  - repeat constructor; simpl.
    + exists (AsyncRepl.Resolved (AsyncRepl.Opaque 7)). simpl. tauto.
    + intros q H. repeat (destruct H as [H|H]; [discriminate|]). exact H.
    + exists (AsyncRepl.Resolved (AsyncRepl.Opaque 7)). simpl. tauto.
    + intros q H. repeat (destruct H as [H|H]; [discriminate|]). exact H.
  - repeat split.
  - reflexivity.
Defined.

(** ** [wrapNoSyncDomainError] (async-repl) *)

Module NoSyncDomainError.

Import AsyncRepl.

(** What [Domain.prototype.emit] holds: the function of Node.js, or the
    function [wrapNoSyncDomainError] puts there, which closes over the one
    it replaced. *)
Inductive Emit : Type :=
| NativeEmit
| PatchedEmit (origEmit : Emit).

(** The slot [Domain.prototype.emit], whether the active domain is
    entered, and the events that reached the function of Node.js. *)
Record Domains : Type := {
  emit_slot : Emit;
  entered : bool;
  delivered : list (string * Value)
}.

Definition set_emit (f : Emit) (d : Domains) : Domains :=
  {| emit_slot := f; entered := entered d; delivered := delivered d |}.

(** [this.exit()] *)
Definition exit (d : Domains) : Domains :=
  {| emit_slot := emit_slot d; entered := false; delivered := delivered d |}.

Definition deliver (ev : string) (arg : Value) (d : Domains) : Domains :=
  {| emit_slot := emit_slot d; entered := entered d;
     delivered := delivered d ++ [(ev, arg)] |}.

Local Open Scope js_scope.

(** Calling an emit function on the domain with an event and its first
    argument.  The patched function throws the argument of an ['error']
    event after leaving the domain, and hands any other event to the
    function it replaced. *)
Fixpoint call_emit (f : Emit) (ev : string) (arg : Value)
  : M Domains Value bool :=
  match f with
  | NativeEmit => modify (deliver ev arg) ;; ret true
  | PatchedEmit origEmit =>
      if String.eqb ev "error"
      then modify exit ;; throw arg
      else call_emit origEmit ev arg
  end.

(** [process.domain.emit(ev, arg)]: through whatever the slot holds. *)
Definition domain_emit (ev : string) (arg : Value) : M Domains Value bool :=
  f <- gets emit_slot ;;
  call_emit f ev arg.

(** [wrapNoSyncDomainError(fn)(...args)], for the call [fn(...args)]. *)
Definition wrapNoSyncDomainError {A : Type} (fn : M Domains Value A)
  : M Domains Value A :=
  origEmit <- gets emit_slot ;;
  modify (set_emit (PatchedEmit origEmit)) ;;
  try_finally fn (modify (set_emit origEmit)).

(** X10. Whatever the wrapped function does, and however it ends,
    [Domain.prototype.emit] holds afterwards what it held before the call;
    the call ends as the function does under the patched emit. *)
Theorem emit_restored {A : Type} (fn : M Domains Value A) (d : Domains) :
  fst (fn (set_emit (PatchedEmit (emit_slot d)) d)) <> Pending ->
  emit_slot (snd (wrapNoSyncDomainError fn d)) = emit_slot d
  /\ fst (wrapNoSyncDomainError fn d) =
     fst (fn (set_emit (PatchedEmit (emit_slot d)) d))
  /\ entered (snd (wrapNoSyncDomainError fn d)) =
     entered (snd (fn (set_emit (PatchedEmit (emit_slot d)) d)))
  /\ delivered (snd (wrapNoSyncDomainError fn d)) =
     delivered (snd (fn (set_emit (PatchedEmit (emit_slot d)) d))).
Proof.
  unfold wrapNoSyncDomainError, bind, gets, modify, try_finally. simpl.
  destruct (fn (set_emit (PatchedEmit (emit_slot d)) d)) as [[a|e|] d'];
    simpl; intros H; auto. now elim H.
Qed.



End NoSyncDomainError.

Example error_event_outside_wrapper :
  NoSyncDomainError.domain_emit "error" (AsyncRepl.Opaque 1)
    {| NoSyncDomainError.emit_slot := NoSyncDomainError.NativeEmit;
       NoSyncDomainError.entered := true;
       NoSyncDomainError.delivered := [] |} =
  (Fulfilled true,
   {| NoSyncDomainError.emit_slot := NoSyncDomainError.NativeEmit;
      NoSyncDomainError.entered := true;
      NoSyncDomainError.delivered := [("error", AsyncRepl.Opaque 1)] |}).
Proof. reflexivity. Qed.

Lemma emit_restored_witness :
  let d := {| NoSyncDomainError.emit_slot := NoSyncDomainError.NativeEmit;
              NoSyncDomainError.entered := true;
              NoSyncDomainError.delivered := [] |} in
  let fn :=
    bind (NoSyncDomainError.domain_emit "drain" (AsyncRepl.Opaque 1))
      (fun _ => modify (NoSyncDomainError.set_emit
                          (NoSyncDomainError.PatchedEmit
                             NoSyncDomainError.NativeEmit))) in
  NoSyncDomainError.emit_slot
    (snd (NoSyncDomainError.wrapNoSyncDomainError fn d)) =
  NoSyncDomainError.NativeEmit
  /\ fst (NoSyncDomainError.wrapNoSyncDomainError fn d) = Fulfilled tt
  /\ NoSyncDomainError.entered
       (snd (NoSyncDomainError.wrapNoSyncDomainError fn d)) = true
  /\ NoSyncDomainError.delivered
       (snd (NoSyncDomainError.wrapNoSyncDomainError fn d)) =
     [("drain", AsyncRepl.Opaque 1)].
Proof.
  apply (NoSyncDomainError.emit_restored
           (bind (NoSyncDomainError.domain_emit "drain" (AsyncRepl.Opaque 1))
              (fun _ => modify (NoSyncDomainError.set_emit
                                  (NoSyncDomainError.PatchedEmit
                                     NoSyncDomainError.NativeEmit))))
           {| NoSyncDomainError.emit_slot := NoSyncDomainError.NativeEmit;
              NoSyncDomainError.entered := true;
              NoSyncDomainError.delivered := [] |}).
  vm_compute. discriminate.
Defined.


(** ** More about the strings *)

Module JSFacts.

Import JS.

(** White space only. *)
Fixpoint blank (s : string) : bool :=
  match s with
  | EmptyString => true
  | String c s' => isWhiteSpace c && blank s'
  end.

(** Some code unit is white space. *)
Fixpoint has_white_space (s : string) : bool :=
  match s with
  | EmptyString => false
  | String c s' => isWhiteSpace c || has_white_space s'
  end.

(** Whether reading [s] ends inside a separator, [b] telling whether it
    started in one. *)
Fixpoint ends_in_separator (b : bool) (s : string) : bool :=
  match s with
  | EmptyString => b
  | String c s' => ends_in_separator (isWhiteSpace c) s'
  end.

Lemma append_nil_r (s : string) : (s ++ EmptyString)%string = s.
Proof. induction s as [|c s IH]; simpl; [reflexivity | now rewrite IH]. Qed.

Lemma append_assoc (a b c : string) :
  ((a ++ b) ++ c)%string = (a ++ (b ++ c))%string.
Proof. induction a as [|x a IH]; simpl; [reflexivity | now rewrite IH]. Qed.

Lemma trimStart_blank (s : string) : blank s = true -> trimStart s = EmptyString.
Proof.
  induction s as [|c s IH]; simpl; [reflexivity|].
  intros H. apply andb_true_iff in H as [Hc Hs]. rewrite Hc. auto.
Qed.

Lemma trimStart_pad (pre s : string) :
  blank pre = true -> trimStart (pre ++ s) = trimStart s.
Proof.
  induction pre as [|c pre IH]; simpl; [reflexivity|].
  intros H. apply andb_true_iff in H as [Hc Hs]. rewrite Hc. auto.
Qed.

Lemma trimEnd_blank (s : string) : blank s = true -> trimEnd s = EmptyString.
Proof.
  induction s as [|c s IH]; simpl; [reflexivity|].
  intros H. apply andb_true_iff in H as [Hc Hs].
  rewrite (IH Hs), Hc. reflexivity.
Qed.

Lemma trimEnd_pad (s post : string) :
  blank post = true -> trimEnd (s ++ post) = trimEnd s.
Proof.
  intros H. induction s as [|c s IH]; simpl.
  - now apply trimEnd_blank.
  - now rewrite IH.
Qed.

Lemma trim_pad_end (s post : string) :
  blank post = true -> trim (s ++ post) = trim s.
Proof.
  intros H. unfold trim. induction s as [|c s IH]; simpl.
  - rewrite (trimStart_blank _ H). reflexivity.
  - destruct (isWhiteSpace c); [exact IH|].
    change (String c (s ++ post)) with (String c s ++ post)%string.
    now apply trimEnd_pad.
Qed.

(** [trim] does not see white space around its argument. *)
Lemma trim_pad (pre s post : string) :
  blank pre = true -> blank post = true ->
  trim (pre ++ s ++ post) = trim s.
Proof.
  intros Hpre Hpost.
  transitivity (trim (s ++ post)); [|now apply trim_pad_end].
  unfold trim. now rewrite trimStart_pad.
Qed.

Lemma has_white_space_app (a b : string) :
  has_white_space (a ++ b) = has_white_space a || has_white_space b.
Proof.
  induction a as [|c a IH]; simpl; [reflexivity|].
  now rewrite IH, orb_assoc.
Qed.

Lemma split_go_no_white_space (inSep : bool) (cur s : string) :
  has_white_space cur = false ->
  Forall (fun piece => has_white_space piece = false) (split_go inSep cur s).
Proof.
  revert inSep cur. induction s as [|c s IH]; intros inSep cur Hcur; simpl.
  - repeat constructor. assumption.
  - destruct (isWhiteSpace c) eqn:Hc.
    + destruct inSep; [now apply IH|].
      constructor; [assumption|]. now apply IH.
    + apply IH. rewrite has_white_space_app. simpl. now rewrite Hcur, Hc.
Qed.

Lemma split_go_blank (cur s : string) :
  blank s = true -> split_go true cur s = [cur].
Proof.
  induction s as [|c s IH]; simpl; [reflexivity|].
  intros H. apply andb_true_iff in H as [Hc Hs]. rewrite Hc. auto.
Qed.

(** White space at the end of the text gives one more, empty, piece,
    unless the text ends in a separator already. *)
Lemma split_go_pad_end (inSep : bool) (cur s : string) (c : ascii)
    (ws : string) :
  isWhiteSpace c = true -> blank ws = true ->
  split_go inSep cur (s ++ String c ws) =
  split_go inSep cur s
  ++ (if ends_in_separator inSep s then [] else [EmptyString]).
Proof.
  intros Hc Hws. revert inSep cur.
  induction s as [|x s IH]; intros inSep cur; simpl.
  - rewrite Hc. destruct inSep.
    + now rewrite split_go_blank.
    + now rewrite split_go_blank.
  - destruct (isWhiteSpace x); [destruct inSep|]; simpl; now rewrite IH.
Qed.

Lemma trimEnd_length (s : string) : String.length (trimEnd s) <= String.length s.
Proof.
  induction s as [|c s IH]; simpl; [lia|].
  destruct (isWhiteSpace c && isEmpty (trimEnd s)); simpl; lia.
Qed.

Lemma trimStart_length (s : string) :
  String.length (trimStart s) <= String.length s.
Proof.
  induction s as [|c s IH]; simpl; [lia|].
  destruct (isWhiteSpace c); simpl; lia.
Qed.

(** A trimmed text does not start with white space. *)
Lemma trimmed_start (c : ascii) (s : string) :
  trim (String c s) = String c s -> isWhiteSpace c = false.
Proof.
  unfold trim. simpl. destruct (isWhiteSpace c); [|reflexivity].
  intros H.
  pose proof (trimEnd_length (trimStart s)) as H1.
  pose proof (trimStart_length s) as H2.
  rewrite H in H1. simpl in H1. lia.
Qed.

Lemma trimmed_end (s : string) :
  trimEnd s = s -> isEmpty s = false -> forall b, ends_in_separator b s = false.
Proof.
  induction s as [|c s IH]; simpl; [discriminate|].
  intros H _ b.
  destruct (isWhiteSpace c && isEmpty (trimEnd s)) eqn:Hc; [discriminate|].
  injection H as H.
  destruct s as [|x s]; simpl in *.
  - now rewrite andb_true_r in Hc.
  - apply IH; auto.
Qed.

Lemma trimEnd_semicolon (s : string) :
  trimEnd (s ++ ";") = (s ++ ";")%string.
Proof.
  induction s as [|c s IH]; simpl; [reflexivity|].
  rewrite IH. destruct s; simpl; now rewrite andb_false_r.
Qed.

Lemma replace_semicolon_appended (s : string) :
  replace_semicolon_at_end (s ++ ";") = s.
Proof.
  induction s as [|c s IH]; simpl; [reflexivity|].
  rewrite IH. destruct s; reflexivity.
Qed.

End JSFacts.

(** ** More about the evaluator (shell-evaluator.ts) *)

Module EvaluatorFacts.

Import ShellEvaluator.

Section Evaluator.

Variable Val : Type.
Variable Ctx : Type.
Variable Res : Type.
Variable shellApi : string -> option (ShellApiMember Val).
Variable asyncWriter_process : string -> outcome Val string.
Variable asyncWriter_runtimeSupportCode : string.
Variable hiddenCommands_test : string -> bool.
Variable redactSensitiveData : string -> string.
Variable transformError : Val -> Val.
Variable resultHandler : Val -> outcome Val Res.
Variable faults : Faults Val.

Local Abbreviation direct_command := (direct_command Val shellApi).
Local Abbreviation innerEval :=
  (innerEval Val Ctx shellApi asyncWriter_process
     asyncWriter_runtimeSupportCode hiddenCommands_test redactSensitiveData
     transformError faults).
Local Abbreviation customEval :=
  (customEval Val Ctx Res shellApi asyncWriter_process
     asyncWriter_runtimeSupportCode hiddenCommands_test redactSensitiveData
     transformError resultHandler faults).
Local Abbreviation session :=
  (session Val Ctx Res shellApi asyncWriter_process
     asyncWriter_runtimeSupportCode hiddenCommands_test redactSensitiveData
     transformError resultHandler faults).
Local Abbreviation run_call :=
  (run_call Val Ctx Res shellApi asyncWriter_process
     asyncWriter_runtimeSupportCode hiddenCommands_test redactSensitiveData
     transformError resultHandler faults).
Local Abbreviation announcement :=
  (announcement Val Ctx hiddenCommands_test redactSensitiveData faults).
Local Abbreviation prelude :=
  (prelude Val Ctx hiddenCommands_test redactSensitiveData faults).
Local Abbreviation reaches :=
  (reaches Val Ctx shellApi asyncWriter_process hiddenCommands_test
     redactSensitiveData faults).
Local Abbreviation stopped_effects :=
  (stopped_effects Val Ctx shellApi asyncWriter_process hiddenCommands_test
     redactSensitiveData faults).
Local Abbreviation injection :=
  (injection Val Ctx asyncWriter_runtimeSupportCode faults).
Local Abbreviation injection_fault :=
  (injection_fault Val asyncWriter_runtimeSupportCode faults).
Local Abbreviation evaluation :=
  (evaluation Val Ctx asyncWriter_runtimeSupportCode faults).
Local Abbreviation evaluated_text :=
  (evaluated_text asyncWriter_runtimeSupportCode).

(** What an input that is no direct command may add to the effects. *)
Definition evaluation_effect (input : string) (x : Effect Ctx) : Prop :=
  match x with
  | CalledShellCommand _ _ => False
  | EmittedEvaluateInput payload =>
      payload = redactSensitiveData (JS.trim input)
      /\ hiddenCommands_test input = false
      /\ exists r, asyncWriter_process input = Fulfilled r
                   /\ hiddenCommands_test r = false
  | _ => True
  end.

Lemma argv_of_no_white_space (input : string) :
  Forall (fun piece => JSFacts.has_white_space piece = false) (argv_of input).
Proof. now apply JSFacts.split_go_no_white_space. Qed.

Lemma direct_command_inv (input cmd : string) (m : ShellApiMember Val)
    (argv : list string) :
  direct_command input = Some (cmd, m, argv) ->
  argv_of input = cmd :: argv
  /\ shellApi cmd = Some m
  /\ isDirectShellCommand Val m = true
  /\ JS.startsWith "(" (hd EmptyString argv) = false.
Proof.
  unfold ShellEvaluator.direct_command.
  destruct (argv_of input) as [|c rest] eqn:Hargv.
  - now destruct (argv_of_not_nil input).
  - simpl. destruct (shellApi c) as [m'|] eqn:Hm; [|discriminate].
    destruct (isDirectShellCommand Val m') eqn:Hd; [|discriminate].
    destruct (JS.startsWith "(" (hd EmptyString rest)) eqn:Hp;
      [discriminate|].
    simpl. intros [= <- <- <-]. auto.
Qed.

Lemma prelude_evaluation (input r : string) :
  asyncWriter_process input = Fulfilled r ->
  Forall (evaluation_effect input) (prelude input r).
Proof.
  intros Hp. unfold ShellEvaluator.prelude, ShellEvaluator.announcement.
  constructor; [exact I|].
  destruct (negb (hiddenCommands_test input)
            && negb (hiddenCommands_test r)) eqn:Hh; [|constructor].
  apply andb_true_iff in Hh as [H1 H2].
  apply negb_true_iff in H1, H2.
  destruct (redactSensitiveData_throws Val faults (JS.trim input));
    constructor; [|constructor].
  simpl. eauto.
Qed.

Lemma evaluation_evaluation (input : string) (applied : bool) (r : string)
    (context : Ctx) (filename : string) :
  Forall (evaluation_effect input) (evaluation applied r context filename).
Proof.
  unfold ShellEvaluator.evaluation, ShellEvaluator.injection.
  destruct applied; [repeat constructor|].
  destruct (runtimeSupportCode_throws Val faults); [constructor|].
  destruct (eval_throws Val faults asyncWriter_runtimeSupportCode);
    repeat constructor.
Qed.

(** The effects one call adds. *)
Lemma innerEval_effects (originalEval : EvaluationFunction Val Ctx)
    (input : string) (context : Ctx) (filename : string)
    (e : Evaluator Ctx) :
  exists added,
    effects (snd (innerEval originalEval input context filename e)) =
    effects e ++ added
    /\ match direct_command input with
       | Some (cmd, _, argv) => added = [CalledShellCommand cmd argv]
       | None => Forall (evaluation_effect input) added
       end.
Proof.
  rewrite innerEval_state.
  unfold ShellEvaluator.reaches, ShellEvaluator.stopped_effects.
  destruct (direct_command input) as [[[cmd m] argv]|] eqn:Hd.
  - eexists. split; reflexivity.
  - destruct (asyncWriter_process input) as [r|err|] eqn:Hp.
    + destruct (snd (announcement input r)).
      * eexists. split; [reflexivity|]. now apply prelude_evaluation.
      * eexists. split; [reflexivity|]. apply Forall_app. split.
        -- now apply prelude_evaluation.
        -- apply evaluation_evaluation.
    + eexists. split; [reflexivity|]. repeat constructor.
    + eexists. split; [reflexivity|]. repeat constructor.
Qed.

(** X12. [innerEval] calls a shell API member only as a direct command:
    a call it adds to the effects is that of a member marked
    [isDirectShellCommand], named by the first token of the input, with
    the remaining tokens as arguments; the first argument does not start
    with an opening parenthesis and no token contains white space. *)
Theorem shell_command_only_when_direct
    (originalEval : EvaluationFunction Val Ctx)
    (input : string) (context : Ctx) (filename : string)
    (e : Evaluator Ctx) (cmd : string) (argv : list string) :
  In (CalledShellCommand cmd argv)
     (effects (snd (innerEval originalEval input context filename e))) ->
  In (CalledShellCommand cmd argv) (effects e)
  \/ (exists m,
        shellApi cmd = Some m
        /\ isDirectShellCommand Val m = true
        /\ argv_of input = cmd :: argv
        /\ JS.startsWith "(" (hd EmptyString argv) = false
        /\ Forall (fun piece => JSFacts.has_white_space piece = false)
             (cmd :: argv)).
Proof.
  intros Hin.
  destruct (innerEval_effects originalEval input context filename e)
    as (added & Heff & Hadded).
  rewrite Heff in Hin. apply in_app_or in Hin as [Hin|Hin]; [now left|].
  right.
  destruct (direct_command input) as [[[cmd' m] argv']|] eqn:Hd.
  - subst added. destruct Hin as [[= <- <-]|[]].
    destruct (direct_command_inv _ _ _ _ Hd) as (Hargv & Hm & Hdirect & Hp).
    exists m. repeat (split; [assumption|]).
    rewrite <- Hargv. apply argv_of_no_white_space.
  - rewrite Forall_forall in Hadded. destruct (Hadded _ Hin).
Qed.

(** X13. White space around the input does not change what [innerEval]
    reads from it: the tokens, the direct command found, and the text
    sent on the message bus are those of the input without it. *)
Theorem surrounding_white_space_ignored (pre input post : string) :
  JSFacts.blank pre = true ->
  JSFacts.blank post = true ->
  argv_of (pre ++ input ++ post) = argv_of input
  /\ direct_command (pre ++ input ++ post) = direct_command input
  /\ redactSensitiveData (JS.trim (pre ++ input ++ post)) =
     redactSensitiveData (JS.trim input).
Proof.
  intros Hpre Hpost.
  assert (Hargv : argv_of (pre ++ input ++ post) = argv_of input).
  { unfold argv_of. now rewrite JSFacts.trim_pad. }
  split; [assumption|]. split.
  - unfold ShellEvaluator.direct_command. now rewrite Hargv.
  - now rewrite JSFacts.trim_pad.
Qed.

(** X14. One semicolon at the end of the input is not part of the last
    token; white space between the last token and that semicolon leaves
    an empty string as an additional last token. *)
Theorem trailing_semicolon (input : string) (c : ascii) (ws : string) :
  JS.trim input = input ->
  JS.replace_semicolon_at_end input = input ->
  JS.isEmpty input = false ->
  JS.isWhiteSpace c = true ->
  JSFacts.blank ws = true ->
  argv_of (input ++ ";") = argv_of input
  /\ argv_of (input ++ String c ws ++ ";") =
     argv_of input ++ [EmptyString].
Proof.
  intros Htrim Hsemi Hne Hc Hws.
  destruct input as [|x s]; [discriminate|].
  pose proof (JSFacts.trimmed_start _ _ Htrim) as Hx.
  assert (Hend : JS.trimEnd (String x s) = String x s).
  { unfold JS.trim in Htrim. simpl in Htrim. now rewrite Hx in Htrim. }
  assert (Hkeep : forall t, JS.trim (String x s ++ t ++ ";")
                            = (String x s ++ t ++ ";")%string).
  { intros t. unfold JS.trim. simpl. rewrite Hx.
    change (String x (s ++ t ++ ";")) with (String x s ++ (t ++ ";"))%string.
    rewrite <- JSFacts.append_assoc.
    apply JSFacts.trimEnd_semicolon. }
  unfold argv_of. split.
  - pose proof (Hkeep EmptyString) as Hkeep0.
    change (EmptyString ++ ";")%string with ";" in Hkeep0.
    rewrite Hkeep0, Htrim, Hsemi.
    now rewrite JSFacts.replace_semicolon_appended.
  - rewrite (Hkeep (String c ws)), Htrim, Hsemi.
    rewrite <- JSFacts.append_assoc.
    rewrite JSFacts.replace_semicolon_appended.
    unfold JS.split_whitespace.
    rewrite (JSFacts.split_go_pad_end _ _ _ _ _ Hc Hws).
    now rewrite (JSFacts.trimmed_end _ Hend Hne).
Qed.

Lemma added_effects (e : Evaluator Ctx) (added : list (Effect Ctx))
    (flag : bool) :
  skipn (length (effects e))
    (effects {| hasAppliedAsyncWriterRuntimeSupport := flag;
                effects := effects e ++ added |}) = added.
Proof. simpl. now rewrite skipn_app, skipn_all, Nat.sub_diag. Qed.

Lemma announcement_fault (input r : string) (err : Val) :
  snd (announcement input r) = Some err ->
  hiddenCommands_test input = false
  /\ hiddenCommands_test r = false
  /\ (redactSensitiveData_throws Val faults (JS.trim input) = Some err
      \/ (redactSensitiveData_throws Val faults (JS.trim input) = None
          /\ emit_throws Val faults (redactSensitiveData (JS.trim input))
             = Some err)).
Proof.
  unfold ShellEvaluator.announcement.
  destruct (negb (hiddenCommands_test input)
            && negb (hiddenCommands_test r)) eqn:Hh; [|discriminate].
  apply andb_true_iff in Hh as [H1 H2].
  apply negb_true_iff in H1, H2.
  destruct (redactSensitiveData_throws Val faults (JS.trim input));
    simpl; intros H; auto.
Qed.

Lemma injection_fault_inv (err : Val) :
  injection_fault = Some err ->
  runtimeSupportCode_throws Val faults = Some err
  \/ (runtimeSupportCode_throws Val faults = None
      /\ eval_throws Val faults asyncWriter_runtimeSupportCode = Some err).
Proof.
  unfold ShellEvaluator.injection_fault.
  destruct (runtimeSupportCode_throws Val faults); auto.
Qed.

Lemma prelude_no_original_eval (input r : string) :
  Forall (fun x => is_original_eval Ctx x = false) (prelude input r).
Proof.
  eapply Forall_impl; [|apply prelude_no_eval]. now intros x [_ H].
Qed.

(** X15. Where a rejection of [innerEval] comes from.  Either
    [originalEval] was called and threw: the rejection is then what
    [transformError] returns for that error, or what [transformError]
    itself throws.  Or [originalEval] was not called and the rejection is
    an error as it was thrown: by the member called as a direct command;
    by the rewriter; by the redaction or a listener of
    [mongosh:evaluate-input] when the input is announced; or, with the
    flag clear, by producing the support code or evaluating it in the
    evaluator's own realm. *)
Theorem rejection_sources (originalEval : EvaluationFunction Val Ctx)
    (input : string) (context : Ctx) (filename : string)
    (e : Evaluator Ctx) (err : Val) :
  fst (innerEval originalEval input context filename e) = Thrown err ->
  let applied := hasAppliedAsyncWriterRuntimeSupport e in
  let added :=
    skipn (length (effects e))
      (effects (snd (innerEval originalEval input context filename e))) in
  (exists r cause,
     reaches input = Some r
     /\ (applied = false -> injection_fault = None)
     /\ originalEval (evaluated_text applied r) context filename
        = Thrown cause
     /\ err = match transformError_throws Val faults cause with
              | Some err' => err'
              | None => transformError cause
              end
     /\ In (CalledOriginalEval (evaluated_text applied r) context filename)
          added)
  \/ (Forall (fun x => is_original_eval Ctx x = false) added
      /\ ((exists cmd m argv,
             direct_command input = Some (cmd, m, argv)
             /\ invoke Val m argv = Thrown err
             /\ added = [CalledShellCommand cmd argv])
          \/ (direct_command input = None
              /\ asyncWriter_process input = Thrown err
              /\ added = [CalledProcess input])
          \/ (exists r,
                direct_command input = None
                /\ asyncWriter_process input = Fulfilled r
                /\ hiddenCommands_test input = false
                /\ hiddenCommands_test r = false
                /\ (redactSensitiveData_throws Val faults (JS.trim input)
                    = Some err
                    \/ (redactSensitiveData_throws Val faults
                          (JS.trim input) = None
                        /\ emit_throws Val faults
                             (redactSensitiveData (JS.trim input))
                           = Some err))
                /\ added = prelude input r)
          \/ (exists r,
                reaches input = Some r
                /\ applied = false
                /\ (runtimeSupportCode_throws Val faults = Some err
                    \/ (runtimeSupportCode_throws Val faults = None
                        /\ eval_throws Val faults
                             asyncWriter_runtimeSupportCode = Some err))
                /\ added = prelude input r ++ injection r context filename))).
Proof.
  intros Hthrown applied added. subst applied added.
  unfold ShellEvaluator.reaches.
  destruct (direct_command input) as [[[cmd m] argv]|] eqn:Hd.
  - right.
    rewrite (innerEval_direct _ _ _ _ _ _ _ _ faults originalEval _ context
               filename e _ _ _ Hd) in *.
    cbn [fst snd] in *. unfold perform. rewrite added_effects.
    split; [repeat constructor|].
    left. exists cmd, m, argv. auto.
  - rewrite (innerEval_run _ _ _ _ _ _ _ _ faults originalEval _ context
               filename e Hd) in *.
    destruct (asyncWriter_process input) as [r|err'|] eqn:Hp.
    + destruct (snd (announcement input r)) as [err'|] eqn:Ha.
      * right. cbn [fst snd] in *. injection Hthrown as ->.
        rewrite added_effects.
        split; [apply prelude_no_original_eval|].
        right. right. left.
        destruct (announcement_fault _ _ _ Ha) as (H1 & H2 & H3).
        exists r. auto 10.
      * cbn [fst snd] in *. rewrite added_effects.
        destruct (hasAppliedAsyncWriterRuntimeSupport e) eqn:Hflag.
        -- left. unfold ShellEvaluator.transformed in Hthrown.
           destruct (originalEval r context filename) as [v|cause|] eqn:Ho;
             try discriminate.
           exists r, cause. split; [reflexivity|].
           split; [discriminate|]. split; [exact Ho|]. split.
           ++ destruct (transformError_throws Val faults cause);
                now injection Hthrown.
           ++ apply in_or_app. right. now left.
        -- destruct injection_fault as [err'|] eqn:Hi.
           ++ right. injection Hthrown as ->.
              split.
              ** apply Forall_app. split; [apply prelude_no_original_eval|].
                 unfold ShellEvaluator.evaluation, ShellEvaluator.injection.
                 unfold ShellEvaluator.injection_fault in Hi.
                 destruct (runtimeSupportCode_throws Val faults);
                   [constructor|].
                 rewrite Hi. repeat constructor.
              ** right. right. right. exists r.
                 split; [reflexivity|]. split; [reflexivity|].
                 split; [now apply injection_fault_inv|reflexivity].
           ++ left. unfold ShellEvaluator.transformed in Hthrown.
              destruct (originalEval
                          (ShellEvaluator.evaluated_text
                             asyncWriter_runtimeSupportCode false r)
                          context filename) as [v|cause|] eqn:Ho;
                try discriminate.
              exists r, cause. split; [reflexivity|].
              split; [reflexivity|]. split; [exact Ho|]. split.
              ** destruct (transformError_throws Val faults cause);
                   now injection Hthrown.
              ** apply in_or_app. right.
                 unfold ShellEvaluator.evaluation, ShellEvaluator.injection.
                 unfold ShellEvaluator.injection_fault in Hi.
                 destruct (runtimeSupportCode_throws Val faults);
                   [discriminate|].
                 rewrite Hi. right. now left.
    + right. cbn [fst snd] in *. injection Hthrown as ->.
      unfold perform. rewrite added_effects.
      split; [repeat constructor|]. right. left. auto.
    + discriminate.
Qed.

Lemma session_effects (calls : list (Call Val Ctx)) (e : Evaluator Ctx) :
  exists added,
    effects (session calls e) = effects e ++ added
    /\ Forall (fun x =>
         exists c, In c calls
           /\ match direct_command (call_input Val Ctx c) with
              | Some (cmd, _, argv) => x = CalledShellCommand cmd argv
              | None => evaluation_effect (call_input Val Ctx c) x
              end) added.
Proof.
  revert e. induction calls as [|c calls IH]; intros e; simpl.
  - exists []. now rewrite app_nil_r.
  - destruct (innerEval_effects (call_eval Val Ctx c) (call_input Val Ctx c)
                (call_context Val Ctx c) (call_filename Val Ctx c) e)
      as (first & Heff & Hfirst).
    rewrite <- (customEval_state Val Ctx Res shellApi asyncWriter_process
                  asyncWriter_runtimeSupportCode hiddenCommands_test
                  redactSensitiveData transformError resultHandler faults)
      in Heff.
    fold (run_call c) in Heff.
    assert (Hhere : Forall (fun x =>
              exists c', In c' (c :: calls)
                /\ match direct_command (call_input Val Ctx c') with
                   | Some (cmd, _, argv) => x = CalledShellCommand cmd argv
                   | None => evaluation_effect (call_input Val Ctx c') x
                   end) first).
    { destruct (direct_command (call_input Val Ctx c))
        as [[[cmd m] argv]|] eqn:Hd.
      - subst first. constructor; [|constructor].
        exists c. split; [now left|]. now rewrite Hd.
      - eapply Forall_impl; [|exact Hfirst].
        intros x Hx. exists c. split; [now left|]. now rewrite Hd. }
    destruct (run_call c e) as [[v|err|] e'] eqn:Hrun; simpl in Heff.
    + destruct (IH e') as (rest & Hrest & Hall).
      exists (first ++ rest). split.
      * now rewrite Hrest, Heff, app_assoc.
      * apply Forall_app. split; [assumption|].
        eapply Forall_impl; [|exact Hall].
        intros x (c' & Hin & Hx). exists c'. split; [now right|assumption].
    + destruct (IH e') as (rest & Hrest & Hall).
      exists (first ++ rest). split.
      * now rewrite Hrest, Heff, app_assoc.
      * apply Forall_app. split; [assumption|].
        eapply Forall_impl; [|exact Hall].
        intros x (c' & Hin & Hx). exists c'. split; [now right|assumption].
    + exists first. split; assumption.
Qed.

(** X16. What a session sends on the message bus.  Every
    [mongosh:evaluate-input] event carries the redacted, trimmed text of
    one of the inputs; that input is not a direct command, the rewriter
    accepted it, and neither it nor its rewritten text is a hidden
    command. *)
Theorem bus_events_of_session (calls : list (Call Val Ctx))
    (payload : string) :
  In (EmittedEvaluateInput payload) (effects (session calls constructor)) ->
  exists c r,
    In c calls
    /\ payload = redactSensitiveData (JS.trim (call_input Val Ctx c))
    /\ direct_command (call_input Val Ctx c) = None
    /\ asyncWriter_process (call_input Val Ctx c) = Fulfilled r
    /\ hiddenCommands_test (call_input Val Ctx c) = false
    /\ hiddenCommands_test r = false.
Proof.
  intros Hin.
  destruct (session_effects calls constructor) as (added & Heff & Hall).
  rewrite Heff in Hin. simpl in Hin.
  rewrite Forall_forall in Hall.
  destruct (Hall _ Hin) as (c & Hc & Hx).
  destruct (direct_command (call_input Val Ctx c)) as [[[cmd m] argv]|]
    eqn:Hd; [discriminate|].
  destruct Hx as (-> & Hh & r & Hp & Hr).
  exists c, r. repeat split; assumption.
Qed.

End Evaluator.

End EvaluatorFacts.

(** *** A shell whose evaluation fails *)

Module ShellSamples.

Import ShellEvaluator.

Definition failing : EvaluationFunction string unit :=
  fun code _ _ => Thrown "ReferenceError".

Definition transformError (err : string) : string :=
  ("Mongosh" ++ err)%string.

Definition innerEval_with (faults : Faults string) :=
  innerEval string unit ShellExamples.shellApi ShellExamples.process
    ShellExamples.supportCode ShellExamples.hidden (fun s => s)
    transformError faults.

Definition innerEval := innerEval_with ShellExamples.sound.

(** [transformError] throws on what it is given. *)
Definition failing_transform : Faults string :=
  {| redactSensitiveData_throws := fun _ => None;
     emit_throws := fun _ => None;
     runtimeSupportCode_throws := None;
     eval_throws := fun _ => None;
     transformError_throws := fun _ => Some "RangeError" |}.

End ShellSamples.

Lemma shell_command_only_when_direct_witness :
  In (ShellEvaluator.CalledShellCommand "show" ["dbs"])
     (ShellEvaluator.effects ShellExamples.fresh)
  \/ (exists m,
        ShellExamples.shellApi "show" = Some m
        /\ ShellEvaluator.isDirectShellCommand string m = true
        /\ ShellEvaluator.argv_of "show dbs" = "show" :: ["dbs"]
        /\ JS.startsWith "(" (hd EmptyString ["dbs"]) = false
        /\ Forall (fun piece => JSFacts.has_white_space piece = false)
             ("show" :: ["dbs"])).
Proof.
  apply (EvaluatorFacts.shell_command_only_when_direct string unit
           ShellExamples.shellApi ShellExamples.process
           ShellExamples.supportCode ShellExamples.hidden
           (fun s => s) (fun err => err) ShellExamples.sound
           ShellExamples.originalEval
           "show dbs" tt "repl" ShellExamples.fresh "show" ["dbs"]).
  vm_compute. auto.
Defined.

Lemma surrounding_white_space_ignored_witness :
  ShellEvaluator.argv_of ("  " ++ "use test" ++ " ") =
  ShellEvaluator.argv_of "use test"
  /\ ShellEvaluator.direct_command string ShellExamples.shellApi
       ("  " ++ "use test" ++ " ") =
     ShellEvaluator.direct_command string ShellExamples.shellApi "use test"
  /\ JS.trim ("  " ++ "use test" ++ " ") = JS.trim "use test".
Proof.
  apply (EvaluatorFacts.surrounding_white_space_ignored string
           ShellExamples.shellApi (fun s => s) "  " "use test" " ");
    reflexivity.
Defined.

Lemma trailing_semicolon_witness :
  ShellEvaluator.argv_of ("show dbs" ++ ";") =
  ShellEvaluator.argv_of "show dbs"
  /\ ShellEvaluator.argv_of ("show dbs" ++ String " " EmptyString ++ ";") =
     ShellEvaluator.argv_of "show dbs" ++ [EmptyString].
Proof.
  apply (EvaluatorFacts.trailing_semicolon "show dbs" " " EmptyString);
    reflexivity.
Defined.

Example rewriter_error_not_transformed :
  fst (ShellSamples.innerEval ShellSamples.failing EmptyString tt "repl"
         ShellExamples.fresh) = Thrown "SyntaxError".
Proof. reflexivity. Qed.

(** An error of a listener, or of the support code in the evaluator's own
    realm, rejects the evaluation as it is, and [originalEval] is not
    called. *)
Example listener_error_not_transformed :
  ShellSamples.innerEval_with ShellExamples.picky_listener
    ShellSamples.failing "1 + 1" tt "repl" ShellExamples.fresh =
  (Thrown "ListenerError",
   {| ShellEvaluator.hasAppliedAsyncWriterRuntimeSupport := false;
      ShellEvaluator.effects :=
        [ShellEvaluator.CalledProcess "1 + 1";
         ShellEvaluator.EmittedEvaluateInput "1 + 1"] |}).
Proof. reflexivity. Qed.

Example support_code_error_not_transformed :
  ShellSamples.innerEval_with ShellExamples.frozen_realm
    ShellSamples.failing "1 + 1" tt "repl" ShellExamples.fresh =
  (Thrown "TypeError",
   {| ShellEvaluator.hasAppliedAsyncWriterRuntimeSupport := true;
      ShellEvaluator.effects :=
        [ShellEvaluator.CalledProcess "1 + 1";
         ShellEvaluator.EmittedEvaluateInput "1 + 1";
         ShellEvaluator.EvaledInHostRealm "patchPrototypes()"] |}).
Proof. reflexivity. Qed.

(** What [transformError] throws replaces the error it was given. *)
Example transform_error_may_throw :
  fst (ShellSamples.innerEval_with ShellSamples.failing_transform
         ShellSamples.failing "1 + 1" tt "repl" ShellExamples.fresh) =
  Thrown "RangeError".
Proof. reflexivity. Qed.

(** The sources of a rejection of [innerEval], at a given shell. *)
Definition rejection_explained (faults : ShellEvaluator.Faults string)
    (originalEval : ShellEvaluator.EvaluationFunction string unit)
    (input : string) (e : ShellEvaluator.Evaluator unit) (err : string)
  : Prop :=
  let applied := ShellEvaluator.hasAppliedAsyncWriterRuntimeSupport e in
  let added :=
    skipn (length (ShellEvaluator.effects e))
      (ShellEvaluator.effects
         (snd (ShellSamples.innerEval_with faults originalEval input tt
                 "repl" e))) in
  (exists r cause,
     ShellEvaluator.reaches string unit ShellExamples.shellApi
       ShellExamples.process ShellExamples.hidden (fun s => s) faults input
     = Some r
     /\ (applied = false ->
         ShellEvaluator.injection_fault string ShellExamples.supportCode
           faults = None)
     /\ originalEval
          (ShellEvaluator.evaluated_text ShellExamples.supportCode applied r)
          tt "repl" = Thrown cause
     /\ err = match ShellEvaluator.transformError_throws string faults cause
              with
              | Some err' => err'
              | None => ShellSamples.transformError cause
              end
     /\ In (ShellEvaluator.CalledOriginalEval
              (ShellEvaluator.evaluated_text ShellExamples.supportCode
                 applied r) tt "repl") added)
  \/ (Forall (fun x => ShellEvaluator.is_original_eval unit x = false) added
      /\ ((exists cmd m argv,
             ShellEvaluator.direct_command string ShellExamples.shellApi
               input = Some (cmd, m, argv)
             /\ ShellEvaluator.invoke string m argv = Thrown err
             /\ added = [ShellEvaluator.CalledShellCommand cmd argv])
          \/ (ShellEvaluator.direct_command string ShellExamples.shellApi
                input = None
              /\ ShellExamples.process input = Thrown err
              /\ added = [ShellEvaluator.CalledProcess input])
          \/ (exists r,
                ShellEvaluator.direct_command string ShellExamples.shellApi
                  input = None
                /\ ShellExamples.process input = Fulfilled r
                /\ ShellExamples.hidden input = false
                /\ ShellExamples.hidden r = false
                /\ (ShellEvaluator.redactSensitiveData_throws string faults
                      (JS.trim input) = Some err
                    \/ (ShellEvaluator.redactSensitiveData_throws string
                          faults (JS.trim input) = None
                        /\ ShellEvaluator.emit_throws string faults
                             (JS.trim input) = Some err))
                /\ added =
                   ShellEvaluator.prelude string unit ShellExamples.hidden
                     (fun s => s) faults input r)
          \/ (exists r,
                ShellEvaluator.reaches string unit ShellExamples.shellApi
                  ShellExamples.process ShellExamples.hidden (fun s => s)
                  faults input = Some r
                /\ applied = false
                /\ (ShellEvaluator.runtimeSupportCode_throws string faults
                    = Some err
                    \/ (ShellEvaluator.runtimeSupportCode_throws string
                          faults = None
                        /\ ShellEvaluator.eval_throws string faults
                             ShellExamples.supportCode = Some err))
                /\ added =
                   ShellEvaluator.prelude string unit ShellExamples.hidden
                     (fun s => s) faults input r
                   ++ ShellEvaluator.injection string unit
                        ShellExamples.supportCode faults r tt "repl"))).

Lemma rejection_sources_witness :
  rejection_explained ShellExamples.sound ShellSamples.failing "x"
    ShellExamples.fresh "MongoshReferenceError"
  /\ rejection_explained ShellExamples.picky_listener ShellSamples.failing
       "1 + 1" ShellExamples.fresh "ListenerError"
  /\ rejection_explained ShellExamples.frozen_realm ShellSamples.failing
       "1 + 1" ShellExamples.fresh "TypeError"
  /\ rejection_explained ShellSamples.failing_transform ShellSamples.failing
       "1 + 1" ShellExamples.fresh "RangeError".
Proof.
  split; [|split; [|split]].
  - apply (EvaluatorFacts.rejection_sources string unit
             ShellExamples.shellApi ShellExamples.process
             ShellExamples.supportCode ShellExamples.hidden (fun s => s)
             ShellSamples.transformError ShellExamples.sound
             ShellSamples.failing
             "x" tt "repl" ShellExamples.fresh "MongoshReferenceError").
    reflexivity.
  - apply (EvaluatorFacts.rejection_sources string unit
             ShellExamples.shellApi ShellExamples.process
             ShellExamples.supportCode ShellExamples.hidden (fun s => s)
             ShellSamples.transformError ShellExamples.picky_listener
             ShellSamples.failing
             "1 + 1" tt "repl" ShellExamples.fresh "ListenerError").
    reflexivity.
  - apply (EvaluatorFacts.rejection_sources string unit
             ShellExamples.shellApi ShellExamples.process
             ShellExamples.supportCode ShellExamples.hidden (fun s => s)
             ShellSamples.transformError ShellExamples.frozen_realm
             ShellSamples.failing
             "1 + 1" tt "repl" ShellExamples.fresh "TypeError").
    reflexivity.
  - apply (EvaluatorFacts.rejection_sources string unit
             ShellExamples.shellApi ShellExamples.process
             ShellExamples.supportCode ShellExamples.hidden (fun s => s)
             ShellSamples.transformError ShellSamples.failing_transform
             ShellSamples.failing
             "1 + 1" tt "repl" ShellExamples.fresh "RangeError").
    reflexivity.
Defined.

Lemma bus_events_of_session_witness :
  exists c r,
    In c (map ShellExamples.call ["use test"; "1 + 1"])
    /\ "1 + 1" = JS.trim (ShellEvaluator.call_input string unit c)
    /\ ShellEvaluator.direct_command string ShellExamples.shellApi
         (ShellEvaluator.call_input string unit c) = None
    /\ ShellExamples.process (ShellEvaluator.call_input string unit c) =
         Fulfilled r
    /\ ShellExamples.hidden (ShellEvaluator.call_input string unit c) = false
    /\ ShellExamples.hidden r = false.
Proof.
  apply (EvaluatorFacts.bus_events_of_session string unit string
           ShellExamples.shellApi ShellExamples.process
           ShellExamples.supportCode ShellExamples.hidden (fun s => s)
           (fun err => err) (fun v => Fulfilled v) ShellExamples.sound
           (map ShellExamples.call ["use test"; "1 + 1"]) "1 + 1").
  vm_compute. auto.
Defined.

(** ** ShellInternalState (shell-internal-state) *)

Module ShellInternalState.

Local Open Scope js_scope.

(** A [Mongo] object, by identity: the number of the [new Mongo(...)]
    call that made it. *)
Definition Mongo : Type := nat.

Inductive Error : Type :=
| MongoshInvalidInputError (message : string)
| MongoshUnimplementedError (message : string)
| TypeError
| Rejection (reason : nat).

(** A value assigned to [db]: [null] or [undefined]; a value without a
    truthy [shellApiType] property; a shell API object and the string its
    [shellApiType()] returns; a value whose [shellApiType] is truthy but
    no function; a value whose [shellApiType()] throws; or a value whose
    [shellApiType()] returns something that is not a string.  [mongo] is
    the value's [mongo] property, [None] for [undefined]. *)
Inductive Assigned : Type :=
| Nullish
| Untyped (mongo : option Mongo)
| ShellApiObject (shellApiType : string) (mongo : option Mongo)
| NotCallable (mongo : option Mongo)
| Throwing (thrown : Error) (mongo : option Mongo)
| NotAString (mongo : option Mongo).

(** [new ReplicaSet(mongo)] and [new Shard(mongo)] *)
Record ReplicaSet : Type := { rs_mongo : option Mongo }.
Record Shard : Type := { sh_mongo : option Mongo }.

Inductive Event : Type :=
| NewMongo (m : Mongo) (uri : option string)
| Connect (m : Mongo)
| Close (m : Mongo) (p : bool)
| FetchConnectionInfo (mongo : option Mongo)
| Emit (name : string).

(** The instance with its context object; [created] counts the [Mongo]
    objects made so far. *)
Record State : Type := {
  currentDb : Assigned;
  mongos : list Mongo;
  context_rs : option ReplicaSet;
  context_sh : option Shard;
  created : nat;
  log : list Event
}.

Definition set_currentDb (d : Assigned) (s : State) : State :=
  {| currentDb := d; mongos := mongos s; context_rs := context_rs s;
     context_sh := context_sh s; created := created s; log := log s |}.

Definition set_rs (r : ReplicaSet) (s : State) : State :=
  {| currentDb := currentDb s; mongos := mongos s; context_rs := Some r;
     context_sh := context_sh s; created := created s; log := log s |}.

Definition set_sh (r : Shard) (s : State) : State :=
  {| currentDb := currentDb s; mongos := mongos s;
     context_rs := context_rs s; context_sh := Some r;
     created := created s; log := log s |}.

Definition push (m : Mongo) (s : State) : State :=
  {| currentDb := currentDb s; mongos := mongos s ++ [m];
     context_rs := context_rs s; context_sh := context_sh s;
     created := created s; log := log s |}.

Definition record (x : Event) (s : State) : State :=
  {| currentDb := currentDb s; mongos := mongos s;
     context_rs := context_rs s; context_sh := context_sh s;
     created := created s; log := log s ++ [x] |}.

Definition set_created (n : nat) (s : State) : State :=
  {| currentDb := currentDb s; mongos := mongos s;
     context_rs := context_rs s; context_sh := context_sh s;
     created := n; log := log s |}.

(** The constructor: one [Mongo], its database [test] as [currentDb]. *)
Definition constructor : State :=
  {| currentDb := ShellApiObject "Database" (Some 0);
     mongos := [0];
     context_rs := None;
     context_sh := None;
     created := 1;
     log := [NewMongo 0 None] |}.

(** [this.currentDb.mongo] *)
Definition currentDb_mongo : M State Error (option Mongo) :=
  d <- gets currentDb ;;
  match d with
  | Nullish => throw TypeError
  | Untyped m | ShellApiObject _ m | NotCallable m | Throwing _ m
  | NotAString m => ret m
  end.

(** [new Mongo(this, uri, options)] *)
Definition new_Mongo (uri : option string) : M State Error Mongo :=
  m <- gets created ;;
  modify (set_created (S m)) ;;
  modify (record (NewMongo m uri)) ;;
  ret m.

Section Shell.

(** [initialServiceProvider.platform === ReplPlatform.CLI], and
    [ReplPlatform[initialServiceProvider.platform]]. *)
Variable platform_is_CLI : bool.
Variable platform_name : string.
(** What [mongo.connect()] and [mongo.close(p)] settle to. *)
Variable connect : Mongo -> outcome Error unit.
Variable close_mongo : Mongo -> bool -> outcome Error unit.

(** [fetchConnectionInfo()] called without [await]: the call reads
    [this.currentDb.mongo] and returns a promise nobody looks at; what it
    does once the connection info is there belongs to a later turn. *)
Definition fetchConnectionInfo_started : M State Error unit :=
  d <- gets currentDb ;;
  modify (record (FetchConnectionInfo
                    (match d with
                     | Nullish => None
                     | Untyped m | ShellApiObject _ m | NotCallable m
                     | Throwing _ m | NotAString m => m
                     end))).

(** [close(p)]: the loop over [this.mongos]. *)
Fixpoint close_from (ms : list Mongo) (p : bool) : M State Error unit :=
  match ms with
  | [] => ret tt
  | m :: rest =>
      modify (record (Close m p)) ;;
      await (close_mongo m p) ;;
      close_from rest p
  end.

Definition close (p : bool) : M State Error unit :=
  ms <- gets mongos ;;
  close_from ms p.

(** [setCtx(contextObject)], as far as [rs], [sh] and the bus go. *)
Definition setCtx : M State Error unit :=
  m <- currentDb_mongo ;;
  modify (set_rs {| rs_mongo := m |}) ;;
  m <- currentDb_mongo ;;
  modify (set_sh {| sh_mongo := m |}) ;;
  modify (record (Emit "mongosh:setCtx")).

(** The setter of [contextObject.db]. *)
Definition set_db (newDb : Assigned) : M State Error Assigned :=
  refused <-
    match newDb with
    | Nullish => throw TypeError
    | Untyped _ => ret false
    | ShellApiObject t _ => ret (negb (String.eqb t "Database"))
    | NotCallable _ => throw TypeError
    | Throwing thrown _ => throw thrown
    | NotAString _ => ret true
    end ;;
  if (refused : bool)
  then throw (MongoshInvalidInputError
                "Cannot reassign 'db' to non-Database type")
  else
    modify (set_currentDb newDb) ;;
    m <- currentDb_mongo ;;
    modify (set_rs {| rs_mongo := m |}) ;;
    m <- currentDb_mongo ;;
    modify (set_sh {| sh_mongo := m |}) ;;
    fetchConnectionInfo_started ;;
    ret newDb.

(** The getter of [contextObject.db]. *)
Definition get_db : M State Error Assigned := gets currentDb.

(** [contextObject.Mongo(uri, options)] *)
Definition Mongo_ (uri : option string) : M State Error Mongo :=
  if negb platform_is_CLI
  then throw (MongoshUnimplementedError
                ("new Mongo connection are not supported for current platform: "
                 ++ platform_name))
  else
    mongo <- new_Mongo uri ;;
    modify (record (Connect mongo)) ;;
    await (connect mongo) ;;
    modify (push mongo) ;;
    ret mongo.

(** What a script does with the context, one call after the other; a
    call that never settles is the last one. *)
Inductive Call : Type :=
| AssignDb (newDb : Assigned)
| CallMongo (uri : option string)
| CallClose (p : bool).

Definition run_call (c : Call) (s : State) : bool * State :=
  match c with
  | AssignDb v =>
      match set_db v s with (Pending, s') => (false, s') | (_, s') => (true, s') end
  | CallMongo uri =>
      match Mongo_ uri s with (Pending, s') => (false, s') | (_, s') => (true, s') end
  | CallClose p =>
      match close p s with (Pending, s') => (false, s') | (_, s') => (true, s') end
  end.

Fixpoint run (calls : list Call) (s : State) : State :=
  match calls with
  | [] => s
  | c :: rest =>
      match run_call c s with
      | (true, s') => run rest s'
      | (false, s') => s'
      end
  end.

(** [db] is something the setter lets through. *)
Definition accepted (d : Assigned) : Prop :=
  match d with
  | Untyped _ => True
  | ShellApiObject t _ => t = "Database"
  | Nullish | NotCallable _ | Throwing _ _ | NotAString _ => False
  end.

Definition mongo_of (d : Assigned) : option Mongo :=
  match d with
  | Nullish => None
  | Untyped m | ShellApiObject _ m | NotCallable m | Throwing _ m
  | NotAString m => m
  end.


(** The [Mongo] objects whose [connect()] was called, in order. *)
Fixpoint connects (l : list Event) : list Mongo :=
  match l with
  | [] => []
  | Connect m :: l' => m :: connects l'
  | _ :: l' => connects l'
  end.

(** The [Mongo] objects [close] was called on, in order. *)
Fixpoint closes (l : list Event) : list Mongo :=
  match l with
  | [] => []
  | Close m _ :: l' => m :: closes l'
  | _ :: l' => closes l'
  end.

Definition is_fulfilled {E A} (r : outcome E A) : bool :=
  match r with Fulfilled _ => true | _ => false end.

Lemma connects_app (l1 l2 : list Event) :
  connects (l1 ++ l2) = connects l1 ++ connects l2.
Proof.
  induction l1 as [|x l1 IH]; simpl; [reflexivity|].
  destruct x; simpl; now rewrite ?IH.
Qed.

Lemma closes_app (l1 l2 : list Event) :
  closes (l1 ++ l2) = closes l1 ++ closes l2.
Proof.
  induction l1 as [|x l1 IH]; simpl; [reflexivity|].
  destruct x; simpl; now rewrite ?IH.
Qed.

(** *** [close] *)

Lemma close_from_frame (ms : list Mongo) (p : bool) (s : State) :
  let s' := snd (close_from ms p s) in
  currentDb s' = currentDb s /\ mongos s' = mongos s
  /\ context_rs s' = context_rs s /\ context_sh s' = context_sh s
  /\ created s' = created s
  /\ connects (log s') = connects (log s).
Proof.
  revert s. induction ms as [|m ms IH]; intros s; simpl.
  - auto 10.
  - unfold bind, modify, await. simpl.
    destruct (close_mongo m p) as [[]|err|]; simpl.
    + destruct (IH (record (Close m p) s)) as (H1 & H2 & H3 & H4 & H5 & H6).
      simpl in *. rewrite H1, H2, H3, H4, H5, H6.
      rewrite connects_app. simpl. rewrite app_nil_r. auto 10.
    + rewrite connects_app. simpl. rewrite app_nil_r. auto 10.
    + rewrite connects_app. simpl. rewrite app_nil_r. auto 10.
Qed.

Lemma close_from_all (ms : list Mongo) (p : bool) (s : State) :
  Forall (fun m => close_mongo m p = Fulfilled tt) ms ->
  fst (close_from ms p s) = Fulfilled tt
  /\ log (snd (close_from ms p s)) =
     log s ++ map (fun m => Close m p) ms.
Proof.
  revert s. induction ms as [|m ms IH]; intros s Hall; simpl.
  - now rewrite app_nil_r.
  - inversion Hall as [|? ? Hm Hms]; subst.
    unfold bind, modify, await. simpl. rewrite Hm.
    destruct (IH (record (Close m p) s) Hms) as [Hr Hl].
    rewrite Hr, Hl. simpl. now rewrite <- app_assoc.
Qed.

Lemma close_from_failure (before after : list Mongo) (m : Mongo)
    (p : bool) (s : State) (err : Error) :
  Forall (fun m => close_mongo m p = Fulfilled tt) before ->
  close_mongo m p = Thrown err ->
  fst (close_from (before ++ m :: after) p s) = Thrown err
  /\ log (snd (close_from (before ++ m :: after) p s)) =
     log s ++ map (fun m => Close m p) (before ++ [m]).
Proof.
  revert s. induction before as [|b before IH]; intros s Hall Hm; simpl.
  - unfold bind, modify, await. simpl. now rewrite Hm.
  - inversion Hall as [|? ? Hb Hbefore]; subst.
    unfold bind, modify, await. simpl. rewrite Hb.
    destruct (IH (record (Close b p) s) Hbefore Hm) as [Hr Hl].
    rewrite Hr, Hl. simpl. now rewrite <- app_assoc.
Qed.

(** *** The setter of [db] *)

Lemma set_db_accepted (v : Assigned) (s : State) :
  accepted v ->
  set_db v s =
  (Fulfilled v,
   {| currentDb := v; mongos := mongos s;
      context_rs := Some {| rs_mongo := mongo_of v |};
      context_sh := Some {| sh_mongo := mongo_of v |};
      created := created s;
      log := log s ++ [FetchConnectionInfo (mongo_of v)] |}).
Proof.
  destruct v as [|m|t m|m|e m|m]; simpl; intros Ht; try contradiction.
  - reflexivity.
  - subst t. reflexivity.
Qed.

Lemma set_db_refused (v : Assigned) (s : State) :
  ~ accepted v ->
  set_db v s =
  (Thrown (match v with
           | Nullish | NotCallable _ => TypeError
           | Throwing thrown _ => thrown
           | _ => MongoshInvalidInputError
                    "Cannot reassign 'db' to non-Database type"
           end), s).
Proof.
  destruct v as [|m|t m|m|e m|m]; simpl; intros Hv; try reflexivity.
  - now destruct Hv.
  - unfold set_db, bind, ret, throw. simpl.
    destruct (String.eqb t "Database") eqn:Ht; simpl; [|reflexivity].
    apply String.eqb_eq in Ht. now destruct Hv.
Qed.

Lemma accepted_dec (v : Assigned) : accepted v \/ ~ accepted v.
Proof.
  destruct v as [|m|t m|m|e m|m]; simpl; auto.
  destruct (string_dec t "Database"); auto.
Qed.

(** *** [Mongo] *)

Lemma Mongo_state (uri : option string) (s : State) :
  let s' := snd (Mongo_ uri s) in
  currentDb s' = currentDb s
  /\ context_rs s' = context_rs s /\ context_sh s' = context_sh s
  /\ (if platform_is_CLI
      then mongos s' =
             mongos s
             ++ filter (fun m => is_fulfilled (connect m)) [created s]
           /\ connects (log s') = connects (log s) ++ [created s]
           /\ created s' = S (created s)
      else s' = s).
Proof.
  unfold Mongo_. destruct platform_is_CLI; simpl; [|auto].
  unfold new_Mongo, bind, gets, modify, await, ret. simpl.
  destruct (connect (created s)) as [[]|err|]; simpl;
    rewrite !connects_app; simpl; rewrite ?app_nil_r; auto 10.
Qed.

(** *** Scripts *)

(** The first [Mongo] and then those that connected. *)
Definition tracked (s : State) : Prop :=
  mongos s =
  0 :: filter (fun m => is_fulfilled (connect m)) (connects (log s))
  /\ (platform_is_CLI = false -> mongos s = [0]).


Lemma run_call_tracked (c : Call) (s : State) :
  tracked s -> tracked (snd (run_call c s)).
Proof.
  intros [Hm Hcli]. destruct c as [v|uri|p]; simpl.
  - destruct (accepted_dec v) as [Hv|Hv].
    + rewrite (set_db_accepted _ _ Hv). simpl.
      unfold tracked. simpl. rewrite connects_app. simpl.
      rewrite app_nil_r. auto.
    + rewrite (set_db_refused _ _ Hv). simpl. split; assumption.
  - pose proof (Mongo_state uri s) as (_ & _ & _ & H).
    destruct (Mongo_ uri s) as [[m|err|] s']; simpl in *;
      unfold tracked;
      (destruct platform_is_CLI;
       [destruct H as (H1 & H2 & _); rewrite H1, H2, filter_app, Hm;
        split; [reflexivity | discriminate]
       |subst s'; auto]).
  - unfold close, bind, gets. simpl.
    pose proof (close_from_frame (mongos s) p s) as (_ & H2 & _ & _ & _ & H6).
    destruct (close_from (mongos s) p s) as [[[]|err|] s']; simpl in *;
      unfold tracked; rewrite H2, H6; auto.
Qed.

Lemma run_invariant (P : State -> Prop) :
  (forall c s, P s -> P (snd (run_call c s))) ->
  forall calls s, P s -> P (run calls s).
Proof.
  intros Hstep calls. induction calls as [|c calls IH]; intros s Hs; simpl.
  - assumption.
  - pose proof (Hstep c s Hs) as H.
    destruct (run_call c s) as [[|] s']; simpl in H; auto.
Qed.

Lemma setCtx_constructor :
  setCtx constructor =
  (Fulfilled tt,
   {| currentDb := ShellApiObject "Database" (Some 0);
      mongos := [0];
      context_rs := Some {| rs_mongo := Some 0 |};
      context_sh := Some {| sh_mongo := Some 0 |};
      created := 1;
      log := [NewMongo 0 None; Emit "mongosh:setCtx"] |}).
Proof. reflexivity. Qed.



(** X19. The connections a shell keeps track of are the one made by the
    constructor followed by those made through [Mongo(...)] whose
    [connect()] succeeded, in that order; on a platform other than the
    CLI, [Mongo(...)] throws MongoshUnimplementedError naming the
    platform, makes no [Mongo] and only the first connection is ever
    tracked. *)
Theorem tracked_connections (calls : list Call) :
  tracked (run calls (snd (setCtx constructor)))
  /\ (forall uri s,
        if platform_is_CLI then True
        else Mongo_ uri s =
             (Thrown (MongoshUnimplementedError
                        ("new Mongo connection are not supported for current platform: "
                         ++ platform_name)), s)).
Proof.
  split.
  - apply run_invariant; [apply run_call_tracked|].
    rewrite setCtx_constructor. split; reflexivity.
  - intros uri s. unfold Mongo_. now destruct platform_is_CLI.
Qed.

(** X20. When every tracked connection closes, [close(p)] resolves
    after calling [close(p)] on each of them once, in the order they
    were made. *)
Theorem close_closes_all (p : bool) (s : State) :
  Forall (fun m => close_mongo m p = Fulfilled tt) (mongos s) ->
  fst (close p s) = Fulfilled tt
  /\ closes (log (snd (close p s))) = closes (log s) ++ mongos s.
Proof.
  intros Hall. unfold close, bind, gets. simpl.
  destruct (close_from_all (mongos s) p s Hall) as [Hr Hl].
  split; [assumption|].
  rewrite Hl, closes_app. f_equal.
  clear. induction (mongos s) as [|m ms IH]; simpl; [reflexivity|].
  now rewrite IH.
Qed.

(** X21. When closing one of the tracked connections fails, [close(p)]
    rejects with that error and the connections after it are not closed:
    [close(p)] was called on those up to the failing one only. *)
Theorem close_stops_at_failure (p : bool) (s : State)
    (before after : list Mongo) (m : Mongo) (err : Error) :
  mongos s = before ++ m :: after ->
  Forall (fun m => close_mongo m p = Fulfilled tt) before ->
  close_mongo m p = Thrown err ->
  fst (close p s) = Thrown err
  /\ closes (log (snd (close p s))) = closes (log s) ++ before ++ [m].
Proof.
  intros Hms Hall Hm. unfold close, bind, gets. simpl. rewrite Hms.
  destruct (close_from_failure before after m p s err Hall Hm) as [Hr Hl].
  split; [assumption|].
  rewrite Hl, closes_app. f_equal.
  clear. induction (before ++ [m]) as [|x xs IH]; simpl; [reflexivity|].
  now rewrite IH.
Qed.

End Shell.

End ShellInternalState.

(** *** A shell with three more connections *)

Module ShellStateSamples.

Import ShellInternalState.

(** The third [Mongo] does not connect. *)
Definition connect (m : Mongo) : outcome Error unit :=
  if Nat.eqb m 2 then Thrown (Rejection 1) else Fulfilled tt.

Definition closing (m : Mongo) (p : bool) : outcome Error unit :=
  Fulfilled tt.

(** The second [Mongo] does not close. *)
Definition stuck (m : Mongo) (p : bool) : outcome Error unit :=
  if Nat.eqb m 1 then Thrown (Rejection 7) else Fulfilled tt.

Definition script : list Call :=
  [CallMongo (Some "mongodb://a"); CallMongo None;
   AssignDb (ShellApiObject "Collection" (Some 1));
   AssignDb (NotCallable (Some 1));
   CallMongo (Some "mongodb://b");
   AssignDb (ShellApiObject "Database" (Some 3))].

Definition after_script : State :=
  run true "CLI" connect closing script (snd (setCtx constructor)).

End ShellStateSamples.

Example script_state :
  ShellInternalState.mongos ShellStateSamples.after_script = [0; 1; 3]
  /\ ShellInternalState.currentDb ShellStateSamples.after_script =
     ShellInternalState.ShellApiObject "Database" (Some 3)
  /\ ShellInternalState.context_rs ShellStateSamples.after_script =
     Some {| ShellInternalState.rs_mongo := Some 3 |}.
Proof. repeat split. Qed.

Lemma close_closes_all_witness :
  fst (ShellInternalState.close ShellStateSamples.closing true
         ShellStateSamples.after_script) = Fulfilled tt
  /\ ShellInternalState.closes
       (ShellInternalState.log
          (snd (ShellInternalState.close ShellStateSamples.closing true
                  ShellStateSamples.after_script))) =
     ShellInternalState.closes
       (ShellInternalState.log ShellStateSamples.after_script)
     ++ ShellInternalState.mongos ShellStateSamples.after_script.
Proof.
  apply (ShellInternalState.close_closes_all ShellStateSamples.closing true
           ShellStateSamples.after_script).
  vm_compute. repeat constructor.
Defined.

Lemma close_stops_at_failure_witness :
  fst (ShellInternalState.close ShellStateSamples.stuck false
         ShellStateSamples.after_script) =
  Thrown (ShellInternalState.Rejection 7)
  /\ ShellInternalState.closes
       (ShellInternalState.log
          (snd (ShellInternalState.close ShellStateSamples.stuck false
                  ShellStateSamples.after_script))) =
     ShellInternalState.closes
       (ShellInternalState.log ShellStateSamples.after_script)
     ++ [0] ++ [1].
Proof.
  apply (ShellInternalState.close_stops_at_failure ShellStateSamples.stuck
           false ShellStateSamples.after_script [0] [3] 1
           (ShellInternalState.Rejection 7)).
  - reflexivity.
  - repeat constructor.
  - reflexivity.
Defined.

(** ** Output formatting (cli-repl/src/format-output.ts) *)

From Stdlib Require Import ZArith Permutation.

Module FormatOutput.

Import JS.

Local Open Scope js_scope.

Inductive Error : Type :=
| RangeError.

Fixpoint spaces (n : nat) : string :=
  match n with
  | O => EmptyString
  | S n' => String " " (spaces n')
  end.

(** [' '.repeat(count)]: a negative count is a RangeError. *)
Definition repeat_space (count : Z) : outcome Error string :=
  if (count <? 0)%Z then Thrown RangeError
  else Fulfilled (spaces (Z.to_nat count)).

(** [s.split('\n')] *)
Fixpoint split_lines_go (cur : string) (s : string) : list string :=
  match s with
  | EmptyString => [cur]
  | String c s' =>
      if Ascii.eqb c (ascii_of_nat 10)
      then cur :: split_lines_go EmptyString s'
      else split_lines_go (cur ++ String c EmptyString)%string s'
  end.

Definition split_lines (s : string) : list string :=
  split_lines_go EmptyString s.

(** [lines.join('\n')] *)
Definition join_lines (lines : list string) : string :=
  String.concat LF lines.

(** A string property in a condition: set and not empty. *)
Definition truthy (s : option string) : bool :=
  match s with
  | Some (String _ _) => true
  | _ => false
  end.

Definition text (s : option string) : string :=
  match s with
  | Some t => t
  | None => EmptyString
  end.

Record HelpAttr : Type := {
  attr_name : option string;
  attr_description : option string
}.

Record HelpProperties : Type := {
  help : option string;
  docs : option string;
  attr : option (list HelpAttr)
}.

Record CollectionNamesWithTypes : Type := {
  name : string;
  badge : string
}.

Section Format.

Variable FormatOptions : Type.
Variable colors : FormatOptions -> bool.
(** [clr(text, style, options)], [i18n.__(key)] and [textTable(rows)] *)
Variable clr : string -> list string -> FormatOptions -> string.
Variable i18n : string -> string.
Variable textTable : list (string * string) -> string.

Definition argLen : Z := 47.

(** The loop over [descriptionLines] from index 1 on. *)
Fixpoint indent_lines (lines : list string)
  : M string Error (list string) :=
  match lines with
  | [] => ret []
  | l :: rest =>
      l' <- (if negb (isEmpty (trim l))
             then pad <- await (repeat_space argLen) ;;
                  ret (pad ++ l)%string
             else ret l) ;;
      rest' <- indent_lines rest ;;
      ret (l' :: rest')
  end.

(** The body of the [forEach] over [value.attr]; the store is
    [helpMenu]. *)
Definition format_method (method : HelpAttr) : M string Error unit :=
  formatted <-
    (if truthy (attr_name method) && truthy (attr_description method)
     then
       let formatted := ("    " ++ text (attr_name method))%string in
       let extraSpaces := (argLen - Z.of_nat (String.length formatted))%Z in
       let descriptionLines := split_lines (text (attr_description method)) in
       pad <- await (repeat_space extraSpaces) ;;
       let first := (pad ++ hd EmptyString descriptionLines)%string in
       rest <- indent_lines (tl descriptionLines) ;;
       ret (formatted ++ join_lines (first :: rest))%string
     else ret EmptyString) ;;
  let formatted :=
    if negb (truthy (attr_name method)) && truthy (attr_description method)
    then ("  " ++ text (attr_description method))%string
    else formatted in
  when (negb (isEmpty formatted))
    (modify (fun helpMenu => (helpMenu ++ formatted ++ LF)%string)).

Fixpoint forEach (methods : list HelpAttr) : M string Error unit :=
  match methods with
  | [] => ret tt
  | method :: rest => format_method method ;; forEach rest
  end.

Definition attrs (value : HelpProperties) : list HelpAttr :=
  match attr value with
  | Some l => l
  | None => []
  end.

Definition formatHelp (value : HelpProperties) (options : FormatOptions)
  : outcome Error string :=
  fst ((when (truthy (help value))
          (modify (fun helpMenu =>
             (helpMenu ++ LF ++ "  "
              ++ clr (text (help value) ++ ":") ["yellow"; "bold"] options
              ++ LF ++ LF)%string)) ;;
        forEach (attrs value) ;;
        when (truthy (docs value))
          (modify (fun helpMenu =>
             (helpMenu ++ LF ++ "  "
              ++ clr (i18n "cli-repl.args.moreInformation") ["bold"] options
              ++ " "
              ++ clr (text (docs value)) ["green"; "bold"] options)%string)) ;;
        get) EmptyString).

(** [formatCollections]: the two arrays filled by the [forEach]. *)
Definition sort_collection
    (acc : list CollectionNamesWithTypes * list CollectionNamesWithTypes)
    (coll : CollectionNamesWithTypes)
  : list CollectionNamesWithTypes * list CollectionNamesWithTypes :=
  let (systemCollections, otherCollections) := acc in
  if startsWith "system." (name coll)
  then (systemCollections ++ [coll], otherCollections)
  else (systemCollections, otherCollections ++ [coll]).

Definition ESC_dim : string :=
  String (ascii_of_nat 27) "[2m".

Definition tableEntries (output : list CollectionNamesWithTypes)
    (options : FormatOptions) : list (string * string) :=
  let (systemCollections, otherCollections) :=
    fold_left sort_collection output ([], []) in
  map (fun coll => (clr (name coll) ["bold"] options, badge coll))
    otherCollections
  ++ map (fun coll =>
            (((if colors options then ESC_dim else EmptyString)
              ++ clr (name coll) ["bold"] options)%string, badge coll))
       systemCollections.

Definition formatCollections (output : list CollectionNamesWithTypes)
    (options : FormatOptions) : string :=
  textTable (tableEntries output options).

(** *** Help *)

(** An entry whose name does not fit in front of column [argLen]. *)
Definition too_long (method : HelpAttr) : Prop :=
  truthy (attr_name method) = true
  /\ truthy (attr_description method) = true
  /\ (43 < String.length (text (attr_name method)))%nat.

Definition too_longb (method : HelpAttr) : bool :=
  truthy (attr_name method) && truthy (attr_description method)
  && (43 <? String.length (text (attr_name method)))%nat.

Lemma too_longb_spec (method : HelpAttr) :
  too_longb method = true <-> too_long method.
Proof.
  unfold too_longb, too_long.
  rewrite !andb_true_iff, Nat.ltb_lt. tauto.
Qed.

Definition indent (l : string) : string :=
  if negb (isEmpty (trim l)) then (spaces 47 ++ l)%string else l.

Lemma indent_lines_map (lines : list string) (helpMenu : string) :
  indent_lines lines helpMenu = (Fulfilled (map indent lines), helpMenu).
Proof.
  induction lines as [|l lines IH]; simpl; [reflexivity|].
  unfold bind, indent. destruct (negb (isEmpty (trim l))); simpl;
    unfold bind; rewrite IH; reflexivity.
Qed.

Lemma length_append (a b : string) :
  String.length (a ++ b) = (String.length a + String.length b)%nat.
Proof. induction a as [|c a IH]; simpl; [reflexivity | now rewrite IH]. Qed.

Lemma length_spaces (n : nat) : String.length (spaces n) = n.
Proof. induction n as [|n IH]; simpl; [reflexivity | now rewrite IH]. Qed.

Lemma join_lines_first (pad first : string) (rest : list string) :
  join_lines ((pad ++ first)%string :: rest) =
  (pad ++ join_lines (first :: rest))%string.
Proof.
  unfold join_lines. destruct rest as [|l rest]; simpl.
  - reflexivity.
  - now rewrite JSFacts.append_assoc.
Qed.

Lemma split_lines_go_not_nil (cur s : string) : split_lines_go cur s <> [].
Proof.
  revert cur. induction s as [|c s IH]; intros cur; simpl.
  - discriminate.
  - destruct (Ascii.eqb c (ascii_of_nat 10)); [discriminate | apply IH].
Qed.

Lemma repeat_space_fits (n : string) :
  (String.length n <= 43)%nat ->
  repeat_space (argLen - Z.of_nat (String.length ("    " ++ n))) =
  Fulfilled (spaces (43 - String.length n)).
Proof.
  intros Hlen. unfold repeat_space, argLen. rewrite length_append.
  change (String.length "    ") with 4%nat.
  destruct (Z.ltb_spec (47 - Z.of_nat (4 + String.length n)) 0); [lia|].
  do 2 f_equal. lia.
Qed.

Lemma repeat_space_too_long (n : string) :
  (43 < String.length n)%nat ->
  repeat_space (argLen - Z.of_nat (String.length ("    " ++ n))) =
  Thrown RangeError.
Proof.
  intros Hlen. unfold repeat_space, argLen. rewrite length_append.
  change (String.length "    ") with 4%nat.
  destruct (Z.ltb_spec (47 - Z.of_nat (4 + String.length n)) 0);
    [reflexivity | lia].
Qed.

Lemma format_method_fits (method : HelpAttr) (helpMenu : string) :
  too_longb method = false ->
  exists entry,
    format_method method helpMenu = (Fulfilled tt, (helpMenu ++ entry)%string).
Proof.
  unfold too_longb, format_method. intros Hfit.
  destruct (truthy (attr_name method)) eqn:Hn;
    destruct (truthy (attr_description method)) eqn:Hd;
    cbn [andb negb] in *.
  - apply Nat.ltb_ge in Hfit.
    unfold bind at 1 2. unfold await.
    rewrite (repeat_space_fits _ Hfit).
    unfold bind at 1. rewrite indent_lines_map.
    unfold ret, when, modify.
    eexists. reflexivity.
  - exists EmptyString. unfold bind, ret, when. cbn.
    now rewrite JSFacts.append_nil_r.
  - unfold bind, ret, when.
    destruct (attr_description method) as [[|c d]|]; try discriminate.
    cbn. unfold modify. eexists. reflexivity.
  - exists EmptyString. unfold bind, ret, when. cbn.
    now rewrite JSFacts.append_nil_r.
Qed.

Lemma format_method_too_long (method : HelpAttr) (helpMenu : string) :
  too_longb method = true ->
  format_method method helpMenu = (Thrown RangeError, helpMenu).
Proof.
  unfold too_longb, format_method. intros Hlong.
  apply andb_true_iff in Hlong as [Hlong Hlen].
  apply andb_true_iff in Hlong as [Hn Hd].
  apply Nat.ltb_lt in Hlen.
  rewrite Hn, Hd. cbn [andb negb].
  unfold bind at 1 2. unfold await.
  now rewrite (repeat_space_too_long _ Hlen).
Qed.

Lemma forEach_outcome (methods : list HelpAttr) (helpMenu : string) :
  if existsb too_longb methods
  then fst (forEach methods helpMenu) = Thrown RangeError
  else exists body,
         forEach methods helpMenu = (Fulfilled tt, (helpMenu ++ body)%string).
Proof.
  revert helpMenu. induction methods as [|m methods IH]; intros helpMenu; simpl.
  - exists EmptyString. unfold ret. now rewrite JSFacts.append_nil_r.
  - unfold bind. destruct (too_longb m) eqn:Hm; simpl.
    + now rewrite (format_method_too_long _ _ Hm).
    + destruct (format_method_fits _ helpMenu Hm) as [entry ->].
      specialize (IH (helpMenu ++ entry)%string).
      destruct (existsb too_longb methods); [assumption|].
      destruct IH as [body ->]. exists (entry ++ body)%string.
      now rewrite JSFacts.append_assoc.
Qed.

(** X22. [formatHelp] throws a RangeError exactly when some entry with
    a name and a description has a name of more than 43 code units (its
    four-space indentation then passes column 47 and [' '.repeat] gets
    a negative count); otherwise it returns the menu. *)
Theorem formatHelp_long_name (value : HelpProperties)
    (options : FormatOptions) :
  match formatHelp value options with
  | Fulfilled _ => Forall (fun method => ~ too_long method) (attrs value)
  | Thrown RangeError => Exists too_long (attrs value)
  | Pending => False
  end.
Proof.
  unfold formatHelp.
  set (start := when (truthy (help value)) _).
  assert (Hstart : exists h, start EmptyString = (Fulfilled tt, h)).
  { subst start. destruct (truthy (help value)); simpl; eexists; reflexivity. }
  destruct Hstart as [h Hstart].
  unfold bind at 1. rewrite Hstart.
  pose proof (forEach_outcome (attrs value) h) as Hmid.
  unfold bind at 1.
  destruct (existsb too_longb (attrs value)) eqn:Hex.
  - destruct (forEach (attrs value) h) as [r h']. simpl in Hmid. subst r.
    simpl. apply existsb_exists in Hex as (m & Hin & Hm).
    apply Exists_exists. exists m. split; [assumption|].
    now apply too_longb_spec.
  - destruct Hmid as [body ->].
    assert (Hall : Forall (fun method => ~ too_long method) (attrs value)).
    { apply Forall_forall. intros m Hin Hm.
      apply too_longb_spec in Hm.
      assert (existsb too_longb (attrs value) = true)
        by (apply existsb_exists; eauto).
      congruence. }
    unfold bind, when, get. destruct (truthy (docs value)); simpl; assumption.
Qed.

(** X23. An entry that fits: the line added to the menu starts with
    four spaces and the name, is filled with spaces up to column 47,
    where the first line of the description starts; every further line
    of the description that is not blank is indented by 47 spaces, and a
    line feed ends the entry. *)
Theorem formatHelp_alignment (method : HelpAttr) (helpMenu : string) :
  truthy (attr_name method) = true ->
  truthy (attr_description method) = true ->
  (String.length (text (attr_name method)) <= 43)%nat ->
  exists pad first rest,
    split_lines (text (attr_description method)) = first :: rest
    /\ format_method method helpMenu =
       (Fulfilled tt,
        (helpMenu
         ++ ("    " ++ text (attr_name method) ++ pad)
         ++ join_lines (first :: map indent rest) ++ LF)%string)
    /\ pad = spaces (43 - String.length (text (attr_name method)))%nat
    /\ String.length ("    " ++ text (attr_name method) ++ pad) = 47%nat.
Proof.
  intros Hn Hd Hlen.
  destruct (split_lines (text (attr_description method)))
    as [|first rest] eqn:Hlines.
  { now destruct (split_lines_go_not_nil EmptyString
                    (text (attr_description method))). }
  exists (spaces (43 - String.length (text (attr_name method)))%nat), first, rest.
  split; [reflexivity|]. split; [|split; [reflexivity|]].
  - unfold format_method. rewrite Hn, Hd, Hlines. cbn [andb negb hd tl].
    unfold bind at 1 2. unfold await.
    rewrite (repeat_space_fits _ Hlen).
    unfold bind at 1. rewrite indent_lines_map.
    rewrite join_lines_first.
    unfold ret, when, modify.
    rewrite !JSFacts.append_assoc. reflexivity.
  - rewrite !length_append, length_spaces.
    change (String.length "    ") with 4%nat. lia.
Qed.

(** *** Collections *)

Lemma fold_sort_collection (output : list CollectionNamesWithTypes)
    (sys other : list CollectionNamesWithTypes) :
  fold_left sort_collection output (sys, other) =
  (sys ++ filter (fun coll => startsWith "system." (name coll)) output,
   other
   ++ filter (fun coll => negb (startsWith "system." (name coll))) output).
Proof.
  revert sys other. induction output as [|coll output IH]; intros sys other.
  - simpl. now rewrite !app_nil_r.
  - simpl. destruct (startsWith "system." (name coll)); simpl;
      rewrite IH; now rewrite <- app_assoc.
Qed.

Lemma filter_split_permutation {A : Type} (f : A -> bool) (l : list A) :
  Permutation (filter (fun x => negb (f x)) l ++ filter f l) l.
Proof.
  induction l as [|x l IH]; simpl; [constructor|].
  destruct (f x); simpl.
  - symmetry. apply Permutation_cons_app. now symmetry.
  - now constructor.
Qed.

(** X24. The table of [show collections] holds every collection once:
    first those whose name does not start with [system.], then the system
    collections, each group in the order of the listing, with the
    listing's badges. *)
Theorem formatCollections_rows (output : list CollectionNamesWithTypes)
    (options : FormatOptions) :
  let system := fun coll => startsWith "system." (name coll) in
  map snd (tableEntries output options) =
    map badge (filter (fun coll => negb (system coll)) output)
    ++ map badge (filter system output)
  /\ Permutation (map snd (tableEntries output options)) (map badge output)
  /\ map fst (tableEntries output options) =
       map (fun coll => clr (name coll) ["bold"] options)
         (filter (fun coll => negb (system coll)) output)
       ++ map (fun coll =>
                 ((if colors options then ESC_dim else EmptyString)
                  ++ clr (name coll) ["bold"] options)%string)
            (filter system output).
Proof.
  intros system. unfold tableEntries.
  rewrite fold_sort_collection. simpl.
  rewrite !map_app, !map_map. simpl.
  split; [reflexivity|]. split; [|reflexivity].
  rewrite <- map_app. apply Permutation_map.
  apply (filter_split_permutation system).
Qed.

End Format.

End FormatOutput.

(** *** A help menu *)

Module FormatSamples.

Import FormatOutput.

Definition use : HelpAttr :=
  {| attr_name := Some "use";
     attr_description :=
       Some ("Set current database" ++ JS.LF ++ "for this shell")%string |}.

(** A name of 44 code units. *)
Definition long : HelpAttr :=
  {| attr_name := Some "db.collection.findOneAndReplaceWithOptions()";
     attr_description := Some "too long" |}.

Definition clr (text : string) (style : list string) (colors : bool)
  : string :=
  text.

Definition menu (methods : list HelpAttr) : HelpProperties :=
  {| help := Some "Shell Help"; docs := None; attr := Some methods |}.

End FormatSamples.

Example formatHelp_use :
  FormatOutput.formatHelp bool FormatSamples.clr (fun key => key)
    (FormatSamples.menu [FormatSamples.use]) false =
  Fulfilled
    (JS.LF ++ "  Shell Help:" ++ JS.LF ++ JS.LF
     ++ "    use                                        Set current database"
     ++ JS.LF
     ++ "                                               for this shell"
     ++ JS.LF)%string.
Proof. reflexivity. Qed.

Example formatHelp_long :
  FormatOutput.formatHelp bool FormatSamples.clr (fun key => key)
    (FormatSamples.menu [FormatSamples.use; FormatSamples.long]) false =
  Thrown FormatOutput.RangeError.
Proof. reflexivity. Qed.

Lemma formatHelp_alignment_witness :
  exists pad first rest,
    FormatOutput.split_lines
      (FormatOutput.text (FormatOutput.attr_description FormatSamples.use)) =
    first :: rest
    /\ FormatOutput.format_method FormatSamples.use EmptyString =
       (Fulfilled tt,
        (EmptyString
         ++ ("    "
             ++ FormatOutput.text (FormatOutput.attr_name FormatSamples.use)
             ++ pad)
         ++ FormatOutput.join_lines
              (first :: map FormatOutput.indent rest) ++ JS.LF)%string)
    /\ pad =
       FormatOutput.spaces
         (43 - String.length
                 (FormatOutput.text
                    (FormatOutput.attr_name FormatSamples.use)))%nat
    /\ String.length
         ("    "
          ++ FormatOutput.text (FormatOutput.attr_name FormatSamples.use)
          ++ pad) = 47%nat.
Proof.
  apply (FormatOutput.formatHelp_alignment FormatSamples.use EmptyString).
  - reflexivity.
  - reflexivity.
  - vm_compute. repeat constructor.
Defined.

(** ** Publishing a release (build/src/run-publish.ts) *)

Module RunPublish.

Local Open Scope js_scope.

Inductive Error : Type :=
| Err (message : string)
| Rejection (reason : nat).

Record Tag : Type := { tag_name : string; sha : string }.

Record Repo : Type := { owner : string; repo : string }.

(** A call that is not awaited: it throws, or it returns, possibly a
    promise; what that promise settles to is nobody's concern. *)
Inductive Unawaited : Type :=
| Throws (e : Error)
| Returns (settles : outcome Error unit).

(** How the call itself ends. *)
Definition completion (c : Unawaited) : outcome Error unit :=
  match c with
  | Throws e => Thrown e
  | Returns _ => Fulfilled tt
  end.

(** A string in a condition: set and not empty. *)
Definition truthy (s : option string) : bool :=
  match s with
  | Some (String _ _) => true
  | _ => false
  end.

(** [s || ''] *)
Definition or_empty (s : option string) : string :=
  match s with
  | Some t => t
  | None => EmptyString
  end.

(** A value in a template literal. *)
Definition show (s : option string) : string :=
  match s with
  | Some t => t
  | None => "undefined"
  end.

Section Publish.

Variable PackageInformation : Type.
(** [packageInformation.metadata.name] *)
Variable metadata_name : PackageInformation -> option string.

Record Config : Type := {
  triggeringGitTag : option string;
  revision : option string;
  packageInformation : option PackageInformation;
  project : option string;
  downloadCenterAwsKey : option string;
  downloadCenterAwsSecret : option string;
  version : string
}.

(** What [runPublish] does to the world: the calls of its collaborators
    and the lines on the console.  The two Homebrew repositories handed
    to [publishToHomebrew] are the ones [runPublish] was given. *)
Inductive Effect : Type :=
| ConsoleWarn (message : string)
| ConsoleInfo (message : list string)
| GetMostRecentDraftTagForRelease (releaseVersion : option string)
| ReleaseToBarque (variant packageUrl : string)
| WaitUntilPackagesAreAvailable (urls : list string) (seconds : nat)
| CreateAndPublishDownloadCenterConfig (packageInformation : PackageInformation)
    (awsKey awsSecret : string)
| PromoteRelease (config : Config)
| WriteBuildInfo (config : Config) (kind : string)
| PublishNpmPackages
| PublishToHomebrew (version url : string).

(** The collaborators: what each awaited call settles to, and how the
    call of [publishNpmPackages], which is not awaited, ends. *)
Variable ALL_BUILD_VARIANTS : list string.
Variable shouldDoPublicRelease : Config -> bool.
Variable getReleaseVersionFromTag : option string -> option string.
Variable getMostRecentDraftTagForRelease :
  option string -> outcome Error (option Tag).
(** [getPackageFile(variant, {...packageInformation, metadata:
    {..., version}}).path] *)
Variable getPackageFile : string -> PackageInformation -> string -> string.
Variable getEvergreenArtifactUrl :
  option string -> string -> string -> string.
Variable releaseToBarque : string -> string -> outcome Error (list string).
Variable waitUntilPackagesAreAvailable :
  list string -> nat -> outcome Error unit.
Variable createAndPublishDownloadCenterConfig :
  PackageInformation -> string -> string -> outcome Error unit.
Variable promoteRelease : Config -> outcome Error string.
Variable writeBuildInfo : Config -> string -> outcome Error unit.
Variable publishNpmPackages : Unawaited.
Variable publishToHomebrew : string -> string -> outcome Error unit.

Definition console (x : Effect) : M (list Effect) Error unit :=
  modify (fun log => log ++ [x]).

(** A call of a collaborator, awaited. *)
Definition call {A : Type} (x : Effect) (settles : outcome Error A)
  : M (list Effect) Error A :=
  modify (fun log => log ++ [x]) ;; await settles.

(** A call of a collaborator whose value is dropped. *)
Definition call_unawaited (x : Effect) (ends : Unawaited)
  : M (list Effect) Error unit :=
  modify (fun log => log ++ [x]) ;;
  match ends with
  | Throws e => throw e
  | Returns _ => ret tt
  end.

Fixpoint print_urls (urls : list string) : M (list Effect) Error unit :=
  match urls with
  | [] => ret tt
  | url :: rest =>
      console (ConsoleInfo [(" -> " ++ url)%string]) ;; print_urls rest
  end.

Definition packageUrl (project : option string)
    (releaseVersion mostRecentDraftTag : string)
    (packageInformation : PackageInformation) (variant : string) : string :=
  getEvergreenArtifactUrl project mostRecentDraftTag
    (getPackageFile variant packageInformation releaseVersion).

(** The loop over the build variants. *)
Fixpoint release_variants (variants : list string)
    (project : option string) (releaseVersion mostRecentDraftTag : string)
    (packageInformation : PackageInformation)
    (publishedPackages : list string)
  : M (list Effect) Error (list string) :=
  match variants with
  | [] => ret publishedPackages
  | variant :: rest =>
      let url := packageUrl project releaseVersion mostRecentDraftTag
                   packageInformation variant in
      console (ConsoleInfo
                 [("mongosh: Considering publishing " ++ variant
                   ++ " artifact to barque " ++ url)%string]) ;;
      packageUrls <-
        call (ReleaseToBarque variant url) (releaseToBarque variant url) ;;
      print_urls packageUrls ;;
      release_variants rest project releaseVersion mostRecentDraftTag
        packageInformation (publishedPackages ++ packageUrls)
  end.

Definition publishArtifactsToBarque (project : option string)
    (releaseVersion mostRecentDraftTag : string)
    (packageInformation : PackageInformation)
  : M (list Effect) Error unit :=
  publishedPackages <-
    release_variants ALL_BUILD_VARIANTS project releaseVersion
      mostRecentDraftTag packageInformation [] ;;
  call (WaitUntilPackagesAreAvailable publishedPackages 300)
    (waitUntilPackagesAreAvailable publishedPackages 300) ;;
  console (ConsoleInfo ["mongosh: Submitting to barque complete"]).

Definition runPublish (config : Config) (mongoshGithubRepo : Repo)
  : M (list Effect) Error unit :=
  if negb (shouldDoPublicRelease config)
  then
    console (ConsoleWarn
      "mongosh: Not triggering publish - configuration does not match a public release!")
  else
    let releaseVersion :=
      getReleaseVersionFromTag (triggeringGitTag config) in
    latestDraftTag <-
      call (GetMostRecentDraftTagForRelease releaseVersion)
        (getMostRecentDraftTagForRelease releaseVersion) ;;
    match latestDraftTag, truthy releaseVersion with
    | Some latestDraftTag, true =>
        if negb (match revision config with
                 | Some r => String.eqb (sha latestDraftTag) r
                 | None => false
                 end)
        then throw (Err ("Version mismatch - latest draft tag was for revision "
                         ++ sha latestDraftTag
                         ++ ", current revision is "
                         ++ show (revision config)))
        else
          match packageInformation config with
          | Some info =>
              if negb (truthy (metadata_name info))
              then throw (Err
                "Missing package name from config.packageInformation.metadata")
              else
                console (ConsoleInfo
                  ["mongosh: Re-using artifacts from most recent draft tag";
                   tag_name latestDraftTag]) ;;
                publishArtifactsToBarque (project config)
                  (or_empty releaseVersion) (tag_name latestDraftTag) info ;;
                call (CreateAndPublishDownloadCenterConfig info
                        (or_empty (downloadCenterAwsKey config))
                        (or_empty (downloadCenterAwsSecret config)))
                  (createAndPublishDownloadCenterConfig info
                     (or_empty (downloadCenterAwsKey config))
                     (or_empty (downloadCenterAwsSecret config))) ;;
                call (PromoteRelease config) (promoteRelease config) ;;
                call (WriteBuildInfo config "packaged")
                  (writeBuildInfo config "packaged") ;;
                call_unawaited PublishNpmPackages publishNpmPackages ;;
                let url :=
                  ("https://github.com/" ++ owner mongoshGithubRepo ++ "/"
                   ++ repo mongoshGithubRepo ++ "/releases/tag/v"
                   ++ version config)%string in
                call (PublishToHomebrew (version config) url)
                  (publishToHomebrew (version config) url) ;;
                console (ConsoleInfo ["mongosh: finished release process."])
          | None =>
              throw (Err
                "Missing package name from config.packageInformation.metadata")
          end
    | _, _ =>
        throw (Err ("Could not find prior draft tag for release version: "
                    ++ show releaseVersion))
    end.

(** *** The steps of a release *)

Inductive Step : Type :=
| Lookup | Release | Wait | DownloadCenter | Promote | BuildInfo | Npm
| Homebrew.

Definition step_of (x : Effect) : option Step :=
  match x with
  | ConsoleWarn _ | ConsoleInfo _ => None
  | GetMostRecentDraftTagForRelease _ => Some Lookup
  | ReleaseToBarque _ _ => Some Release
  | WaitUntilPackagesAreAvailable _ _ => Some Wait
  | CreateAndPublishDownloadCenterConfig _ _ _ => Some DownloadCenter
  | PromoteRelease _ => Some Promote
  | WriteBuildInfo _ _ => Some BuildInfo
  | PublishNpmPackages => Some Npm
  | PublishToHomebrew _ _ => Some Homebrew
  end.

(** The calls among the effects, as steps. *)
Fixpoint steps (l : list Effect) : list Step :=
  match l with
  | [] => []
  | x :: l' =>
      match step_of x with
      | Some s => s :: steps l'
      | None => steps l'
      end
  end.

(** The steps of a complete release. *)
Definition plan : list Step :=
  Lookup :: repeat Release (length ALL_BUILD_VARIANTS)
  ++ [Wait; DownloadCenter; Promote; BuildInfo; Npm; Homebrew].

(** A step that puts something out into the world. *)
Definition publishes (x : Effect) : bool :=
  match step_of x with
  | None | Some Lookup => false
  | _ => true
  end.

(** What [runPublish] checks before it publishes anything. *)
Definition cleared (config : Config) : Prop :=
  shouldDoPublicRelease config = true
  /\ exists releaseVersion latestDraftTag info,
       getReleaseVersionFromTag (triggeringGitTag config) =
         Some releaseVersion
       /\ releaseVersion <> EmptyString
       /\ getMostRecentDraftTagForRelease (Some releaseVersion) =
            Fulfilled (Some latestDraftTag)
       /\ revision config = Some (sha latestDraftTag)
       /\ packageInformation config = Some info
       /\ truthy (metadata_name info) = true.

Definition is_fulfilled {A : Type} (r : outcome Error A) : bool :=
  match r with Fulfilled _ => true | _ => false end.

Definition released (project : option string)
    (releaseVersion mostRecentDraftTag : string)
    (packageInformation : PackageInformation) (variant : string)
  : list string :=
  match releaseToBarque variant
          (packageUrl project releaseVersion mostRecentDraftTag
             packageInformation variant) with
  | Fulfilled urls => urls
  | _ => []
  end.

Lemma steps_app (l1 l2 : list Effect) :
  steps (l1 ++ l2) = steps l1 ++ steps l2.
Proof.
  induction l1 as [|x l1 IH]; simpl; [reflexivity|].
  destruct (step_of x); simpl; now rewrite IH.
Qed.

Definition url_lines (urls : list string) : list Effect :=
  map (fun url => ConsoleInfo [(" -> " ++ url)%string]) urls.

Lemma print_urls_effects (urls : list string) (log : list Effect) :
  print_urls urls log = (Fulfilled tt, log ++ url_lines urls).
Proof.
  revert log. induction urls as [|url urls IH]; intros log.
  - simpl. unfold ret. now rewrite app_nil_r.
  - cbn [print_urls url_lines map]. unfold bind, console, modify.
    rewrite IH. now rewrite <- app_assoc.
Qed.

Lemma url_lines_silent (urls : list string) :
  Forall (fun x => step_of x = None) (url_lines urls).
Proof. induction urls; simpl; constructor; auto. Qed.

Lemma steps_silent (l : list Effect) :
  Forall (fun x => step_of x = None) l -> steps l = [].
Proof.
  induction 1 as [|x l Hx _ IH]; simpl; [reflexivity|]. now rewrite Hx.
Qed.

(** One round of the loop. *)
Definition considering (project : option string)
    (releaseVersion tag : string) (info : PackageInformation)
    (variant : string) : list Effect :=
  let url := packageUrl project releaseVersion tag info variant in
  [ConsoleInfo
     [("mongosh: Considering publishing " ++ variant
       ++ " artifact to barque " ++ url)%string];
   ReleaseToBarque variant url].

Lemma release_variants_step (v : string) (variants : list string)
    (project : option string) (releaseVersion tag : string)
    (info : PackageInformation) (published : list string)
    (log : list Effect) :
  release_variants (v :: variants) project releaseVersion tag info
    published log =
  match releaseToBarque v (packageUrl project releaseVersion tag info v) with
  | Fulfilled urls =>
      release_variants variants project releaseVersion tag info
        (published ++ urls)
        (log ++ considering project releaseVersion tag info v
             ++ url_lines urls)
  | Thrown err =>
      (Thrown err, log ++ considering project releaseVersion tag info v)
  | Pending =>
      (Pending, log ++ considering project releaseVersion tag info v)
  end.
Proof.
  cbn [release_variants]. unfold considering.
  unfold bind at 1. unfold console, modify.
  unfold bind at 1. unfold call, bind at 1, modify, await.
  destruct (releaseToBarque v (packageUrl project releaseVersion tag info v))
    as [urls|err|]; repeat rewrite <- app_assoc; try reflexivity.
  unfold bind at 1. rewrite print_urls_effects.
  repeat rewrite <- app_assoc. reflexivity.
Qed.

(** The call was fulfilled, or for the call that is not awaited, it
    returned; a line on the console counts as such. *)
Definition succeeded (x : Effect) : bool :=
  match x with
  | ConsoleWarn _ | ConsoleInfo _ => true
  | GetMostRecentDraftTagForRelease v =>
      is_fulfilled (getMostRecentDraftTagForRelease v)
  | ReleaseToBarque variant url => is_fulfilled (releaseToBarque variant url)
  | WaitUntilPackagesAreAvailable urls seconds =>
      is_fulfilled (waitUntilPackagesAreAvailable urls seconds)
  | CreateAndPublishDownloadCenterConfig info awsKey awsSecret =>
      is_fulfilled (createAndPublishDownloadCenterConfig info awsKey awsSecret)
  | PromoteRelease config => is_fulfilled (promoteRelease config)
  | WriteBuildInfo config kind => is_fulfilled (writeBuildInfo config kind)
  | PublishNpmPackages => is_fulfilled (completion publishNpmPackages)
  | PublishToHomebrew v url => is_fulfilled (publishToHomebrew v url)
  end.

Definition prefix_of (l whole : list Step) : Prop :=
  exists rest, whole = l ++ rest.

(** What a part of the release leaves in the log: steps of [part] in
    order, each taken after the one before was fulfilled, and all of them
    when the part is fulfilled. *)
Definition carries_out {A : Type} (r : outcome Error A)
    (added : list Effect) (part : list Step) : Prop :=
  prefix_of (steps added) part
  /\ Forall (fun x => succeeded x = true) (removelast added)
  /\ (is_fulfilled r = true ->
      steps added = part /\ Forall (fun x => succeeded x = true) added).

Lemma url_lines_succeeded (urls : list string) :
  Forall (fun x => succeeded x = true) (url_lines urls).
Proof. induction urls; simpl; constructor; auto. Qed.

Lemma removelast_succeeded (l : list Effect) :
  Forall (fun x => succeeded x = true) l ->
  Forall (fun x => succeeded x = true) (removelast l).
Proof.
  induction 1 as [|x l Hx Hl IH]; simpl; [constructor|].
  destruct l; [constructor|]. constructor; assumption.
Qed.

(** A part followed by another. *)
Lemma carries_out_then {A B : Type} (r1 : outcome Error A)
    (r2 : outcome Error B) (added1 added2 : list Effect)
    (part1 part2 : list Step) :
  carries_out r1 added1 part1 ->
  is_fulfilled r1 = true ->
  carries_out r2 added2 part2 ->
  carries_out r2 (added1 ++ added2) (part1 ++ part2).
Proof.
  intros (_ & _ & H1) Hr1 (Hp2 & Hl2 & H2).
  destruct (H1 Hr1) as [Hs1 Hall1].
  split; [|split].
  - destruct Hp2 as [rest ->]. exists rest.
    now rewrite steps_app, Hs1, app_assoc.
  - destruct added2 as [|x added2].
    + rewrite app_nil_r. now apply removelast_succeeded.
    + rewrite removelast_app by discriminate.
      apply Forall_app. split; assumption.
  - intros Hr2. destruct (H2 Hr2) as [Hs2 Hall2]. split.
    + now rewrite steps_app, Hs1, Hs2.
    + apply Forall_app. split; assumption.
Qed.

(** A part that stops. *)
Lemma carries_out_stop {A B : Type} (r1 : outcome Error A)
    (r2 : outcome Error B) (added : list Effect) (part1 part2 : list Step) :
  carries_out r1 added part1 ->
  is_fulfilled r2 = false ->
  carries_out r2 added (part1 ++ part2).
Proof.
  intros ([rest ->] & Hl & _) Hr2. split; [|split].
  - exists (rest ++ part2). now rewrite app_assoc.
  - assumption.
  - rewrite Hr2. discriminate.
Qed.

(** One call. *)
Lemma carries_out_call {A : Type} (x : Effect) (s : Step)
    (r : outcome Error A) :
  step_of x = Some s ->
  succeeded x = is_fulfilled r ->
  carries_out r [x] [s].
Proof.
  intros Hs Hx. split; [|split].
  - exists (if is_fulfilled r then [] else []). simpl. rewrite Hs.
    now destruct (is_fulfilled r).
  - constructor.
  - intros Hr. simpl. rewrite Hs. split; [reflexivity|].
    constructor; [congruence | constructor].
Qed.

Lemma call_run {A : Type} (x : Effect) (r : outcome Error A)
    (log : list Effect) :
  call x r log = (r, log ++ [x]).
Proof. unfold call, bind, modify, await. now destruct r. Qed.

Lemma call_unawaited_run (x : Effect) (ends : Unawaited)
    (log : list Effect) :
  call_unawaited x ends log = (completion ends, log ++ [x]).
Proof. unfold call_unawaited, bind, modify. now destruct ends. Qed.

(** The loop: the variants are released in order until one fails, and
    the loop returns what those calls returned, in that order. *)
Lemma release_variants_effects (variants : list string)
    (project : option string) (releaseVersion tag : string)
    (info : PackageInformation) (published : list string)
    (log : list Effect) :
  exists r added,
    release_variants variants project releaseVersion tag info published log =
    (r, log ++ added)
    /\ carries_out r added (repeat Release (length variants))
    /\ Forall (fun x => step_of x = None \/ step_of x = Some Release) added
    /\ match r with
       | Fulfilled urls =>
           urls =
           published
           ++ flat_map (released project releaseVersion tag info) variants
           /\ Forall (fun v =>
                is_fulfilled
                  (releaseToBarque v
                     (packageUrl project releaseVersion tag info v)) = true)
                variants
       | _ => True
       end.
Proof.
  revert published log.
  induction variants as [|v variants IH]; intros published log.
  - exists (Fulfilled published), []. simpl. rewrite !app_nil_r.
    split; [reflexivity|].
    split; [|split; [constructor | split; [reflexivity | constructor]]].
    split; [now exists []|]. split; [constructor|].
    intros _. split; [reflexivity | constructor].
  - rewrite release_variants_step. cbn [flat_map]. unfold released at 1.
    assert (Hconsidering :
              forall r : outcome Error (list string),
                is_fulfilled r =
                is_fulfilled
                  (releaseToBarque v
                     (packageUrl project releaseVersion tag info v)) ->
                carries_out r (considering project releaseVersion tag info v)
                  [Release]).
    { intros r Hr. unfold considering. split; [|split].
      - now exists [].
      - repeat constructor.
      - intros Hf. split; [reflexivity|].
        repeat constructor. simpl. congruence. }
    assert (Hkind :
              Forall (fun x => step_of x = None \/ step_of x = Some Release)
                (considering project releaseVersion tag info v)).
    { unfold considering. constructor; [now left|].
      constructor; [now right | constructor]. }
    change (repeat Release (length (v :: variants)))
      with ([Release] ++ repeat Release (length variants)).
    destruct (releaseToBarque v (packageUrl project releaseVersion tag info v))
      as [urls|err|] eqn:Hv.
    + destruct (IH (published ++ urls)
                  (log ++ considering project releaseVersion tag info v
                       ++ url_lines urls))
        as (r & added & Heq & Hcarry & Hkinds & Hres).
      rewrite Heq.
      exists r, ((considering project releaseVersion tag info v
                  ++ url_lines urls) ++ added).
      split; [now rewrite <- !app_assoc|]. split; [|split].
      * apply (carries_out_then (Fulfilled urls) _ _ _ [Release]);
          [|reflexivity|exact Hcarry].
        specialize (Hconsidering (Fulfilled urls) eq_refl).
        destruct Hconsidering as (Hp & Hl & Hf).
        destruct (Hf eq_refl) as [Hs Hall].
        split; [|split].
        -- exists []. rewrite steps_app, Hs.
           now rewrite (steps_silent _ (url_lines_silent urls)).
        -- apply removelast_succeeded. apply Forall_app.
           split; [assumption | apply url_lines_succeeded].
        -- intros _. split.
           ++ rewrite steps_app, Hs.
              now rewrite (steps_silent _ (url_lines_silent urls)).
           ++ apply Forall_app.
              split; [assumption | apply url_lines_succeeded].
      * apply Forall_app. split; [|assumption].
        apply Forall_app. split; [assumption|].
        eapply Forall_impl; [|apply url_lines_silent].
        intros x Hx. now left.
      * destruct r as [all|err|]; auto.
        destruct Hres as [-> Hall]. split; [now rewrite <- app_assoc|].
        constructor; [now rewrite Hv | assumption].
    + exists (Thrown err), (considering project releaseVersion tag info v).
      split; [reflexivity|]. split; [|split; [assumption | exact I]].
      apply (carries_out_stop (@Thrown Error (list string) err));
        [now apply Hconsidering | reflexivity].
    + exists Pending, (considering project releaseVersion tag info v).
      split; [reflexivity|]. split; [|split; [assumption | exact I]].
      apply (carries_out_stop (@Pending Error (list string)));
        [now apply Hconsidering | reflexivity].
Qed.

Lemma carries_out_failed {A : Type} (r : outcome Error A) (x : Effect)
    (s : Step) (rest : list Step) :
  is_fulfilled r = false ->
  step_of x = Some s ->
  carries_out r [x] (s :: rest).
Proof.
  intros Hr Hs. split; [|split].
  - exists rest. simpl. now rewrite Hs.
  - constructor.
  - rewrite Hr. discriminate.
Qed.

(** What [publishArtifactsToBarque] adds to the log. *)
Lemma publishArtifactsToBarque_effects (project : option string)
    (releaseVersion tag : string) (info : PackageInformation)
    (log : list Effect) :
  exists r added,
    publishArtifactsToBarque project releaseVersion tag info log =
    (r, log ++ added)
    /\ carries_out r added
         (repeat Release (length ALL_BUILD_VARIANTS) ++ [Wait])
    /\ Forall (fun x => step_of x = None \/ publishes x = true) added
    /\ (forall urls seconds,
          In (WaitUntilPackagesAreAvailable urls seconds) added ->
          seconds = 300
          /\ urls =
             flat_map (released project releaseVersion tag info)
               ALL_BUILD_VARIANTS
          /\ Forall (fun v =>
               is_fulfilled
                 (releaseToBarque v
                    (packageUrl project releaseVersion tag info v)) = true)
               ALL_BUILD_VARIANTS).
Proof.
  unfold publishArtifactsToBarque. unfold bind at 1.
  destruct (release_variants_effects ALL_BUILD_VARIANTS project
              releaseVersion tag info [] log)
    as (r & added & Heq & Hcarry & Hkind & Hres).
  rewrite Heq.
  assert (Hwait : forall x, In x added ->
            forall u n, x <> WaitUntilPackagesAreAvailable u n).
  { intros x Hx u n ->. rewrite Forall_forall in Hkind.
    destruct (Hkind _ Hx); discriminate. }
  assert (Hkind' : Forall (fun x => step_of x = None \/ publishes x = true)
                     added).
  { eapply Forall_impl; [|exact Hkind].
    intros x [Hx|Hx]; [now left|]. right. unfold publishes. now rewrite Hx. }
  destruct r as [urls|err|].
  - unfold bind at 1. rewrite call_run.
    destruct Hres as [Hurls Hreleased]. simpl in Hurls.
    destruct (waitUntilPackagesAreAvailable urls 300) as [[]|err|] eqn:Hw.
    + exists (Fulfilled tt),
        (added ++ [WaitUntilPackagesAreAvailable urls 300;
                   ConsoleInfo ["mongosh: Submitting to barque complete"]]).
      unfold console, modify.
      split; [now rewrite <- !app_assoc|]. split; [|split].
      * apply (carries_out_then (Fulfilled urls) (Fulfilled tt));
          [assumption | reflexivity |].
        split; [now exists []|]. split.
        -- repeat constructor. simpl. now rewrite Hw.
        -- intros _. split; [reflexivity|].
           repeat constructor. simpl. now rewrite Hw.
      * apply Forall_app. split; [assumption|].
        constructor; [now right|]. constructor; [now left | constructor].
      * intros u n Hin. apply in_app_or in Hin as [Hin|Hin].
        -- now destruct (Hwait _ Hin u n).
        -- destruct Hin as [[= <- <-]|[[=]|[]]]. subst urls. auto.
    + exists (Thrown err), (added ++ [WaitUntilPackagesAreAvailable urls 300]).
      split; [now rewrite <- !app_assoc|]. split; [|split].
      * apply (carries_out_then (Fulfilled urls) (@Thrown Error unit err));
          [assumption | reflexivity |].
        now apply carries_out_failed.
      * apply Forall_app. split; [assumption|].
        constructor; [now right | constructor].
      * intros u n Hin. apply in_app_or in Hin as [Hin|Hin].
        -- now destruct (Hwait _ Hin u n).
        -- destruct Hin as [[= <- <-]|[]]. subst urls. auto.
    + exists Pending, (added ++ [WaitUntilPackagesAreAvailable urls 300]).
      split; [now rewrite <- !app_assoc|]. split; [|split].
      * apply (carries_out_then (Fulfilled urls) (@Pending Error unit));
          [assumption | reflexivity |].
        now apply carries_out_failed.
      * apply Forall_app. split; [assumption|].
        constructor; [now right | constructor].
      * intros u n Hin. apply in_app_or in Hin as [Hin|Hin].
        -- now destruct (Hwait _ Hin u n).
        -- destruct Hin as [[= <- <-]|[]]. subst urls. auto.
  - exists (Thrown err), added. split; [reflexivity|]. split; [|split].
    + apply (carries_out_stop (@Thrown Error (list string) err));
        [assumption | reflexivity].
    + assumption.
    + intros u n Hin. now destruct (Hwait _ Hin u n).
  - exists Pending, added. split; [reflexivity|]. split; [|split].
    + apply (carries_out_stop (@Pending Error (list string)));
        [assumption | reflexivity].
    + assumption.
    + intros u n Hin. now destruct (Hwait _ Hin u n).
Qed.

(** What follows the artifacts. *)
Definition after_barque (config : Config) (mongoshGithubRepo : Repo)
    (info : PackageInformation) : M (list Effect) Error unit :=
  call (CreateAndPublishDownloadCenterConfig info
          (or_empty (downloadCenterAwsKey config))
          (or_empty (downloadCenterAwsSecret config)))
    (createAndPublishDownloadCenterConfig info
       (or_empty (downloadCenterAwsKey config))
       (or_empty (downloadCenterAwsSecret config))) ;;
  call (PromoteRelease config) (promoteRelease config) ;;
  call (WriteBuildInfo config "packaged") (writeBuildInfo config "packaged") ;;
  call_unawaited PublishNpmPackages publishNpmPackages ;;
  let url :=
    ("https://github.com/" ++ owner mongoshGithubRepo ++ "/"
     ++ repo mongoshGithubRepo ++ "/releases/tag/v"
     ++ version config)%string in
  call (PublishToHomebrew (version config) url)
    (publishToHomebrew (version config) url) ;;
  console (ConsoleInfo ["mongosh: finished release process."]).

(** What [runPublish] does once its checks have passed. *)
Definition release_steps (config : Config) (mongoshGithubRepo : Repo)
    (releaseVersion : string) (latestDraftTag : Tag)
    (info : PackageInformation) : M (list Effect) Error unit :=
  console (ConsoleInfo
             ["mongosh: Re-using artifacts from most recent draft tag";
              tag_name latestDraftTag]) ;;
  publishArtifactsToBarque (project config) releaseVersion
    (tag_name latestDraftTag) info ;;
  after_barque config mongoshGithubRepo info.

Ltac settled :=
  repeat first [apply Forall_nil | apply Forall_cons];
  cbn [succeeded is_fulfilled]; try reflexivity;
  repeat match goal with
         | H : ?o = Fulfilled _ |- context [is_fulfilled ?o] => rewrite H
         end;
  reflexivity.

Ltac carried :=
  split;
  [ eexists; cbn [steps step_of app]; reflexivity
  | split;
    [ cbn [removelast]; settled
    | intros Hf;
      first [discriminate Hf | split; [reflexivity | settled]] ] ].

Lemma after_barque_effects (config : Config) (mongoshGithubRepo : Repo)
    (info : PackageInformation) (log : list Effect) :
  exists r added,
    after_barque config mongoshGithubRepo info log = (r, log ++ added)
    /\ carries_out r added [DownloadCenter; Promote; BuildInfo; Npm; Homebrew]
    /\ Forall (fun x => step_of x = None \/ publishes x = true) added.
Proof.
  unfold after_barque.
  unfold bind at 1. rewrite call_run.
  destruct (createAndPublishDownloadCenterConfig _ _ _) as [[]|e|] eqn:H1;
    [|eexists _, [_]; split; [reflexivity|]; split;
      [carried | repeat constructor; now right]..].
  unfold bind at 1. rewrite call_run.
  destruct (promoteRelease config) as [u|e|] eqn:H2;
    [|rewrite <- !app_assoc; cbn [app];
      eexists _, _; split; [reflexivity|]; split;
      [carried | repeat (constructor; [now right|]); constructor]..].
  unfold bind at 1. rewrite call_run.
  destruct (writeBuildInfo config "packaged") as [[]|e|] eqn:H3;
    [|rewrite <- !app_assoc; cbn [app];
      eexists _, _; split; [reflexivity|]; split;
      [carried | repeat (constructor; [now right|]); constructor]..].
  unfold bind at 1. rewrite call_unawaited_run.
  destruct (completion publishNpmPackages) as [[]|e|] eqn:H4;
    [|rewrite <- !app_assoc; cbn [app];
      eexists _, _; split; [reflexivity|]; split;
      [carried | repeat (constructor; [now right|]); constructor]..].
  cbv zeta. unfold bind at 1. rewrite call_run.
  destruct (publishToHomebrew _ _) as [[]|e|] eqn:H5;
    [|rewrite <- !app_assoc; cbn [app];
      eexists _, _; split; [reflexivity|]; split;
      [carried | repeat (constructor; [now right|]); constructor]..].
  unfold console, modify. rewrite <- !app_assoc. cbn [app].
  eexists _, _. split; [reflexivity|]. split.
  - carried.
  - repeat (constructor; [now right|]). constructor; [now left|constructor].
Qed.

Lemma release_steps_effects (config : Config) (mongoshGithubRepo : Repo)
    (releaseVersion : string) (latestDraftTag : Tag)
    (info : PackageInformation) (log : list Effect) :
  exists r added,
    release_steps config mongoshGithubRepo releaseVersion latestDraftTag info
      log = (r, log ++ added)
    /\ carries_out r added
         (repeat Release (length ALL_BUILD_VARIANTS)
          ++ [Wait; DownloadCenter; Promote; BuildInfo; Npm; Homebrew])
    /\ Forall (fun x => step_of x = None \/ publishes x = true) added.
Proof.
  unfold release_steps. unfold bind at 1. unfold console at 1, modify at 1.
  unfold bind at 1.
  destruct (publishArtifactsToBarque_effects (project config) releaseVersion
              (tag_name latestDraftTag) info
              (log ++ [ConsoleInfo
                         ["mongosh: Re-using artifacts from most recent draft tag";
                          tag_name latestDraftTag]]))
    as (r1 & added1 & Heq1 & Hcarry1 & Hkind1 & _).
  rewrite Heq1.
  assert (Hfirst : forall r : outcome Error unit,
            is_fulfilled r = is_fulfilled r1 ->
            carries_out r
              (ConsoleInfo
                 ["mongosh: Re-using artifacts from most recent draft tag";
                  tag_name latestDraftTag] :: added1)
              (repeat Release (length ALL_BUILD_VARIANTS) ++ [Wait])).
  { intros r Hr. destruct Hcarry1 as (Hp & Hl & Hf).
    split; [assumption|]. split.
    - destruct added1; [constructor|]. constructor; [reflexivity|assumption].
    - rewrite Hr. intros H. destruct (Hf H) as [Hs Hall].
      split; [assumption|]. constructor; [reflexivity|assumption]. }
  change (repeat Release (length ALL_BUILD_VARIANTS)
          ++ [Wait; DownloadCenter; Promote; BuildInfo; Npm; Homebrew])
    with (repeat Release (length ALL_BUILD_VARIANTS)
          ++ [Wait] ++ [DownloadCenter; Promote; BuildInfo; Npm; Homebrew]).
  rewrite app_assoc.
  destruct r1 as [[]|err|].
  - destruct (after_barque_effects config mongoshGithubRepo info
                ((log ++ [ConsoleInfo
                            ["mongosh: Re-using artifacts from most recent draft tag";
                             tag_name latestDraftTag]]) ++ added1))
      as (r2 & added2 & Heq2 & Hcarry2 & Hkind2).
    rewrite Heq2.
    exists r2, ((ConsoleInfo
                   ["mongosh: Re-using artifacts from most recent draft tag";
                    tag_name latestDraftTag] :: added1) ++ added2).
    split; [now rewrite <- !app_assoc|]. split.
    + apply (carries_out_then (Fulfilled tt) r2);
        [now apply Hfirst | reflexivity | assumption].
    + apply Forall_app. split; [|assumption].
      constructor; [now left | assumption].
  - exists (Thrown err),
      (ConsoleInfo
         ["mongosh: Re-using artifacts from most recent draft tag";
          tag_name latestDraftTag] :: added1).
    split; [now rewrite <- !app_assoc|]. split.
    + apply (carries_out_stop (@Thrown Error unit err));
        [now apply Hfirst | reflexivity].
    + constructor; [now left | assumption].
  - exists Pending,
      (ConsoleInfo
         ["mongosh: Re-using artifacts from most recent draft tag";
          tag_name latestDraftTag] :: added1).
    split; [now rewrite <- !app_assoc|]. split.
    + apply (carries_out_stop (@Pending Error unit));
        [now apply Hfirst | reflexivity].
    + constructor; [now left | assumption].
Qed.

(** The checks of [runPublish]: either they pass and the release steps
    run, or a warning or the search for the draft tag is all that
    happens. *)
Lemma runPublish_checks (config : Config) (mongoshGithubRepo : Repo)
    (log : list Effect) :
  (exists releaseVersion latestDraftTag info,
     cleared config
     /\ getReleaseVersionFromTag (triggeringGitTag config) =
          Some releaseVersion
     /\ getMostRecentDraftTagForRelease (Some releaseVersion) =
          Fulfilled (Some latestDraftTag)
     /\ runPublish config mongoshGithubRepo log =
        release_steps config mongoshGithubRepo releaseVersion latestDraftTag
          info
          (log ++ [GetMostRecentDraftTagForRelease (Some releaseVersion)]))
  \/ (exists r x,
        runPublish config mongoshGithubRepo log = (r, log ++ [x])
        /\ publishes x = false
        /\ if shouldDoPublicRelease config
           then is_fulfilled r = false /\ step_of x = Some Lookup
           else r = Fulfilled tt /\ step_of x = None).
Proof.
  unfold runPublish.
  destruct (shouldDoPublicRelease config) eqn:Hshould;
    cbv beta iota delta [negb].
  2: { right. eexists _, _. unfold console, modify.
       split; [reflexivity|]. split; [reflexivity|]. now split. }
  destruct (getReleaseVersionFromTag (triggeringGitTag config))
    as [rv|] eqn:Hrv;
    destruct (getMostRecentDraftTagForRelease _) as [[tag|]|err|] eqn:Hlookup;
    try destruct rv as [|c rv];
    cbv beta iota delta [bind call modify await throw truthy];
    try (right; eexists _, _; split; [reflexivity|]; split; [reflexivity|];
         split; reflexivity).
  destruct (revision config) as [rev|] eqn:Hrev;
    [destruct (String.eqb (sha tag) rev) eqn:Hsha|];
    cbv beta iota delta [negb throw];
    try (right; eexists _, _; split; [reflexivity|]; split; [reflexivity|];
         split; reflexivity).
  apply String.eqb_eq in Hsha. subst rev.
  destruct (packageInformation config) as [info|] eqn:Hinfo;
    [destruct (metadata_name info) as [[|c' name]|] eqn:Hname|];
    cbv beta iota delta [negb throw];
    try (right; eexists _, _; split; [reflexivity|]; split; [reflexivity|];
         split; reflexivity).
  left. exists (String c rv), tag, info.
  split; [|split; [reflexivity | split; [assumption | reflexivity]]].
  split; [assumption|].
  exists (String c rv), tag, info. rewrite Hname.
  repeat split; auto. discriminate.
Qed.

(** X25. [runPublish] publishes nothing unless the configuration is a
    public release, the triggering tag gives a release version, a draft
    tag exists for that version whose commit is the configured revision,
    and the package information has a name: without those only the
    warning is printed or the draft tag is looked up. *)
Theorem nothing_published_unchecked (config : Config)
    (mongoshGithubRepo : Repo) (log : list Effect) (x : Effect) :
  In x (snd (runPublish config mongoshGithubRepo log)) ->
  publishes x = true ->
  In x log \/ cleared config.
Proof.
  intros Hin Hx.
  destruct (runPublish_checks config mongoshGithubRepo log)
    as [(rv & tag & info & Hc & _)|(r & y & Heq & Hy & _)].
  - now right.
  - left. rewrite Heq in Hin. simpl in Hin.
    apply in_app_or in Hin as [Hin|[<-|[]]]; [assumption | congruence].
Qed.

(** X26. The steps of a release are taken in one order: the draft tag
    is looked up, every build variant is released to barque, the packages
    are waited for, the download center configuration is published, the
    GitHub release is promoted, the build info is written, the npm packages
    are published and Homebrew is updated.  A step is taken only when
    every awaited call before it was fulfilled and, after the npm step,
    when [publishNpmPackages()] returned: that call is not awaited, so
    what it returns does not hold up the release.  [runPublish] on a
    public release is fulfilled only when all steps were taken and ended
    so; when the configuration is no public release it is fulfilled after
    the warning alone. *)
Theorem release_in_order (config : Config) (mongoshGithubRepo : Repo)
    (log : list Effect) :
  exists added,
    snd (runPublish config mongoshGithubRepo log) = log ++ added
    /\ if shouldDoPublicRelease config
       then carries_out (fst (runPublish config mongoshGithubRepo log))
              added plan
       else fst (runPublish config mongoshGithubRepo log) = Fulfilled tt
            /\ steps added = [].
Proof.
  destruct (runPublish_checks config mongoshGithubRepo log)
    as [(rv & tag & info & [Hshould _] & Hrv & Hlookup & Heq)
       |(r & y & Heq & Hy & Hcase)].
  - rewrite Heq, Hshould.
    destruct (release_steps_effects config mongoshGithubRepo rv tag info
                (log ++ [GetMostRecentDraftTagForRelease (Some rv)]))
      as (r & added & -> & Hcarry & _).
    exists ([GetMostRecentDraftTagForRelease (Some rv)] ++ added).
    split; [simpl; now rewrite <- app_assoc|]. cbn [fst].
    apply (carries_out_then
             (getMostRecentDraftTagForRelease (Some rv)) r _ _ [Lookup]);
      [|now rewrite Hlookup|assumption].
    apply carries_out_call; reflexivity.
  - rewrite Heq. exists [y]. split; [reflexivity|]. cbn [fst].
    destruct (shouldDoPublicRelease config).
    + destruct Hcase as [Hr Hs]. now apply carries_out_failed.
    + destruct Hcase as [-> Hs]. split; [reflexivity|].
      simpl. now rewrite Hs.
Qed.

(** X27. [publishArtifactsToBarque] waits for the packages only after
    every build variant was released to barque, and it waits, for 300
    seconds, for the package URLs those releases returned, in the order of
    the variants. *)
Theorem barque_waits_for_all (project : option string)
    (releaseVersion tag : string) (info : PackageInformation)
    (log : list Effect) (urls : list string) (seconds : nat) :
  In (WaitUntilPackagesAreAvailable urls seconds)
     (snd (publishArtifactsToBarque project releaseVersion tag info log)) ->
  In (WaitUntilPackagesAreAvailable urls seconds) log
  \/ (seconds = 300
      /\ urls =
         flat_map (released project releaseVersion tag info)
           ALL_BUILD_VARIANTS
      /\ Forall (fun v =>
           is_fulfilled
             (releaseToBarque v
                (packageUrl project releaseVersion tag info v)) = true)
           ALL_BUILD_VARIANTS).
Proof.
  intros Hin.
  destruct (publishArtifactsToBarque_effects project releaseVersion tag info
              log) as (r & added & Heq & _ & _ & Hwait).
  rewrite Heq in Hin. simpl in Hin.
  apply in_app_or in Hin as [Hin|Hin]; [now left|].
  right. now apply Hwait.
Qed.

End Publish.

End RunPublish.

(** *** A release with two build variants *)

Module PublishSamples.

Import RunPublish.

Definition variants : list string := ["linux"; "darwin"].

Definition config : Config string :=
  {| triggeringGitTag := Some "v0.7.0";
     revision := Some "revision";
     packageInformation := Some "mongosh";
     project := Some "mongosh";
     downloadCenterAwsKey := Some "key";
     downloadCenterAwsSecret := None;
     version := "0.7.0" |}.

Definition mongoshGithubRepo : Repo :=
  {| owner := "mongodb-js"; repo := "mongosh" |}.

Definition getReleaseVersionFromTag (tag : option string) : option string :=
  match tag with
  | Some (String "v" version) => Some version
  | _ => None
  end.

Definition getMostRecentDraftTagForRelease (releaseVersion : option string)
  : outcome Error (option Tag) :=
  match releaseVersion with
  | Some v =>
      Fulfilled (Some {| tag_name := ("v" ++ v ++ "-draft.42")%string;
                         sha := "revision" |})
  | None => Fulfilled None
  end.

Definition getPackageFile (variant info version : string) : string :=
  (info ++ "-" ++ version ++ "-" ++ variant)%string.

Definition getEvergreenArtifactUrl (project : option string)
    (tag path : string) : string :=
  (or_empty project ++ "/" ++ tag ++ "/" ++ path)%string.

Definition releaseToBarque (variant url : string)
  : outcome Error (list string) :=
  Fulfilled [("barque/" ++ variant)%string].

(** The GitHub release cannot be promoted. *)
Definition promoteRelease (c : Config string) : outcome Error string :=
  Thrown (Err "Release for v0.7.0 not found.").

Definition runPublish (public : bool) :=
  runPublish string (fun info => Some info) variants (fun _ => public)
    getReleaseVersionFromTag getMostRecentDraftTagForRelease getPackageFile
    getEvergreenArtifactUrl releaseToBarque (fun _ _ => Fulfilled tt)
    (fun _ _ _ => Fulfilled tt) promoteRelease (fun _ _ => Fulfilled tt)
    (Returns (Fulfilled tt)) (fun _ _ => Fulfilled tt) config
    mongoshGithubRepo.

(** A release where everything works but the promise that
    [publishNpmPackages] returns, which is rejected. *)
Definition runPublish_npm_rejected :=
  RunPublish.runPublish string (fun info => Some info) variants
    (fun _ => true) getReleaseVersionFromTag
    getMostRecentDraftTagForRelease getPackageFile getEvergreenArtifactUrl
    releaseToBarque (fun _ _ => Fulfilled tt) (fun _ _ _ => Fulfilled tt)
    (fun _ => Fulfilled "https://github.com/mongodb-js/mongosh/releases/7")
    (fun _ _ => Fulfilled tt) (Returns (Thrown (Err "npm failed")))
    (fun _ _ => Fulfilled tt) config mongoshGithubRepo.

End PublishSamples.

Example publish_stops_at_promotion :
  fst (PublishSamples.runPublish true []) =
    Thrown (RunPublish.Err "Release for v0.7.0 not found.")
  /\ RunPublish.steps string (snd (PublishSamples.runPublish true [])) =
     [RunPublish.Lookup; RunPublish.Release; RunPublish.Release;
      RunPublish.Wait; RunPublish.DownloadCenter; RunPublish.Promote].
Proof. split; reflexivity. Qed.

Example publish_not_public :
  PublishSamples.runPublish false [] =
  (Fulfilled tt,
   [RunPublish.ConsoleWarn string
      "mongosh: Not triggering publish - configuration does not match a public release!"]).
Proof. reflexivity. Qed.

(** The promise returned by [publishNpmPackages] is dropped: its
    rejection does not keep the release from Homebrew, nor from being
    fulfilled. *)
Example rejected_npm_promise_is_ignored :
  fst (PublishSamples.runPublish_npm_rejected []) = Fulfilled tt
  /\ RunPublish.steps string (snd (PublishSamples.runPublish_npm_rejected []))
     = [RunPublish.Lookup; RunPublish.Release; RunPublish.Release;
        RunPublish.Wait; RunPublish.DownloadCenter; RunPublish.Promote;
        RunPublish.BuildInfo; RunPublish.Npm; RunPublish.Homebrew].
Proof. split; reflexivity. Qed.

Lemma nothing_published_unchecked_witness :
  In (RunPublish.PromoteRelease string PublishSamples.config) []
  \/ RunPublish.cleared string (fun info => Some info) (fun _ => true)
       PublishSamples.getReleaseVersionFromTag
       PublishSamples.getMostRecentDraftTagForRelease PublishSamples.config.
Proof.
  apply (RunPublish.nothing_published_unchecked string
           (fun info => Some info) PublishSamples.variants (fun _ => true)
           PublishSamples.getReleaseVersionFromTag
           PublishSamples.getMostRecentDraftTagForRelease
           PublishSamples.getPackageFile
           PublishSamples.getEvergreenArtifactUrl
           PublishSamples.releaseToBarque (fun _ _ => Fulfilled tt)
           (fun _ _ _ => Fulfilled tt) PublishSamples.promoteRelease
           (fun _ _ => Fulfilled tt) (RunPublish.Returns (Fulfilled tt))
           (fun _ _ => Fulfilled tt) PublishSamples.config
           PublishSamples.mongoshGithubRepo []
           (RunPublish.PromoteRelease string PublishSamples.config)).
  - vm_compute. auto 20.
  - reflexivity.
Defined.

Lemma barque_waits_for_all_witness :
  In (RunPublish.WaitUntilPackagesAreAvailable string
        ["barque/linux"; "barque/darwin"] 300) []
  \/ (300 = 300
      /\ ["barque/linux"; "barque/darwin"] =
         flat_map
           (RunPublish.released string PublishSamples.getPackageFile
              PublishSamples.getEvergreenArtifactUrl
              PublishSamples.releaseToBarque (Some "mongosh") "0.7.0"
              "v0.7.0-draft.42" "mongosh")
           PublishSamples.variants
      /\ Forall (fun v =>
           RunPublish.is_fulfilled
             (PublishSamples.releaseToBarque v
                (RunPublish.packageUrl string PublishSamples.getPackageFile
                   PublishSamples.getEvergreenArtifactUrl (Some "mongosh")
                   "0.7.0" "v0.7.0-draft.42" "mongosh" v)) = true)
           PublishSamples.variants).
Proof.
  apply (RunPublish.barque_waits_for_all string PublishSamples.variants
           PublishSamples.getMostRecentDraftTagForRelease
           PublishSamples.getPackageFile
           PublishSamples.getEvergreenArtifactUrl
           PublishSamples.releaseToBarque (fun _ _ => Fulfilled tt)
           (fun _ _ _ => Fulfilled tt) PublishSamples.promoteRelease
           (fun _ _ => Fulfilled tt) (RunPublish.Returns (Fulfilled tt))
           (fun _ _ => Fulfilled tt)
           (Some "mongosh") "0.7.0" "v0.7.0-draft.42" "mongosh" []
           ["barque/linux"; "barque/darwin"] 300).
  vm_compute. auto 20.
Defined.

(** ** Releases on GitHub (build/src/github-repo.ts) *)

Module GithubRepo.

Local Open Scope js_scope.

(** What is thrown: [new Error(message)], or what octokit rejects with,
    of which the [name], the [status] and the codes of [errors] are
    looked at ([codes] is [None] when there is no [errors] array). *)
Inductive Error : Type :=
| Err (message : string)
| RequestError (name : string) (status : nat) (codes : option (list string)).

Record ReleaseAsset : Type := {
  asset_id : nat;
  asset_name : string;
  asset_url : string
}.

Record ReleaseDetails : Type := {
  tag_name : string;
  draft : bool;
  upload_url : string;
  id : nat;
  assets : option (list ReleaseAsset);
  html_url : string
}.

Record Release : Type := {
  name : string;
  tag : string;
  notes : string
}.

(** The requests sent to the repository [this.repo], and the console. *)
Inductive Request : Type :=
| ListReleases
| CreateRelease (tag_name name body : string) (draft : bool)
| UpdateRelease (release_id : nat) (text : option (string * string * string))
    (draft : bool)
| ConsoleInfo (message : string).

Definition is_write (x : Request) : bool :=
  match x with
  | CreateRelease _ _ _ _ | UpdateRelease _ _ _ => true
  | _ => false
  end.

(** The [draft] field a request sends. *)
Definition sends_draft (x : Request) : option bool :=
  match x with
  | CreateRelease _ _ _ d | UpdateRelease _ _ d => Some d
  | _ => None
  end.

Definition _isAlreadyExistsError (error : Error) : bool :=
  match error with
  | RequestError name status (Some [code]) =>
      String.eqb name "HttpError" && Nat.eqb status 422
      && String.eqb code "already_exists"
  | _ => false
  end.

Section Repo.

(** What the listing of the releases and the writes settle to. *)
Variable releases : outcome Error (list ReleaseDetails).
Variable respond : Request -> outcome Error unit.

Definition call {A : Type} (x : Request) (settles : outcome Error A)
  : M (list Request) Error A :=
  modify (fun log => log ++ [x]) ;; await settles.

Definition _ignoreAlreadyExistsError (error : Error)
  : M (list Request) Error unit :=
  if _isAlreadyExistsError error then ret tt else throw error.

Definition getReleaseByTag (tag : string)
  : M (list Request) Error (option ReleaseDetails) :=
  all <- call ListReleases releases ;;
  ret (find (fun r => String.eqb (tag_name r) tag) all).

Definition updateDraftRelease (release : Release)
  : M (list Request) Error unit :=
  existingRelease <- getReleaseByTag (tag release) ;;
  match existingRelease with
  | None =>
      let request :=
        CreateRelease (tag release) (name release) (notes release) true in
      try_catch (call request (respond request)) _ignoreAlreadyExistsError
  | Some existing =>
      if negb (draft existing)
      then throw (Err
             "Cannot update an existing release after it was published")
      else
        let request :=
          UpdateRelease (id existing)
            (Some (tag release, name release, notes release)) true in
        call request (respond request)
  end.

Definition promoteRelease (version : string) : M (list Request) Error string :=
  let tag := ("v" ++ version)%string in
  releaseDetails <- getReleaseByTag tag ;;
  match releaseDetails with
  | None => throw (Err ("Release for " ++ tag ++ " not found."))
  | Some details =>
      if negb (draft details)
      then
        modify (fun log =>
          log ++ [ConsoleInfo
                    ("Release for " ++ tag ++ " is already public.")]) ;;
        ret (html_url details)
      else
        let request := UpdateRelease (id details) None false in
        call request (respond request) ;;
        ret (html_url details)
  end.

(** The release a tag stands for: the first of the listing with it. *)
Definition release_of (tag : string) : option ReleaseDetails :=
  match releases with
  | Fulfilled all => find (fun r => String.eqb (tag_name r) tag) all
  | _ => None
  end.

Lemma getReleaseByTag_run (tag : string) (log : list Request) :
  getReleaseByTag tag log =
  (match releases with
   | Fulfilled all =>
       Fulfilled (find (fun r => String.eqb (tag_name r) tag) all)
   | Thrown e => Thrown e
   | Pending => Pending
   end, log ++ [ListReleases]).
Proof.
  unfold getReleaseByTag, call, bind, modify, await, ret.
  now destruct releases.
Qed.

Lemma release_of_tag (t : string) (r : ReleaseDetails) :
  release_of t = Some r -> tag_name r = t.
Proof.
  unfold release_of. destruct releases as [all| |]; try discriminate.
  intros H. apply find_some in H as [_ H]. now apply String.eqb_eq.
Qed.

Lemma promoteRelease_run (version : string) (log : list Request) :
  promoteRelease version log =
  match releases with
  | Fulfilled all =>
      match find (fun r => String.eqb (tag_name r) ("v" ++ version)) all with
      | Some details =>
          if draft details
          then
            (match respond (UpdateRelease (id details) None false) with
             | Fulfilled _ => Fulfilled (html_url details)
             | Thrown e => Thrown e
             | Pending => Pending
             end,
             log ++ [ListReleases; UpdateRelease (id details) None false])
          else
            (Fulfilled (html_url details),
             log ++ [ListReleases;
                     ConsoleInfo ("Release for " ++ ("v" ++ version)
                                  ++ " is already public.")])
      | None =>
          (Thrown (Err ("Release for " ++ ("v" ++ version) ++ " not found.")),
           log ++ [ListReleases])
      end
  | Thrown e => (Thrown e, log ++ [ListReleases])
  | Pending => (Pending, log ++ [ListReleases])
  end.
Proof.
  unfold promoteRelease. cbv zeta. unfold bind at 1.
  rewrite getReleaseByTag_run.
  destruct releases as [all|e|]; try reflexivity.
  destruct (find _ all) as [details|]; [|reflexivity].
  destruct (draft details); cbn [negb].
  - unfold call, bind, modify, await, ret.
    destruct (respond _) as [[]|e|]; now rewrite <- app_assoc.
  - unfold bind, modify, ret. now rewrite <- app_assoc.
Qed.

Lemma updateDraftRelease_run (release : Release) (log : list Request) :
  updateDraftRelease release log =
  match releases with
  | Fulfilled all =>
      match find (fun r => String.eqb (tag_name r) (tag release)) all with
      | Some existing =>
          if draft existing
          then
            (respond (UpdateRelease (id existing)
                        (Some (tag release, name release, notes release))
                        true),
             log ++ [ListReleases;
                     UpdateRelease (id existing)
                       (Some (tag release, name release, notes release))
                       true])
          else
            (Thrown (Err
               "Cannot update an existing release after it was published"),
             log ++ [ListReleases])
      | None =>
          (match respond (CreateRelease (tag release) (name release)
                            (notes release) true) with
           | Thrown error =>
               if _isAlreadyExistsError error then Fulfilled tt
               else Thrown error
           | settled => settled
           end,
           log ++ [ListReleases;
                   CreateRelease (tag release) (name release)
                     (notes release) true])
      end
  | Thrown e => (Thrown e, log ++ [ListReleases])
  | Pending => (Pending, log ++ [ListReleases])
  end.
Proof.
  unfold updateDraftRelease. unfold bind at 1.
  rewrite getReleaseByTag_run.
  destruct releases as [all|e|]; try reflexivity.
  destruct (find _ all) as [existing|].
  - destruct (draft existing); cbn [negb]; [|reflexivity].
    cbv zeta. unfold call, bind, modify, await.
    destruct (respond _) as [[]|e|]; now rewrite <- app_assoc.
  - cbv zeta. unfold try_catch, call, bind, modify, await,
      _ignoreAlreadyExistsError.
    destruct (respond _) as [[]|e|];
      [| destruct (_isAlreadyExistsError e) |];
      unfold ret, throw; now rewrite <- app_assoc.
Qed.

(** X28. [promoteRelease] writes at most once, and only to clear the
    draft flag of the release that carries the tag [v<version>] and is
    still a draft; when it is fulfilled, its value is the page of that
    release, which then exists and either was public already or was
    updated. *)
Theorem promoteRelease_writes (version : string) (log : list Request) :
  exists added,
    snd (promoteRelease version log) = log ++ added
    /\ (forall x, In x added -> is_write x = true ->
          exists details,
            release_of ("v" ++ version) = Some details
            /\ tag_name details = ("v" ++ version)%string
            /\ draft details = true
            /\ x = UpdateRelease (id details) None false
            /\ filter is_write added = [x])
    /\ (forall url, fst (promoteRelease version log) = Fulfilled url ->
          exists details,
            release_of ("v" ++ version) = Some details
            /\ url = html_url details
            /\ (draft details = false /\ filter is_write added = []
                \/ respond (UpdateRelease (id details) None false) =
                   Fulfilled tt)).
Proof.
  rewrite promoteRelease_run.
  pose proof (release_of_tag ("v" ++ version)) as Htag.
  unfold release_of in *.
  destruct releases as [all|e|].
  - destruct (find _ all) as [details|] eqn:Hfind.
    + destruct (draft details) eqn:Hdraft.
      * exists [ListReleases; UpdateRelease (id details) None false].
        cbn [fst snd]. split; [reflexivity|]. split.
        -- intros x [<-|[<-|[]]] Hx; [discriminate|].
           exists details. repeat split; auto.
        -- intros url Hu. exists details.
           destruct (respond _) as [[]|e|]; try discriminate.
           injection Hu as <-. auto.
      * exists [ListReleases;
                ConsoleInfo ("Release for " ++ ("v" ++ version)
                             ++ " is already public.")].
        cbn [fst snd]. split; [reflexivity|]. split.
        -- intros x [<-|[<-|[]]] Hx; discriminate.
        -- intros url [= <-]. exists details. auto.
    + exists [ListReleases]. cbn [fst snd].
      split; [reflexivity|]. split.
      * intros x [<-|[]] Hx; discriminate.
      * intros url Hu; discriminate.
  - exists [ListReleases]. cbn [fst snd]. split; [reflexivity|]. split.
    + intros x [<-|[]] Hx; discriminate.
    + intros url Hu; discriminate.
  - exists [ListReleases]. cbn [fst snd]. split; [reflexivity|]. split.
    + intros x [<-|[]] Hx; discriminate.
    + intros url Hu; discriminate.
Qed.

(** X29. [updateDraftRelease] never publishes and never touches a
    published release: every write it sends has [draft: true]; it creates
    a release only when none carries the tag and updates one only when
    it is still a draft; and when the release with the tag is public it
    throws without writing. *)
Theorem updateDraftRelease_writes (release : Release)
    (log : list Request) :
  exists added,
    snd (updateDraftRelease release log) = log ++ added
    /\ (forall x, In x added -> is_write x = true ->
          sends_draft x = Some true
          /\ match release_of (tag release) with
             | None =>
                 x = CreateRelease (tag release) (name release)
                       (notes release) true
             | Some existing =>
                 draft existing = true
                 /\ x = UpdateRelease (id existing)
                          (Some (tag release, name release, notes release))
                          true
             end)
    /\ match release_of (tag release) with
       | Some existing =>
           if draft existing then True
           else fst (updateDraftRelease release log) =
                  Thrown (Err
                    "Cannot update an existing release after it was published")
                /\ added = [ListReleases]
       | None => True
       end.
Proof.
  rewrite updateDraftRelease_run. unfold release_of.
  destruct releases as [all|e|].
  - destruct (find _ all) as [existing|] eqn:Hfind.
    + destruct (draft existing) eqn:Hdraft.
      * exists [ListReleases;
                UpdateRelease (id existing)
                  (Some (tag release, name release, notes release)) true].
        cbn [fst snd]. split; [reflexivity|]. split; [|exact I].
        intros x [<-|[<-|[]]] Hx; [discriminate|]. auto.
      * exists [ListReleases]. cbn [fst snd].
        split; [reflexivity|]. split; [|split; reflexivity].
        intros x [<-|[]] Hx; discriminate.
    + exists [ListReleases;
              CreateRelease (tag release) (name release) (notes release)
                true].
      cbn [fst snd]. split; [reflexivity|]. split; [|exact I].
      intros x [<-|[<-|[]]] Hx; [discriminate|]. auto.
  - exists [ListReleases]. cbn [snd]. split; [reflexivity|].
    split; [|exact I]. intros x [<-|[]] Hx; discriminate.
  - exists [ListReleases]. cbn [snd]. split; [reflexivity|].
    split; [|exact I]. intros x [<-|[]] Hx; discriminate.
Qed.

Lemma _isAlreadyExistsError_spec (error : Error) :
  _isAlreadyExistsError error = true <->
  error = RequestError "HttpError" 422 (Some ["already_exists"]).
Proof.
  split.
  - destruct error as [m|n st [[|code [|c2 cs]]|]]; try discriminate.
    unfold _isAlreadyExistsError. rewrite !andb_true_iff.
    intros [[Hn Hs] Hc].
    apply String.eqb_eq in Hn, Hc. apply Nat.eqb_eq in Hs. now subst.
  - intros ->. reflexivity.
Qed.

(** X30. A release that somebody else created in the meantime is no
    failure: when no release carries the tag and the creation is rejected,
    [updateDraftRelease] is fulfilled if the rejection is an [HttpError]
    of status 422 whose only error has the code [already_exists], and
    rejects with that rejection in every other case. *)
Theorem updateDraftRelease_already_exists (release : Release)
    (log : list Request) (all : list ReleaseDetails) (error : Error) :
  releases = Fulfilled all ->
  find (fun r => String.eqb (tag_name r) (tag release)) all = None ->
  respond (CreateRelease (tag release) (name release) (notes release) true)
    = Thrown error ->
  (error = RequestError "HttpError" 422 (Some ["already_exists"])
   /\ fst (updateDraftRelease release log) = Fulfilled tt
   \/ error <> RequestError "HttpError" 422 (Some ["already_exists"])
      /\ fst (updateDraftRelease release log) = Thrown error)
  /\ snd (updateDraftRelease release log) =
     log ++ [ListReleases;
             CreateRelease (tag release) (name release) (notes release)
               true].
Proof.
  intros Hall Hfind Hcreate.
  rewrite updateDraftRelease_run, Hall, Hfind, Hcreate.
  pose proof (_isAlreadyExistsError_spec error) as Hspec.
  destruct (_isAlreadyExistsError error); cbn [fst snd];
    (split; [|reflexivity]).
  - left. split; [now apply Hspec | reflexivity].
  - right. split; [|reflexivity].
    intros Heq. apply Hspec in Heq. discriminate.
Qed.

End Repo.

End GithubRepo.

(** *** Two jobs drafting the same release *)

Module GithubSamples.

Import GithubRepo.

Definition release : Release :=
  {| name := "0.7.0"; tag := "v0.7.0-draft.1"; notes := "Release notes" |}.

(** The other job was faster. *)
Definition respond (x : Request) : outcome Error unit :=
  match x with
  | CreateRelease _ _ _ _ =>
      Thrown (RequestError "HttpError" 422 (Some ["already_exists"]))
  | _ => Fulfilled tt
  end.

Definition published : ReleaseDetails :=
  {| tag_name := "v0.7.0"; draft := false; upload_url := "upload";
     id := 7; assets := None; html_url := "https://github.com/releases/7" |}.

End GithubSamples.

Example promote_public_release :
  GithubRepo.promoteRelease (Fulfilled [GithubSamples.published])
    GithubSamples.respond "0.7.0" [] =
  (Fulfilled "https://github.com/releases/7",
   [GithubRepo.ListReleases;
    GithubRepo.ConsoleInfo "Release for v0.7.0 is already public."]).
Proof. reflexivity. Qed.

Lemma updateDraftRelease_already_exists_witness :
  (GithubRepo.RequestError "HttpError" 422 (Some ["already_exists"]) =
   GithubRepo.RequestError "HttpError" 422 (Some ["already_exists"])
   /\ fst (GithubRepo.updateDraftRelease (Fulfilled [GithubSamples.published])
             GithubSamples.respond GithubSamples.release []) = Fulfilled tt
   \/ GithubRepo.RequestError "HttpError" 422 (Some ["already_exists"]) <>
      GithubRepo.RequestError "HttpError" 422 (Some ["already_exists"])
      /\ fst (GithubRepo.updateDraftRelease
                (Fulfilled [GithubSamples.published])
                GithubSamples.respond GithubSamples.release []) =
         Thrown (GithubRepo.RequestError "HttpError" 422
                   (Some ["already_exists"])))
  /\ snd (GithubRepo.updateDraftRelease (Fulfilled [GithubSamples.published])
            GithubSamples.respond GithubSamples.release []) =
     [] ++ [GithubRepo.ListReleases;
            GithubRepo.CreateRelease "v0.7.0-draft.1" "0.7.0" "Release notes"
              true].
Proof.
  apply (GithubRepo.updateDraftRelease_already_exists
           (Fulfilled [GithubSamples.published]) GithubSamples.respond
           GithubSamples.release [] [GithubSamples.published]
           (GithubRepo.RequestError "HttpError" 422
              (Some ["already_exists"]))).
  - reflexivity.
  - reflexivity.
  - reflexivity.
Defined.
